(** * f1viewer: the episode organizer, the entity resolver, the tree
    population engine and the command dispatcher of [main.go], with the later,
    guarded [getYearAndRace], embedded in Rocq and checked against the
    specification.

    Go values are modelled as follows.
    - [string] is Go's [string]: a sequence of bytes ([ascii]); [len] is
      [String.length], [s[lo:hi]] is [go_slice], which panics out of range.
    - [int] is [Z]; the only arithmetic in the modelled code is a comparison
      with a constant.
    - a run-time panic (slice bounds, index out of range, nil dereference)
      ends the process: the [go] monad below.
    - a Go result pair [(v, err)] is a Rocq pair whose second component is an
      [option error], [None] being [nil].
    - [map[string]T] is [gmap string T].
    - [*tview.TreeNode] is the record [TreeNode]; a slot of a
      [[]*tview.TreeNode] is an [option TreeNode], [None] being the nil
      pointer. *)

From stdpp Require Import base decidable option list strings gmap sorting.
From Stdlib Require Import ZArith Lia Ascii DecimalString.

Open Scope Z_scope.
Open Scope nat_scope.

(** ** Panics *)

Inductive panic : Type :=
| SliceBounds        (* slice bounds out of range *)
| IndexRange         (* index out of range *)
| NilDeref.          (* invalid memory address or nil pointer dereference *)

Inductive go (A : Type) : Type :=
| Ret (a : A)
| Panic (p : panic).
Arguments Ret {A} a.
Arguments Panic {A} p.

Definition go_bind {A B} (m : go A) (k : A → go B) : go B :=
  match m with
  | Ret a => k a
  | Panic p => Panic p
  end.

Notation "x ←! m ; k" := (go_bind m (λ x, k))
  (at level 20, m at level 100, k at level 200, only parsing, right associativity).
Notation "' p ←! m ; k" := (go_bind m (λ x, match x with p => k end))
  (at level 20, p pattern, m at level 100, k at level 200, only parsing,
   right associativity).

Definition returns {A} (m : go A) : Prop := ∃ a, m = Ret a.

(** Monadic left-to-right iteration over a slice ([for _, x := range l]). *)
Fixpoint go_foldl {A S} (body : S → A → go S) (s : S) (l : list A) : go S :=
  match l with
  | [] => Ret s
  | x :: l' => s' ←! body s x; go_foldl body s' l'
  end.

Fixpoint go_mapM {A B} (f : A → go B) (l : list A) : go (list B) :=
  match l with
  | [] => Ret []
  | x :: l' => y ←! f x; ys ←! go_mapM f l'; Ret (y :: ys)
  end.

(** ** Strings *)

(** [s[lo:hi]]: Go panics unless [lo <= hi <= len(s)]. *)
Definition go_slice (s : string) (lo hi : nat) : go string :=
  if decide (lo ≤ hi ∧ hi ≤ String.length s)
  then Ret (String.substring lo (hi - lo) s)
  else Panic SliceBounds.

(** Go's [<] on strings: byte-wise lexicographic. *)
Definition string_lt (a b : string) : bool := String.ltb a b.

(** ** [strconv] *)

Inductive error : Type :=
| ErrSyntax                    (* strconv.ErrSyntax, wrapped in a NumError *)
| ErrRange                     (* strconv.ErrRange, wrapped in a NumError *)
| errors_New (msg : string).   (* errors.New(msg) *)

Definition is_digit (ch : ascii) : bool :=
  let n := N_of_ascii ch in ((48 <=? n) && (n <=? 57))%N.

Definition digit_val (ch : ascii) : Z := (Z.of_N (N_of_ascii ch) - 48)%Z.

Fixpoint parse_digits (n : Z) (s : string) : option Z :=
  match s with
  | EmptyString => Some n
  | String ch s' =>
      if is_digit ch then parse_digits (n * 10 + digit_val ch)%Z s' else None
  end.

Definition maxInt : Z := (2 ^ 63 - 1)%Z.
Definition minInt : Z := (- 2 ^ 63)%Z.

(** [strconv.Atoi] of the Go standard library on a 64-bit platform: an
    optional sign, then one or more decimal digits and nothing else; the empty
    string, a lone sign and any other byte are syntax errors (value 0); a
    value outside [int] is a range error (value clamped). *)
Definition Atoi (s : string) : Z * option error :=
  match s with
  | EmptyString => (0%Z, Some ErrSyntax)
  | String s0 rest =>
      let neg := bool_decide (s0 = "-"%char) in
      let body := if bool_decide (s0 = "-"%char ∨ s0 = "+"%char) then rest else s in
      match body with
      | EmptyString => (0%Z, Some ErrSyntax)
      | _ =>
          match parse_digits 0 body with
          | None => (0%Z, Some ErrSyntax)
          | Some n =>
              let v := if neg then (- n)%Z else n in
              if (v <? minInt)%Z then (minInt, Some ErrRange)
              else if (maxInt <? v)%Z then (maxInt, Some ErrRange)
              else (v, None)
          end
      end
  end.

(** ** [getYearAndRace], first version (main.go, unguarded) *)

(** takes year/race ID and returns full year and race number as strings *)
Definition getYearAndRace (input : string) : go (string * string) :=
  year ←! go_slice input 0 2;
  let '(intYear, _) := Atoi year in
  let fullYear :=
    if (intYear <? 30)%Z then "20" +:+ year else "19" +:+ year in
  raceNumber ←! go_slice input 2 4;
  Ret (fullYear, raceNumber).

(** ** [getYearAndRace], later version (guarded, error-returning) *)

Module Util.

Definition getYearAndRace (input : string) : go (string * string * option error) :=
  let fullYear := "" in
  let raceNumber := "" in
  if decide (String.length input < 4) then
    Ret (fullYear, raceNumber, Some (errors_New "not long enough"))
  else
    tok ←! go_slice input 0 4;
    let '(_, err) := Atoi tok in
    if err is Some _ then
      Ret (fullYear, raceNumber, Some (errors_New "not a valid YearRaceID"))
    else
      if bool_decide (tok = "2018") || bool_decide (tok = "2019") then
        Ret (tok, "0", None)
      else
        year ←! go_slice input 0 2;
        let '(intYear, _) := Atoi year in
        let fullYear :=
          if (intYear <? 30)%Z then "20" +:+ year else "19" +:+ year in
        raceNumber ←! go_slice input 2 4;
        Ret (fullYear, raceNumber, None).

End Util.


(** ** [strings] *)

(** [strings.Contains(s, substr)] *)
Fixpoint strings_Contains (s substr : string) : bool :=
  String.prefix substr s ||
  match s with
  | EmptyString => false
  | String _ s' => strings_Contains s' substr
  end.

(** [strings.Replace(s, old, new, -1)] for a non-empty [old] (the source
    calls it with the constants "$file" and "$url"): every non-overlapping
    occurrence of [old], left to right.  [skip] counts the bytes of a match
    that are still to be dropped. *)
Fixpoint replace_from (skip : nat) (s old new : string) : string :=
  match s with
  | EmptyString => EmptyString
  | String c s' =>
      match skip with
      | S k => replace_from k s' old new
      | O =>
          if String.prefix old s
          then new +:+ replace_from (String.length old - 1) s' old new
          else String c (replace_from 0 s' old new)
      end
  end.

Definition strings_Replace (s old new : string) : string :=
  replace_from 0 s old new.

(** [strconv.Itoa] *)
Definition Itoa (n : Z) : string := NilEmpty.string_of_int (Z.to_int n).

(** ** [sort.Slice] and [sort.Strings]

    The Go library sorts in place, calling [less] on pairs of elements; a
    panic in [less] leaves [sort.Slice] by panicking.  The library promises a
    sorted result only for a [less] that is a strict weak ordering, and no
    stability.  The class states that contract; [insertionSort] below is what
    the library runs on short slices (at most 12 elements since Go 1.19, and on
    fewer than 7 elements before, where the gap-6 pass that precedes it is
    empty). *)

Definition strict_weak_on {A} (f : A → A → bool) (l : list A) : Prop :=
  (∀ a b, a ∈ l → b ∈ l → f a b = true → f b a = false) ∧
  (∀ a b c, a ∈ l → b ∈ l → c ∈ l → f a b = false → f b c = false → f a c = false).

(** [not_after f a b]: [b] is not strictly before [a]. *)
Definition not_after {A} (f : A → A → bool) (a b : A) : Prop := f b a = false.

Class SliceSorter : Type := {
  sort_Slice : ∀ {A : Type}, (A → A → go bool) → list A → go (list A);
  sort_Slice_perm : ∀ A (less : A → A → go bool) l l',
    sort_Slice less l = Ret l' → l' ≡ₚ l;
  sort_Slice_returns : ∀ A (less : A → A → go bool) l,
    (∀ a b, a ∈ l → b ∈ l → returns (less a b)) → returns (sort_Slice less l);
  sort_Slice_sorted : ∀ A (less : A → A → go bool) (f : A → A → bool) l l',
    (∀ a b, a ∈ l → b ∈ l → less a b = Ret (f a b)) →
    strict_weak_on f l →
    sort_Slice less l = Ret l' → StronglySorted (not_after f) l'
}.

(** Insertion of [x] at the end of a sorted prefix, the prefix being held in
    reverse: [for j := i; j > a && less(j, j-1); j-- { swap(j, j-1) }]. *)
Fixpoint sink {A} (less : A → A → go bool) (x : A) (rprefix : list A) : go (list A) :=
  match rprefix with
  | [] => Ret [x]
  | y :: r =>
      b ←! less x y;
      if b : bool then r' ←! sink less x r; Ret (y :: r') else Ret (x :: y :: r)
  end.

Definition insertionSort {A} (less : A → A → go bool) (l : list A) : go (list A) :=
  r ←! go_foldl (λ rprefix x, sink less x rprefix) [] l;
  Ret (reverse r).

(** [sort.Strings(lines)] *)
Definition sort_Strings `{SliceSorter} (lines : list string) : go (list string) :=
  sort_Slice (λ a b, Ret (string_lt a b)) lines.

(** ** Data model *)

(** The struct types of the catalog are declared outside main.go; each record
    below carries the fields that main.go reads, under the names it reads
    them by (a field [Name] is prefixed with its struct). *)

(** Modelled from the spec: [driverStruct], whose declaration is missing
    ("driver: first name, last name, racing number"). *)
Record driverStruct : Type := {
  FirstName : string;
  LastName : string;
  DriverRacingnumber : Z
}.

(** Modelled from the spec: [teamStruct], whose declaration is missing
    ("team: name"). *)
Record teamStruct : Type := { team_Name : string }.

(** Modelled from the spec: [episodeStruct], whose declaration is missing
    ("episode: title, subtitle, synopsis, source identifier used for date
    derivation, lists of driver/team identifiers, list of playback items"). *)
Record episodeStruct : Type := {
  Title : string;
  Subtitle : string;
  Synopsis : string;
  DataSourceID : string;
  DriverUrls : list string;
  TeamUrls : list string;
  Items : list string
}.

(** Modelled from the spec: [eventStruct], whose declaration is missing; an
    event has a name and the identifiers of its session occurrences. *)
Record eventStruct : Type := {
  OfficialName : string;
  SessionoccurrenceUrls : list string
}.

(** Modelled from the spec: [seasonStruct], whose declaration is missing; a
    season has a name and the identifiers of its event occurrences. *)
Record seasonStruct : Type := {
  season_Name : string;
  EventoccurrenceUrls : list string
}.

(** Modelled from the spec: [allSeasonStruct], whose declaration is missing;
    the list of seasons. *)
Record allSeasonStruct : Type := { Seasons : list seasonStruct }.

(** Modelled from the spec: [sessionStruct], whose declaration is missing; a
    session has a status ("upcoming", "live", ...), a slug and a name. *)
Record sessionStruct : Type := {
  Status : string;
  Slug : string;
  session_Name : string
}.

(** Modelled from the spec: [channelUrlsStruct], whose declaration is missing;
    a perspective has a name, its own identifier and the drivers it shows. *)
Record channelUrlsStruct : Type := {
  channel_Name : string;
  Self : string;
  channel_DriverUrls : list driverStruct
}.

(** Modelled from the spec: the element type of [sessionStreamsStruct.Objects],
    whose declaration is missing. *)
Record streamObject : Type := { ChannelUrls : list channelUrlsStruct }.

(** Modelled from the spec: [sessionStreamsStruct], whose declaration is
    missing. *)
Record sessionStreamsStruct : Type := { Objects : list streamObject }.

(** [command] and [nodeContext] are declared in main.go. *)
Record command : Type := {
  command_Title : string;
  Commands : list (list string);
  Watchphrase : string;
  CommandToWatch : Z
}.

Record nodeContext : Type := {
  EpID : string;
  CustomOptions : command;
  context_Title : string
}.

(** The payload of a tree node ([interface{}] in the source, inspected with
    type assertions). *)
Inductive reference : Type :=
| RefNil
| RefInt (i : Z)
| RefString (s : string)
| RefStrings (l : list string)
| RefEpisode (ep : episodeStruct)
| RefEvent (e : eventStruct)
| RefSeason (s : seasonStruct)
| RefAllSeasons (s : allSeasonStruct)
| RefStreams (s : sessionStreamsStruct)
| RefChannel (c : channelUrlsStruct)
| RefContext (c : nodeContext).

Inductive color : Type :=
| PrimaryTextColor   (* tview.Styles.PrimaryTextColor, the colour of a new node *)
| ColorBlue | ColorYellow | ColorWhite | ColorRed | ColorWheat | ColorGreen.

(** [tview.TreeNode].  A slot of the child slice holds a pointer, which may be
    nil. *)
#[warnings="-register-all"]
Inductive TreeNode : Type := mkTreeNode {
  text : string;
  node_reference : reference;
  node_color : color;
  selectable : bool;
  expanded : bool;
  children : list (option TreeNode)
}.

Definition NewTreeNode (t : string) : TreeNode :=
  {| text := t; node_reference := RefNil; node_color := PrimaryTextColor;
     selectable := true; expanded := true; children := [] |}.

Definition SetText (t : string) (n : TreeNode) : TreeNode :=
  {| text := t; node_reference := node_reference n; node_color := node_color n;
     selectable := selectable n; expanded := expanded n; children := children n |}.

Definition SetReference (r : reference) (n : TreeNode) : TreeNode :=
  {| text := text n; node_reference := r; node_color := node_color n;
     selectable := selectable n; expanded := expanded n; children := children n |}.

Definition SetColor (c : color) (n : TreeNode) : TreeNode :=
  {| text := text n; node_reference := node_reference n; node_color := c;
     selectable := selectable n; expanded := expanded n; children := children n |}.

Definition SetSelectable (b : bool) (n : TreeNode) : TreeNode :=
  {| text := text n; node_reference := node_reference n; node_color := node_color n;
     selectable := b; expanded := expanded n; children := children n |}.

Definition SetExpanded (b : bool) (n : TreeNode) : TreeNode :=
  {| text := text n; node_reference := node_reference n; node_color := node_color n;
     selectable := selectable n; expanded := b; children := children n |}.

Definition SetChildren (cs : list (option TreeNode)) (n : TreeNode) : TreeNode :=
  {| text := text n; node_reference := node_reference n; node_color := node_color n;
     selectable := selectable n; expanded := expanded n; children := cs |}.

(** [n.AddChild(c)]: appends the pointer, nil or not. *)
Definition AddChild (c : option TreeNode) (n : TreeNode) : TreeNode :=
  SetChildren (children n ++ [c]) n.

(** ** The remote catalog

    [getDriver], [getTeam], [getSeasons], [getEvent], [getSession],
    [getSessionStreams], [getPlayableURL] and [downloadAsset] are HTTP calls
    defined outside main.go; they are taken as parameters, functions of their
    arguments: the catalog answers the same identifier with the same record. *)
Class Remote : Type := {
  getDriver : string → driverStruct;
  getTeam : string → teamStruct;
  getSeasons : allSeasonStruct;
  getEvent : string → eventStruct;
  getSession : string → sessionStruct;
  getSessionStreams : string → sessionStreamsStruct;
  getPlayableURL : string → string;
  downloadAsset : string → string → string
}.

(** ** The episode organizer: [addEpisodes] after the wait-for-all join

    [episodes] is the slice as it stands when [wg.Wait()] returns: the loaded
    episodes in the order in which the loading goroutines appended them. *)

(** The comparator handed to [sort.Slice]. *)
Definition episode_less (ei ej : episodeStruct) : go bool :=
  si ←! go_slice (DataSourceID ei) 0 4;
  let '(_, err) := Atoi si in
  sj ←! go_slice (DataSourceID ej) 0 4;
  let '(_, err2) := Atoi sj in
  (* if one of the episodes doesn't start with a date/race code just compare titles *)
  if bool_decide (err ≠ None ∨ err2 ≠ None) then
    Ret (string_lt (Title ei) (Title ej))
  else
    '(year1, race1) ←! getYearAndRace (DataSourceID ei);
    '(year2, race2) ←! getYearAndRace (DataSourceID ej);
    (* sort chronologically by year and race number *)
    Ret (string_lt year1 year2 || (bool_decide (year1 = year2) && string_lt race1 race2)).

Definition episodeNode (ep : episodeStruct) : TreeNode :=
  SetColor ColorGreen (SetReference (RefEpisode ep) (SetSelectable true (NewTreeNode (Title ep)))).

Definition yearNode (year : string) : TreeNode :=
  SetExpanded false (SetReference (RefString year) (SetSelectable true (NewTreeNode year))).

(** [subNode.GetReference() == year] *)
Definition reference_is_string (r : reference) (year : string) : bool :=
  match r with
  | RefString s => bool_decide (s = year)
  | _ => false
  end.

(** The search for the year node: the last child whose reference is [year];
    reading the reference of a nil child panics. *)
Definition find_father (year : string) (cs : list (option TreeNode)) : go (option nat) :=
  '(_, father) ←! go_foldl
      (λ '(i, father) subNode,
         match subNode with
         | None => Panic NilDeref
         | Some n =>
             Ret (S i, if reference_is_string (node_reference n) year
                       then Some i else father)
         end)
      (0, None) cs;
  Ret father.

(** The year bucket of lines 662-672: [Some year] for an identifier whose
    first four bytes [strconv.Atoi] accepts, [None] otherwise. *)
Definition episode_year (ep : episodeStruct) : go (option string) :=
  yearRaceID ←! go_slice (DataSourceID ep) 0 4;
  if (Atoi yearRaceID).2 is None then
    (* special case for IDs that start with 2018/19 since they don't match the pattern *)
    if bool_decide (yearRaceID ≠ "2018") && bool_decide (yearRaceID ≠ "2019") then
      '(year, _) ←! getYearAndRace (DataSourceID ep);
      Ret (Some year)
    else Ret (Some yearRaceID)
  else Ret None.

(** One iteration of the loop over the sorted episodes. *)
Definition attachEpisode (st : TreeNode * list TreeNode) (ep : episodeStruct)
  : go (TreeNode * list TreeNode) :=
  let '(target, skippedEpisodes) := st in
  let node := episodeNode ep in
  oyear ←! episode_year ep;
  match oyear with
  | Some year =>
      father ←! find_father year (children target);
      match father with
      | Some i =>
          (* add episode to matching year *)
          Ret (SetChildren (alter (fmap (AddChild (Some node))) i (children target)) target,
               skippedEpisodes)
      | None =>
          (* if there is no node for the year, create one *)
          Ret (AddChild (Some (AddChild (Some node) (yearNode year))) target,
               skippedEpisodes)
      end
  | None =>
      (* save episodes with no year/race ID to be added at the end *)
      Ret (target, skippedEpisodes ++ [node])
  end.

Definition addEpisodes `{SliceSorter} (target : TreeNode) (episodes : list episodeStruct)
  : go TreeNode :=
  sorted ←! sort_Slice episode_less episodes;
  '(target, skippedEpisodes) ←! go_foldl attachEpisode (target, []) sorted;
  (* add skipped episodes to tree *)
  Ret (foldl (λ t ep, AddChild (Some ep) t) target skippedEpisodes).

(** What the specification calls the result of [organize]: the year buckets
    (label and episodes, in attachment order) and the residual list. *)
Definition episode_of_child (c : option TreeNode) : option episodeStruct :=
  match c with
  | Some {| node_reference := RefEpisode ep |} => Some ep
  | _ => None
  end.

Definition node_episodes (n : TreeNode) : list episodeStruct :=
  omap episode_of_child (children n).

Definition bucket_of_child (c : option TreeNode) : option (string * list episodeStruct) :=
  match c with
  | Some ({| node_reference := RefString year |} as n) => Some (year, node_episodes n)
  | _ => None
  end.

Definition buckets (target : TreeNode) : list (string * list episodeStruct) :=
  omap bucket_of_child (children target).

Definition residual (target : TreeNode) : list episodeStruct := node_episodes target.

(** ** Vocabulary of the specification *)

(** The leading four-byte token of a source identifier, and the identifiers
    the organizer treats as year/race codes: at least four bytes, the first
    four accepted by [strconv.Atoi]. *)
Definition token4 (id : string) : string := String.substring 0 4 id.

Definition parses (id : string) : Prop :=
  4 ≤ String.length id ∧ (Atoi (token4 id)).2 = None.

Definition all_digits (s : string) : bool := forallb is_digit (String.list_ascii_of_string s).




(** An episode with the given source identifier and title and nothing else,
    for the examples. *)
Definition episode (id title : string) : episodeStruct :=
  {| Title := title; Subtitle := ""; Synopsis := ""; DataSourceID := id;
     DriverUrls := []; TeamUrls := []; Items := [] |}.

(** ** The entity resolver *)

Definition addNumberToName (number : Z) (name : string) : string :=
  if (10 <=? number)%Z
  then "(" +:+ Itoa number +:+ ") " +:+ name
  else " (" +:+ Itoa number +:+ ") " +:+ name.

(** change string to driver name + number from metadata *)
Definition driver_name (driver : driverStruct) : string :=
  addNumberToName (DriverRacingnumber driver) (FirstName driver +:+ " " +:+ LastName driver).

(** [getDriverNames] and [getTeamNames] start one goroutine per index [j] of
    [lines] and wait for all of them.  Goroutine [j] makes four accesses to
    shared memory, each atomic (the map accesses are made under the map's
    lock, and index [j] of [lines] is touched by goroutine [j] only): the
    lookup of [lines[j]] in the cache, the remote fetch on a miss, the store
    into the cache, and the write of the name to [lines[j]].  The goroutines
    interleave at that grain; a schedule is the list of the indices of the
    goroutines in the order in which they take their steps. *)
Section resolver.
Context {V : Type} (fetch : string → V) (name_of : V → string).

Inductive phase : Type :=
| PLookup              (* v, ok := cache[lines[j]] *)
| PFetch               (* v = fetch(lines[j]) *)
| PStore (v : V)       (* cache[lines[j]] = v *)
| PName (v : V)        (* lines[j] = name; wg.Done() *)
| PDone.

Record resolving : Type := {
  cache : gmap string V;
  fetched : list string;     (* the identifiers fetched remotely, in order *)
  lines : list string;
  phases : list phase
}.

Definition goroutine_step (st : resolving) (j : nat) : resolving :=
  match phases st !! j, lines st !! j with
  | Some ph, Some id =>
      match ph with
      | PLookup =>
          {| cache := cache st; fetched := fetched st; lines := lines st;
             phases := <[j := match cache st !! id with
                              | Some v => PName v
                              | None => PFetch
                              end]> (phases st) |}
      | PFetch =>
          {| cache := cache st; fetched := fetched st ++ [id]; lines := lines st;
             phases := <[j := PStore (fetch id)]> (phases st) |}
      | PStore v =>
          {| cache := <[id := v]> (cache st); fetched := fetched st; lines := lines st;
             phases := <[j := PName v]> (phases st) |}
      | PName v =>
          {| cache := cache st; fetched := fetched st;
             lines := <[j := name_of v]> (lines st);
             phases := <[j := PDone]> (phases st) |}
      | PDone => st
      end
  | _, _ => st
  end.

Definition run_schedule (sched : list nat) (st : resolving) : resolving :=
  foldl goroutine_step st sched.

(** [wg.Wait()]: the caller goes on when every goroutine is done.  Whatever
    the schedule did, the goroutines that are not done yet run to their end
    (four steps suffice for each). *)
Definition wait_all (n : nat) : list nat :=
  flat_map (λ j, replicate 4 j) (seq 0 n).

Definition resolve (sched : list nat) (m : gmap string V) (ids : list string)
  : resolving :=
  run_schedule (sched ++ wait_all (length ids))
    {| cache := m; fetched := []; lines := ids;
       phases := replicate (length ids) PLookup |}.
End resolver.

Arguments phase : clear implicits.
Arguments resolving : clear implicits.

(** The caches and the log of the remote calls made. *)
Record world : Type := {
  driverMap : gmap string driverStruct;
  teamMap : gmap string teamStruct;
  driver_fetches : list string;
  team_fetches : list string
}.

(** turns slice of driver IDs to their names *)
Definition getDriverNames `{SliceSorter} `{Remote} (sched : list nat) (w : world)
    (ids : list string) : go (list string) * world :=
  let st := resolve getDriver driver_name sched (driverMap w) ids in
  (sort_Strings (lines st),
   {| driverMap := cache st; teamMap := teamMap w;
      driver_fetches := driver_fetches w ++ fetched st;
      team_fetches := team_fetches w |}).

(** turns array of team IDs to their names *)
Definition getTeamNames `{SliceSorter} `{Remote} (sched : list nat) (w : world)
    (ids : list string) : go (list string) * world :=
  let st := resolve getTeam team_Name sched (teamMap w) ids in
  (sort_Strings (lines st),
   {| driverMap := driverMap w; teamMap := cache st;
      driver_fetches := driver_fetches w;
      team_fetches := team_fetches w ++ fetched st |}).

(** [len(s) > threshold && s[:n] == prefix] *)
Definition guarded_prefix (threshold n : nat) (prefix s : string) : go bool :=
  if decide (threshold < String.length s) then
    p ←! go_slice s 0 n; Ret (bool_decide (p = prefix))
  else Ret false.

Inductive resolution : Type := AsDrivers | AsTeams | Unresolved.

(** The dispatch of [convertIDs] on the first line. *)
Definition convertIDs_kind (lines : list string) : go resolution :=
  match lines with
  | [] => Ret Unresolved
  | line0 :: _ =>
      d ←! guarded_prefix 12 12 "/api/driver/" line0;
      if d : bool then Ret AsDrivers
      else
        t ←! guarded_prefix 12 10 "/api/team/" line0;
        if t : bool then Ret AsTeams else Ret Unresolved
  end.

(** checks for driver or team IDs for the info table *)
Definition convertIDs `{SliceSorter} `{Remote} (sched : list nat) (w : world)
    (lines : list string) : go (list string) * world :=
  match convertIDs_kind lines with
  | Ret AsDrivers => getDriverNames sched w lines
  | Ret AsTeams => getTeamNames sched w lines
  | Ret Unresolved => (Ret lines, w)
  | Panic p => (Panic p, w)
  end.

(** ** Invariants of the resolver *)

Definition occurrences (id : string) (l : list string) : nat :=
  length (filter (λ x, x = id) l).

Section resolver_invariant.
Context {V : Type} (fetch : string → V) (name_of : V → string).
Context (m : gmap string V) (ids : list string).

(** What an identifier resolves to in a call that starts from the cache [m]. *)
Definition resolved (id : string) : V := default (fetch id) (m !! id).

Definition goroutine_ok (st : resolving V) (j : nat) (id : string) (ph : phase V) : Prop :=
  match ph with
  | PLookup => lines st !! j = Some id
  | PFetch => lines st !! j = Some id ∧ m !! id = None
  | PStore v => lines st !! j = Some id ∧ m !! id = None ∧ v = fetch id
  | PName v => lines st !! j = Some id ∧ v = resolved id ∧ is_Some (cache st !! id)
  | PDone => lines st !! j = Some (name_of (resolved id)) ∧ is_Some (cache st !! id)
  end.

(** The goroutines that may still fetch [id]: those that hold [id] and have
    not yet fetched it or found it in the cache. *)
Definition fetch_weight (id i : string) (ph : phase V) : nat :=
  match ph with
  | PLookup | PFetch => if decide (i = id) then 1 else 0
  | _ => 0
  end.

Fixpoint may_fetch (id : string) (l : list string) (phs : list (phase V)) : nat :=
  match l, phs with
  | i :: l', ph :: phs' => fetch_weight id i ph + may_fetch id l' phs'
  | _, _ => 0
  end.

(** The steps a goroutine has left, at most. *)
Definition steps_left (ph : phase V) : nat :=
  match ph with
  | PLookup => 4 | PFetch => 3 | PStore _ => 2 | PName _ => 1 | PDone => 0
  end.

Record resolver_inv (st : resolving V) : Prop := {
  inv_phases : length (phases st) = length ids;
  inv_lines : length (lines st) = length ids;
  inv_cache : ∀ id,
    cache st !! id = m !! id ∨ (m !! id = None ∧ cache st !! id = Some (fetch id));
  inv_goroutine : ∀ j id ph,
    ids !! j = Some id → phases st !! j = Some ph → goroutine_ok st j id ph;
  inv_fetched : ∀ id, id ∈ fetched st → m !! id = None ∧ id ∈ ids;
  inv_count : ∀ id,
    occurrences id (fetched st) + may_fetch id ids (phases st) ≤ occurrences id ids
}.
End resolver_invariant.

(** The remote fetches of drivers made from the world [w] to the later world
    [w']. *)
Definition driver_fetches_since (w w' : world) : list string :=
  drop (length (driver_fetches w)) (driver_fetches w').

(** The name a driver identifier is displayed under in a call that starts in
    the world [w]: from the cached record, or from the fetched one. *)
Definition driver_display `{Remote} (w : world) (id : string) : string :=
  driver_name (resolved getDriver (driverMap w) id).

Definition empty_world : world :=
  {| driverMap := ∅; teamMap := ∅; driver_fetches := []; team_fetches := [] |}.

(** A catalog for the examples.  The event "/api/event/cancelled" has no
    session; the sessions of the event "/api/event/next" are upcoming; every
    other event has a qualifying session and a race, each with one feed. *)
Definition sample_remote : Remote :=
  {| getDriver := λ id,
       {| FirstName := "Driver"; LastName := id; DriverRacingnumber := 44 |};
     getTeam := λ id, {| team_Name := "Team " +:+ id |};
     getSeasons := {| Seasons := [] |};
     getEvent := λ id,
       {| OfficialName := "Event " +:+ id;
          SessionoccurrenceUrls :=
            if bool_decide (id = "/api/event/cancelled") then []
            else [id +:+ "/qualifying"; id +:+ "/race"] |};
     getSession := λ id,
       {| Status := if String.prefix "/api/event/next/" id then "upcoming" else "replay";
          Slug := id; session_Name := "Session " +:+ id |};
     getSessionStreams := λ slug,
       {| Objects := [ {| ChannelUrls :=
            [ {| channel_Name := "WIF"; Self := slug +:+ "/wif"; channel_DriverUrls := [] |} ] |} ] |};
     getPlayableURL := λ id, "https://stream/" +:+ id;
     downloadAsset := λ url title, title +:+ ".m3u8" |}.

(** ** The command dispatcher: the [nodeContext] branch of the selection
    handler *)

(** The local variables of one dispatch and the calls it has made. *)
Record dispatch : Type := {
  filepath : string;
  fileLoaded : bool;
  downloads : list (string * string);   (* calls downloadAsset(url, title) *)
  started : list (list string);         (* argument vectors of the processes started *)
  watched : list nat                    (* indices of the commands handed to monitorCommand *)
}.

Definition dispatch_start : dispatch :=
  {| filepath := ""; fileLoaded := false; downloads := []; started := []; watched := [] |}.

(** replace $url and $file in one token *)
Definition substitute `{Remote} (url title : string) (acc : dispatch * list string)
    (s : string) : dispatch * list string :=
  let '(d, tmpCommand) := acc in
  let '(d, t) :=
    if strings_Contains s "$file" then
      let d :=
        if fileLoaded d then d
        else {| filepath := downloadAsset url title; fileLoaded := true;
                downloads := downloads d ++ [(url, title)];
                started := started d; watched := watched d |} in
      (d, strings_Replace s "$file" (filepath d))
    else (d, s) in
  (d, tmpCommand ++ [strings_Replace t "$url" url]).

(** run one command of the template *)
Definition runCommand `{Remote} (monitor : bool) (com : command) (url title : string)
    (d : dispatch) (j : nat) (cmd : list string) : dispatch :=
  match cmd with
  | [] => d
  | _ =>
      let '(d, tmpCommand) := foldl (substitute url title) (d, []) cmd in
      {| filepath := filepath d; fileLoaded := fileLoaded d; downloads := downloads d;
         started := started d ++ [tmpCommand];
         watched := watched d ++
           (if monitor && bool_decide (CommandToWatch com = Z.of_nat j) then [j] else []) |}
  end.

Fixpoint runCommands `{Remote} (monitor : bool) (com : command) (url title : string)
    (d : dispatch) (j : nat) (cmds : list (list string)) : dispatch :=
  match cmds with
  | [] => d
  | cmd :: cmds' =>
      runCommands monitor com url title (runCommand monitor com url title d j cmd) (S j) cmds'
  end.

Definition dispatchCommand `{Remote} (node : TreeNode) (context : nodeContext)
  : dispatch * TreeNode :=
  let com := CustomOptions context in
  let monitor :=
    bool_decide (Watchphrase com ≠ "") &&
    (0 <=? CommandToWatch com)%Z &&
    (CommandToWatch com <? Z.of_nat (length (Commands com)))%Z in
  let url := getPlayableURL (EpID context) in
  let d := runCommands monitor com url (context_Title context) dispatch_start 0 (Commands com) in
  (d, if monitor then node else SetColor ColorBlue node).

(** Some token of some command of the template mentions [$file]. *)
Definition mentions_file (cmds : list (list string)) : bool :=
  existsb (existsb (λ s, strings_Contains s "$file")) cmds.

(** The download log of a dispatch is determined by its [fileLoaded] flag. *)
Definition download_inv (url title : string) (d : dispatch) : Prop :=
  downloads d = if fileLoaded d then [(url, title)] else [].

(** ** The loaders of the tree population engine *)

(** One perspective of a session (main feed, data feed, drivers, etc.). *)
Definition perspectiveNode (streamPerspective : channelUrlsStruct) : TreeNode :=
  let name := channel_Name streamPerspective in
  let name :=
    match channel_DriverUrls streamPerspective with
    | driver0 :: _ => addNumberToName (DriverRacingnumber driver0) name
    | [] => name
    end in
  let name :=
    if bool_decide (name = "WIF") then "Main Feed"
    else if bool_decide (name = "pit lane") then "Pit Lane"
    else if bool_decide (name = "driver") then "Driver Tracker"
    else if bool_decide (name = "data") then "Data Channel"
    else name in
  SetColor ColorGreen
    (SetReference (RefChannel streamPerspective) (SetSelectable true (NewTreeNode name))).

(** returns nodes for every perspective.  The goroutines fill one slot each
    and are waited for; the slice is then sorted with a comparator that looks
    at its first argument only. *)
Definition getPerspectiveNodes `{SliceSorter} (perspectives : list channelUrlsStruct)
  : go (list TreeNode) :=
  sort_Slice (λ ci cj, Ret (negb (strings_Contains (text ci) "(")))
    (perspectiveNode <$> perspectives).

(** The goroutine of [getSessionNodes] for one session: its slot stays nil
    for an upcoming session; [streams.Objects[0]] panics on an empty list. *)
Definition sessionNode `{SliceSorter} `{Remote} (sessionID : string) : go (option TreeNode) :=
  let session := getSession sessionID in
  if bool_decide (Status session ≠ "upcoming") then
    let streams := getSessionStreams (Slug session) in
    let node := SetSelectable true (NewTreeNode (session_Name session)) in
    let node :=
      if bool_decide (Status session = "live")
      then SetColor ColorRed (SetText (session_Name session +:+ " - LIVE") node)
      else node in
    let node := SetExpanded false (SetReference (RefStreams streams) node) in
    match Objects streams with
    | [] => Panic IndexRange
    | object0 :: _ =>
        channels ←! getPerspectiveNodes (ChannelUrls object0);
        Ret (Some (foldl (λ n stream, AddChild (Some stream) n) node channels))
    end
  else Ret None.

(** returns node for every session (FP1, FP2, etc.); the goroutines write
    disjoint slots and all are waited for. *)
Definition getSessionNodes `{SliceSorter} `{Remote} (event : eventStruct)
  : go (list (option TreeNode)) :=
  go_mapM sessionNode (SessionoccurrenceUrls event).

(** The goroutine of [getEventNodes] for one event: its slot stays nil for an
    event without saved sessions. *)
Definition eventNode `{Remote} (eventID : string) : option TreeNode :=
  let event := getEvent eventID in
  if bool_decide (0 < length (SessionoccurrenceUrls event)) then
    Some (SetReference (RefEvent event) (SetSelectable true (NewTreeNode (OfficialName event))))
  else None.

(** returns node for every event (Australian GP, Bahrain GP, etc.) *)
Definition getEventNodes `{Remote} (season : seasonStruct) : list (option TreeNode) :=
  eventNode <$> EventoccurrenceUrls season.

Definition seasonNode (s : seasonStruct) : TreeNode :=
  SetReference (RefSeason s) (NewTreeNode (season_Name s)).

(** ** One node expansion: the loading goroutine and the blinking goroutine

    The selection handler starts two goroutines on the selected node.  The
    loader fetches the children, waits for all the fetches, attaches the
    children one by one and sets [done].  The other goroutine runs
    [blinkNode], which redraws the tree until it reads [done], and then what
    follows [blinkNode] in that goroutine.  Both work on the same node; they
    interleave statement by statement. *)

(** The memory the two goroutines share, and what [app.Draw()] has shown of
    the node, one snapshot per call. *)
Record expanding : Type := {
  node : TreeNode;
  done : bool;
  hasSessions : bool;
  drawn : list TreeNode
}.

Definition with_node (f : TreeNode → TreeNode) (e : expanding) : expanding :=
  {| node := f (node e); done := done e; hasSessions := hasSessions e; drawn := drawn e |}.

Definition set_done (e : expanding) : expanding :=
  {| node := node e; done := true; hasSessions := hasSessions e; drawn := drawn e |}.

Definition set_hasSessions (e : expanding) : expanding :=
  {| node := node e; done := done e; hasSessions := true; drawn := drawn e |}.

(** [app.Draw()] *)
Definition Draw (e : expanding) : expanding :=
  {| node := node e; done := done e; hasSessions := hasSessions e;
     drawn := drawn e ++ [node e] |}.

(** A statement of the loader that follows the wait-for-all join. *)
Definition action : Type := expanding → go expanding.

Record expansion : Type := {
  (* the loader up to and including the join; its result is the statements
     that follow, the last of which sets [done] *)
  load : go (list action);
  (* the colour handed to blinkNode *)
  originalColor : color;
  (* what the blinking goroutine does when blinkNode has returned *)
  after_blink : expanding → expanding
}.

Inductive loader : Type :=
| Loading                       (* fetching, waiting for all *)
| Attaching (todo : list action).

Inductive blinker : Type :=
| BlinkStart                           (* originalText := node.GetText(); node.SetText("loading...") *)
| BlinkTest (originalText : string)    (* for !*done *)
| BlinkBlue (originalText : string)    (* node.SetColor(tcell.ColorBlue) *)
| BlinkDraw1 (originalText : string)   (* app.Draw(); time.Sleep *)
| BlinkColor (originalText : string)   (* node.SetColor(originalColor) *)
| BlinkDraw2 (originalText : string)   (* app.Draw(); time.Sleep *)
| BlinkRestore (originalText : string) (* node.SetText(originalText) *)
| BlinkDraw3                           (* app.Draw() *)
| BlinkAfter                           (* the rest of the goroutine *)
| BlinkDone.

Record machine : Type := {
  shared : expanding;
  ld : loader;
  bl : blinker
}.

Inductive thread : Type := Loader | Blinker.

Definition loader_step (ex : expansion) (m : machine) : go machine :=
  match ld m with
  | Loading =>
      todo ←! load ex;
      Ret {| shared := shared m; ld := Attaching todo; bl := bl m |}
  | Attaching [] => Ret m
  | Attaching (a :: todo) =>
      e ←! a (shared m);
      Ret {| shared := e; ld := Attaching todo; bl := bl m |}
  end.

Definition blinker_step (ex : expansion) (m : machine) : machine :=
  let e := shared m in
  let next (e' : expanding) (b : blinker) := {| shared := e'; ld := ld m; bl := b |} in
  match bl m with
  | BlinkStart => next (with_node (SetText "loading...") e) (BlinkTest (text (node e)))
  | BlinkTest t => next e (if done e then BlinkRestore t else BlinkBlue t)
  | BlinkBlue t => next (with_node (SetColor ColorBlue) e) (BlinkDraw1 t)
  | BlinkDraw1 t => next (Draw e) (BlinkColor t)
  | BlinkColor t => next (with_node (SetColor (originalColor ex)) e) (BlinkDraw2 t)
  | BlinkDraw2 t => next (Draw e) (BlinkTest t)
  | BlinkRestore t => next (with_node (SetText t) e) BlinkDraw3
  | BlinkDraw3 => next (Draw e) BlinkAfter
  | BlinkAfter => next (after_blink ex e) BlinkDone
  | BlinkDone => m
  end.

Definition thread_step (ex : expansion) (m : machine) (t : thread) : go machine :=
  match t with
  | Loader => loader_step ex m
  | Blinker => Ret (blinker_step ex m)
  end.

Definition run (ex : expansion) (sched : list thread) (m : machine) : go machine :=
  go_foldl (thread_step ex) m sched.

(** The handler has just started the two goroutines on [n]. *)
Definition selected (n : TreeNode) : machine :=
  {| shared := {| node := n; done := false; hasSessions := false; drawn := [] |};
     ld := Loading; bl := BlinkStart |}.

Definition finished (m : machine) : Prop := ld m = Attaching [] ∧ bl m = BlinkDone.

(** *** The four expansions of the selection handler *)

(** An event (eg. Australian GP 2018) is selected. *)
Definition attachSession (session : option TreeNode) : action :=
  λ e,
    match session with
    | Some s =>
        if bool_decide (0 < length (children s))
        then Ret (with_node (AddChild session) (set_hasSessions e))
        else Ret e
    | None => Ret e
    end.

Definition flagNoContent (n : TreeNode) : TreeNode :=
  SetSelectable false (SetText (text n +:+ " - NO CONTENT AVAILABLE") (SetColor ColorRed n)).

Definition expandEvent `{SliceSorter} `{Remote} (event : eventStruct) : expansion :=
  {| load :=
       sessions ←! getSessionNodes event;
       Ret ((attachSession <$> sessions) ++ [λ e, Ret (set_done e)]);
     originalColor := ColorWhite;
     after_blink := λ e,
       Draw (if hasSessions e then e else with_node flagNoContent e) |}.

(** A full season is selected. *)
Definition expandSeason `{Remote} (season : seasonStruct) : expansion :=
  {| load :=
       Ret (((λ event e, Ret (with_node (AddChild event) e)) <$> getEventNodes season)
            ++ [λ e, Ret (set_done e)]);
     originalColor := ColorWheat;
     after_blink := λ e, e |}.

(** "Full Race Weekends" is selected: [addSeasons], then the reference. *)
Definition expandAllSeasons `{Remote} : expansion :=
  {| load :=
       let seasons := getSeasons in
       Ret (((λ s e, Ret (with_node (AddChild (Some (seasonNode s))) e)) <$> Seasons seasons)
            ++ [λ e, Ret (with_node (SetExpanded true) e);
                λ e, Ret (with_node (SetReference (RefAllSeasons seasons)) e);
                λ e, Ret (set_done e)]);
     originalColor := ColorYellow;
     after_blink := λ e, e |}.

(** A category is selected: [addEpisodes], whose own goroutine is the loader.
    The skipped episodes are the sorted episodes without a year bucket, in
    order; they are attached after the loop, then [doneLoading] is set and the
    tree redrawn. *)
Definition skipped_nodes (sorted : list episodeStruct) : list TreeNode :=
  omap (λ ep, match episode_year ep with
              | Ret None => Some (episodeNode ep)
              | _ => None
              end) sorted.

Definition attachDated (ep : episodeStruct) : action :=
  λ e,
    '(target, _) ←! attachEpisode (node e, []) ep;
    Ret (with_node (λ _, target) e).

Definition expandCategory `{SliceSorter} (episodes : list episodeStruct) : expansion :=
  {| load :=
       sorted ←! sort_Slice episode_less episodes;
       Ret ((attachDated <$> sorted)
            ++ ((λ ep e, Ret (with_node (AddChild (Some ep)) e)) <$> skipped_nodes sorted)
            ++ [λ e, Ret (set_done e); λ e, Ret (Draw e)]);
     originalColor := ColorYellow;
     after_blink := λ e, e |}.

(** What can be expanded: the payload of the selected node and, for a
    category, the episodes in the order in which they were loaded. *)
Inductive expandable : Type :=
| Category (episodes : list episodeStruct)
| Event (event : eventStruct)
| Season (season : seasonStruct)
| AllSeasons.

Definition expansion_of `{SliceSorter} `{Remote} (x : expandable) : expansion :=
  match x with
  | Category episodes => expandCategory episodes
  | Event event => expandEvent event
  | Season season => expandSeason season
  | AllSeasons => expandAllSeasons
  end.


(** ** Invariants of an expansion *)

(** The loader alone, its statements run one after the other. *)
Definition loader_alone (todo : list action) (e : expanding) : go expanding :=
  go_foldl (λ e (a : action), a e) e todo.

(** Two memories agree on what the loader reads and writes: the children of
    the node and the two flags.  The blinking goroutine writes the text and
    the colour only. *)
Definition agree (e e' : expanding) : Prop :=
  children (node e) = children (node e') ∧
  hasSessions e = hasSessions e' ∧ done e = done e'.

Definition respects (a : action) : Prop :=
  ∀ e e', agree e e' →
    match a e, a e' with
    | Ret e1, Ret e1' => agree e1 e1'
    | Panic p, Panic p' => p = p'
    | _, _ => False
    end.




(** The loader has run a prefix of its statements [acts], and the memory
    agrees with what that prefix computes on its own from the start. *)
Definition loader_progress (acts : list action) (n : TreeNode) (m : machine) : Prop :=
  match ld m with
  | Loading => agree (shared m) (shared (selected n))
  | Attaching todo =>
      ∃ ran e1, acts = ran ++ todo ∧
        loader_alone ran (shared (selected n)) = Ret e1 ∧ agree (shared m) e1
  end.



(** A statement of the loader that attaches nothing and leaves
    [hasSessions] alone. *)
Definition attaches_nothing (a : action) : Prop :=
  ∀ e, ∃ e', a e = Ret e' ∧ node e' = node e ∧ hasSessions e' = hasSessions e ∧
             (done e = true → done e' = true).

(** What holds of every state reached by the expansion of an event without
    content from the node [n]: nothing is attached, and the text and the
    selectability of the node are where the blinking goroutine has them. *)
Record no_content_inv (n : TreeNode) (m : machine) : Prop := {
  nc_children : children (node (shared m)) = children n;
  nc_hasSessions : hasSessions (shared m) = false;
  nc_todo : ∀ todo, ld m = Attaching todo → Forall attaches_nothing todo;
  nc_blinker :
    match bl m with
    | BlinkStart | BlinkDraw3 | BlinkAfter =>
        text (node (shared m)) = text n ∧ selectable (node (shared m)) = selectable n
    | BlinkTest t | BlinkBlue t | BlinkDraw1 t | BlinkColor t | BlinkDraw2 t
    | BlinkRestore t =>
        t = text n ∧ selectable (node (shared m)) = selectable n
    | BlinkDone =>
        text (node (shared m)) = text n +:+ " - NO CONTENT AVAILABLE" ∧
        selectable (node (shared m)) = false ∧
        node_color (node (shared m)) = ColorRed
    end
}.

(** A session slot that the event branch attaches: not nil, with children. *)
Definition valid_session (session : option TreeNode) : bool :=
  match session with
  | Some s => bool_decide (0 < length (children s))
  | None => false
  end.

(** ** The organizer, as the specification describes its result *)

(** The year bucket of an episode, [None] for the residual list. *)
Definition year_of (ep : episodeStruct) : option string :=
  match episode_year ep with
  | Ret oyear => oyear
  | Panic _ => None
  end.

(** The (year, race) key the comparator sorts parseable identifiers by. *)
Definition sort_key (ep : episodeStruct) : string * string :=
  match getYearAndRace (DataSourceID ep) with
  | Ret key => key
  | Panic _ => ("", "")
  end.

Definition key_lt (k1 k2 : string * string) : bool :=
  string_lt k1.1 k2.1 || (bool_decide (k1.1 = k2.1) && string_lt k1.2 k2.2).

(** The year node of a bucket with its episodes attached. *)
Definition bucketNode (b : string * list episodeStruct) : option TreeNode :=
  Some (SetChildren ((λ ep, Some (episodeNode ep)) <$> b.2) (yearNode b.1)).

(** The index [find_father] returns on a list of keys: the last occurrence. *)
Fixpoint last_index_from (i : nat) (found : option nat) (year : string)
    (keys : list string) : option nat :=
  match keys with
  | [] => found
  | k :: keys' =>
      last_index_from (S i) (if bool_decide (k = year) then Some i else found) year keys'
  end.

(** The buckets after one more episode. *)
Definition group_step (bs : list (string * list episodeStruct)) (ep : episodeStruct)
  : list (string * list episodeStruct) :=
  match year_of ep with
  | Some year =>
      match last_index_from 0 None year bs.*1 with
      | Some i => alter (λ b, (b.1, b.2 ++ [ep])) i bs
      | None => bs ++ [(year, [ep])]
      end
  | None => bs
  end.

(** The buckets hold, each under its own year, the episodes of that year in
    the order of the list. *)
Record grouped (bs : list (string * list episodeStruct)) (eps : list episodeStruct)
  : Prop := {
  grouped_keys : NoDup bs.*1;
  grouped_bucket : ∀ year es, (year, es) ∈ bs →
    es = filter (λ ep, year_of ep = Some year) eps ∧ es ≠ [];
  grouped_all : ∀ ep year, ep ∈ eps → year_of ep = Some year → year ∈ bs.*1
}.

(** * Further parts of the program

    The progress and the outcome of an expansion, the tree that [main]
    builds and the selection handler with [addPlaybackNodes], and, from the
    later version of the file, [checkCommands], [sanitizeFileName],
    [withBlink] with its [blinkNode], and the Windows [handlePaste]. *)

(** ** Progress of an expansion *)

(** The steps the blinking goroutine has left once [done] is set. *)
Definition blink_left (b : blinker) : nat :=
  match b with
  | BlinkBlue _ => 8 | BlinkDraw1 _ => 7 | BlinkColor _ => 6 | BlinkDraw2 _ => 5
  | BlinkStart => 5 | BlinkTest _ => 4
  | BlinkRestore _ => 3 | BlinkDraw3 => 2 | BlinkAfter => 1 | BlinkDone => 0
  end.

(** The steps the loader has left, [acts] being the statements that follow
    its join. *)
Definition loader_left (acts : list action) (l : loader) : nat :=
  match l with
  | Loading => S (length acts)
  | Attaching todo => length todo
  end.

(** The loader to its end, then the blinking goroutine to its end. *)
Definition completion (acts : list action) : list thread :=
  replicate (S (length acts)) Loader ++ replicate 8 Blinker.

(** ** What [blinkNode] leaves behind *)

(** A statement of the loader that leaves the text, the colour and the
    selectability of the node alone and does not reset [done]. *)
Definition keeps_label (a : action) : Prop :=
  ∀ e e', a e = Ret e' →
    text (node e') = text (node e) ∧
    node_color (node e') = node_color (node e) ∧
    selectable (node e') = selectable (node e) ∧
    (done e = true → done e' = true).

(** A statement that leaves [done] alone: those before [done = true]. *)
Definition keeps_done (a : action) : Prop :=
  ∀ e e', a e = Ret e' → done e' = done e.

(** A statement that leaves [hasSessions] alone: those after [done = true]. *)
Definition keeps_hasSessions (a : action) : Prop :=
  ∀ e e', a e = Ret e' → hasSessions e' = hasSessions e.

(** The statements of a loader: some that leave [done] alone, then
    [done = true], then some that leave [hasSessions] alone. *)
Definition sets_done_once (todo : list action) : Prop :=
  ∃ pre post, todo = pre ++ (λ e, Ret (set_done e)) :: post ∧
    Forall keeps_done pre ∧ Forall keeps_hasSessions post.

(** The label of the node [n] when [blinkNode] has returned: the text and
    the selectability of [n], and the colour of [n] or, when the loop has
    run, the colour handed to [blinkNode]. *)
Definition unflagged (ex : expansion) (n : TreeNode) (e : expanding) : Prop :=
  text (node e) = text n ∧
  (node_color (node e) = node_color n ∨ node_color (node e) = originalColor ex) ∧
  selectable (node e) = selectable n.

(** The label of an event without content. *)
Definition flagged (n : TreeNode) (e : expanding) : Prop :=
  text (node e) = text n +:+ " - NO CONTENT AVAILABLE" ∧
  node_color (node e) = ColorRed ∧
  selectable (node e) = false.

(** The label at the end of the blinking goroutine. *)
Definition final_label `{SliceSorter} `{Remote} (x : expandable) (n : TreeNode)
    (e : expanding) : Prop :=
  match x with
  | Event _ =>
      if hasSessions e then unflagged (expansion_of x) n e else flagged n e
  | _ => unflagged (expansion_of x) n e
  end.

Record label_inv `{SliceSorter} `{Remote} (x : expandable) (n : TreeNode) (m : machine)
  : Prop := {
  label_todo : ∀ todo, ld m = Attaching todo → Forall keeps_label todo;
  label_loading : ld m = Loading → done (shared m) = false;
  label_done : ∀ todo, ld m = Attaching todo →
    if done (shared m) then Forall keeps_hasSessions todo else sets_done_once todo;
  label_blinker :
    match bl m with
    | BlinkStart =>
        text (node (shared m)) = text n ∧
        node_color (node (shared m)) = node_color n ∧
        selectable (node (shared m)) = selectable n
    | BlinkTest t =>
        t = text n ∧
        (node_color (node (shared m)) = node_color n ∨
         node_color (node (shared m)) = originalColor (expansion_of x)) ∧
        selectable (node (shared m)) = selectable n
    | BlinkBlue t | BlinkDraw1 t | BlinkColor t =>
        t = text n ∧ selectable (node (shared m)) = selectable n
    | BlinkDraw2 t =>
        t = text n ∧
        node_color (node (shared m)) = originalColor (expansion_of x) ∧
        selectable (node (shared m)) = selectable n
    | BlinkRestore t =>
        t = text n ∧
        (node_color (node (shared m)) = node_color n ∨
         node_color (node (shared m)) = originalColor (expansion_of x)) ∧
        selectable (node (shared m)) = selectable n ∧
        done (shared m) = true
    | BlinkDraw3 | BlinkAfter =>
        unflagged (expansion_of x) n (shared m) ∧ done (shared m) = true
    | BlinkDone =>
        final_label x n (shared m) ∧ done (shared m) = true
    end
}.

(** ** The resolver of teams *)

(** The remote fetches of teams made from the world [w] to the later world
    [w']. *)
Definition team_fetches_since (w w' : world) : list string :=
  drop (length (team_fetches w)) (team_fetches w').

(** The name a team identifier is displayed under in a call that starts in
    the world [w]: from the cached record, or from the fetched one. *)
Definition team_display `{Remote} (w : world) (id : string) : string :=
  team_Name (resolved getTeam (teamMap w) id).

(** ** The command dispatcher: what is started and what is monitored *)

(** A token that mentions neither placeholder. *)
Definition plain_token (s : string) : Prop :=
  strings_Contains s "$file" = false ∧ strings_Contains s "$url" = false.

(** An argument vector made from a command of the template: as many tokens,
    the plain ones unchanged. *)
Definition instance_of (argv cmd : list string) : Prop :=
  length argv = length cmd ∧
  ∀ i s, cmd !! i = Some s → plain_token s → argv !! i = Some s.

(** [monitor] of the [nodeContext] branch. *)
Definition monitored (com : command) : bool :=
  bool_decide (Watchphrase com ≠ "") &&
  (0 <=? CommandToWatch com)%Z &&
  (CommandToWatch com <? Z.of_nat (length (Commands com)))%Z.

(** The commands whose output a dispatch hands to [monitorCommand], counted
    from [j0] in the list [cmds]: the command [CommandToWatch], if the
    template is monitored and that command is not empty. *)
Definition watched_from (monitor : bool) (com : command) (j0 : nat)
    (cmds : list (list string)) : list nat :=
  if monitor && (Z.of_nat j0 <=? CommandToWatch com)%Z then
    match cmds !! (Z.to_nat (CommandToWatch com) - j0) with
    | Some (_ :: _) => [Z.to_nat (CommandToWatch com)]
    | _ => []
    end
  else [].

(** ** The tree that [main] builds and the selection handler *)

(** Modelled from the spec: the element type of [vodTypesStruct.Objects],
    whose declaration is missing; a category has a name and the identifiers
    of its episodes. *)
Record vodType : Type := {
  vod_Name : string;
  ContentUrls : list string
}.

(** Modelled from the spec: [vodTypesStruct], whose declaration is missing;
    the list of categories. *)
Record vodTypesStruct : Type := { vod_Objects : list vodType }.

(** [config] is declared in main.go. *)
Record config : Type := {
  Lang : string;
  CustomPlaybackOptions : list command
}.

(** [checkArgs(searchArg)], [args] being [os.Args]. *)
Fixpoint checkArgs (args : list string) (searchArg : string) : bool :=
  match args with
  | [] => false
  | arg :: args' => if bool_decide (arg = searchArg) then true else checkArgs args' searchArg
  end.

(** The node of a custom playback option. *)
Definition customNode (title epID : string) (com : command) : TreeNode :=
  SetReference
    (RefContext {| EpID := epID; CustomOptions := com; context_Title := title |})
    (NewTreeNode (command_Title com)).

Definition addPlaybackNodes (con : config) (args : list string) (node : TreeNode)
    (title epID : string) : TreeNode :=
  (* add custom options *)
  let node :=
    foldl (λ node com,
             if bool_decide (0 < length (Commands com))
             then AddChild (Some (customNode title epID com)) node
             else node)
      node (CustomPlaybackOptions con) in
  let playNode := SetReference (RefString epID) (NewTreeNode "Play with MPV") in
  let node := AddChild (Some playNode) node in
  let downloadNode :=
    SetReference (RefStrings [epID; title]) (NewTreeNode "Download .m3u8") in
  let node := AddChild (Some downloadNode) node in
  if checkArgs args "-d" then
    AddChild (Some (SetReference (RefString epID) (NewTreeNode "GET URL"))) node
  else node.

(** The node of a category with content, as [main] builds it. *)
Definition categoryNode (i : nat) (vType : vodType) : TreeNode :=
  SetColor ColorYellow
    (SetReference (RefInt (Z.of_nat i)) (SetSelectable true (NewTreeNode (vod_Name vType)))).

Definition fullSessions : TreeNode :=
  SetColor ColorYellow
    (SetExpanded false
       (SetReference (RefAllSeasons {| Seasons := [] |})
          (SetSelectable true (NewTreeNode "Full Race Weekends")))).

(** The loop of [main] over [vodTypes.Objects], [i] being the index of the
    first element of [vTypes]. *)
Fixpoint addCategories (root : TreeNode) (i : nat) (vTypes : list vodType) : TreeNode :=
  match vTypes with
  | [] => root
  | vType :: vTypes' =>
      addCategories
        (if bool_decide (0 < length (ContentUrls vType))
         then AddChild (Some (categoryNode i vType)) root
         else root)
        (S i) vTypes'
  end.

(** build base tree *)
Definition buildTree (vodTypes : vodTypesStruct) : TreeNode :=
  let root := SetSelectable false (SetColor ColorBlue (NewTreeNode "VOD-Types")) in
  AddChild (Some fullSessions) (addCategories root 0 (vod_Objects vodTypes)).

(** What a call of the selection handler does. *)
Inductive selection : Type :=
| Ignored                                   (* the root node, a loading node, no branch *)
| Toggled (node : TreeNode)                 (* collapse if visible, expand if collapsed *)
| PlaybackAdded (node : TreeNode)           (* addPlaybackNodes *)
| EventStarted (event : eventStruct)        (* the two goroutines of the event branch *)
| SeasonStarted (season : seasonStruct)     (* the two goroutines of the season branch *)
| CommandsRun (d : dispatch) (node : TreeNode)
| PlayerStarted (argv : list string)        (* mpv, its output watched for "Video" *)
| AssetDownloaded (url title : string) (node : TreeNode)
| URLPrinted (url : string)
| EpisodesStarted (i : Z)                   (* go addEpisodes(node, i) *)
| AllSeasonsStarted                         (* the two goroutines of the last branch *)
| IndexPanic                                (* index out of range *)
| ConversionPanic.                          (* interface conversion *)

Definition is_nil (r : reference) : bool :=
  match r with RefNil => true | _ => false end.

(** what happens when a node is selected *)
Definition SelectedFunc `{Remote} (con : config) (args : list string)
    (vodTypes : vodTypesStruct) (node : TreeNode) : selection :=
  let reference := node_reference node in
  if is_nil reference || bool_decide (text node = "loading...") then
    (* Selecting the root node or a loading node does nothing *)
    Ignored
  else if bool_decide (0 < length (children node)) then
    Toggled (SetExpanded (negb (expanded node)) node)
  else
    match reference with
    | RefEpisode ep =>
        (* if regular episode is selected for the first time *)
        match Items ep with
        | item0 :: _ => PlaybackAdded (addPlaybackNodes con args node (Title ep) item0)
        | [] => IndexPanic
        end
    | RefChannel ep =>
        PlaybackAdded (addPlaybackNodes con args node (channel_Name ep) (Self ep))
    | RefEvent event => EventStarted event
    | RefSeason season => SeasonStarted season
    | RefContext context =>
        let '(d, node) := dispatchCommand node context in CommandsRun d node
    | _ =>
        if bool_decide (text node = "Play with MPV") then
          match reference with
          | RefString epID =>
              PlayerStarted ["mpv"; getPlayableURL epID; "--alang=" +:+ Lang con; "--start=0"]
          | _ => ConversionPanic
          end
        else if bool_decide (text node = "Download .m3u8") then
          match reference with
          | RefStrings urlAndTitle =>
              match urlAndTitle with
              | url :: title :: _ =>
                  AssetDownloaded (getPlayableURL url) title (SetColor ColorBlue node)
              | _ => IndexPanic
              end
          | _ => ConversionPanic
          end
        else if bool_decide (text node = "GET URL") then
          match reference with
          | RefString epID => URLPrinted (getPlayableURL epID)
          | _ => ConversionPanic
          end
        else
          match reference with
          | RefInt i =>
              (* if episodes for category are not loaded yet *)
              if (i <? Z.of_nat (length (vod_Objects vodTypes)))%Z
              then EpisodesStarted i else Ignored
          | RefAllSeasons _ => AllSeasonsStarted
          | _ => Ignored
          end
    end.

(** The texts that the selection handler tests before it looks for a
    category or the list of seasons. *)
Definition reserved_text (t : string) : Prop :=
  t = "loading..." ∨ t = "Play with MPV" ∨ t = "Download .m3u8" ∨ t = "GET URL".

(** ** Selecting a node that is being expanded *)

(** The states of [blinkNode] in which the node is labelled "loading...". *)
Definition blinking (b : blinker) : bool :=
  match b with
  | BlinkTest _ | BlinkBlue _ | BlinkDraw1 _ | BlinkColor _ | BlinkDraw2 _
  | BlinkRestore _ => true
  | _ => false
  end.

(** A statement of the loader that does not make the reference nil. *)
Definition keeps_reference (a : action) : Prop :=
  ∀ e e', a e = Ret e' →
    is_nil (node_reference (node e)) = false →
    is_nil (node_reference (node e')) = false.

Record loading_inv (m : machine) : Prop := {
  loading_text : blinking (bl m) = true → text (node (shared m)) = "loading...";
  loading_reference : is_nil (node_reference (node (shared m))) = false;
  loading_todo : ∀ todo, ld m = Attaching todo →
    Forall keeps_label todo ∧ Forall keeps_reference todo
}.

(** ** What an expansion leaves of the node, the label apart *)

(** Two memories agree on the tree: the children, the reference and the
    expansion flag of the node, and the two flags of the goroutines.  The
    blinking goroutine writes the text, the colour and the selectability
    only. *)
Definition same_tree (e e' : expanding) : Prop :=
  children (node e) = children (node e') ∧
  node_reference (node e) = node_reference (node e') ∧
  expanded (node e) = expanded (node e') ∧
  hasSessions e = hasSessions e' ∧ done e = done e'.

Definition respects_tree (a : action) : Prop :=
  ∀ e e', same_tree e e' →
    match a e, a e' with
    | Ret e1, Ret e1' => same_tree e1 e1'
    | Panic p, Panic p' => p = p'
    | _, _ => False
    end.

(** The loader has run a prefix of its statements [acts], and the memory
    agrees on the tree with what that prefix computes on its own. *)
Definition tree_progress (acts : list action) (n : TreeNode) (m : machine) : Prop :=
  match ld m with
  | Loading => same_tree (shared m) (shared (selected n))
  | Attaching todo =>
      ∃ ran e1, acts = ran ++ todo ∧
        loader_alone ran (shared (selected n)) = Ret e1 ∧ same_tree (shared m) e1
  end.

(** ** The external commands of a session (later version of the file) *)

Inductive log_entry : Type :=
| LogInfo (msg : string)     (* log.Println("[INFO]", msg) *)
| LogError (msg : string).   (* log.Println("[ERROR]", msg) *)

(** Modelled from the spec: [viewerSession], whose declaration is missing;
    of its fields, the map [commands] that [checkCommands] fills and
    [commandAvailable] reads, and the log that [logInfo] and [logError]
    write. *)
Record viewerSession : Type := {
  commands : gmap string bool;
  logged : list log_entry
}.

Definition logInfo (msg : string) (session : viewerSession) : viewerSession :=
  {| commands := commands session; logged := logged session ++ [LogInfo msg] |}.

Definition logError (msg : string) (session : viewerSession) : viewerSession :=
  {| commands := commands session; logged := logged session ++ [LogError msg] |}.

(** One iteration of the loop of [checkCommands]; [lookPath cmd] tells
    whether [exec.LookPath(cmd)] returns a nil error. *)
Definition checkCommand (lookPath : string → bool) (acc : viewerSession * nat)
    (cmd : string) : viewerSession * nat :=
  let '(session, found) := acc in
  let ok := lookPath cmd in
  let session :=
    {| commands := <[cmd := ok]> (commands session); logged := logged session |} in
  if ok then (session, S found)
  else (logInfo ("could not find " +:+ cmd) session, found).

Definition checkCommands (lookPath : string → bool) (cmds : list string)
    (session : viewerSession) : viewerSession :=
  let '(session, found) := foldl (checkCommand lookPath) (session, 0) cmds in
  if found =? 0 then logError "Both MPV and VLC are unavailable!" session else session.

Definition commandAvailable (command : string) (session : viewerSession) : bool :=
  match commands session !! command with
  | Some available => available
  | None => false
  end.

(** ** [sanitizeFileName] (later version of the file)

    The two regular expressions are classes of ASCII bytes, and no byte of a
    multi-byte UTF-8 sequence is an ASCII byte: the replacements are made
    byte by byte.  [strings.TrimSpace] removes the leading and the trailing
    runes for which [unicode.IsSpace] holds, which are recognised by their
    UTF-8 encodings. *)

Definition byte_in (codes : list N) (c : ascii) : bool :=
  existsb (N.eqb (N_of_ascii c)) codes.

(** The white-space class of Go's regexp: tab, line feed, form feed,
    carriage return, space. *)
Definition is_re_space (c : ascii) : bool := byte_in [9; 10; 12; 13; 32]%N c.

(** The class of [illegal]: on Windows the less-than and greater-than
    signs, the colon, the double quote, the slash, the backslash, the
    vertical bar, the question mark and the asterisk; the slash alone on any
    other system. *)
Definition is_illegal (windows : bool) (c : ascii) : bool :=
  if windows then byte_in [60; 62; 58; 34; 47; 92; 124; 63; 42]%N c
  else byte_in [47]%N c.

(** [illegal.ReplaceAllString(s, " ")] *)
Definition replace_illegal (windows : bool) (l : list ascii) : list ascii :=
  (λ c, if is_illegal windows c then " "%char else c) <$> l.

(** [whitespace.ReplaceAllString(s, " ")]: every maximal run of white space
    becomes one space.  [in_run] tells that the
    byte before belongs to the run. *)
Fixpoint collapse_spaces (in_run : bool) (l : list ascii) : list ascii :=
  match l with
  | [] => []
  | c :: l' =>
      if is_re_space c then
        if in_run then collapse_spaces true l' else " "%char :: collapse_spaces true l'
      else c :: collapse_spaces false l'
  end.

(** The UTF-8 encodings of the runes of [unicode.IsSpace]: U+0009 to U+000D,
    U+0020, U+0085, U+00A0, U+1680, U+2000 to U+200A, U+2028, U+2029, U+202F,
    U+205F, U+3000. *)
Definition space_runes : list (list ascii) :=
  (λ codes : list N, ascii_of_N <$> codes) <$>
    [[9]; [10]; [11]; [12]; [13]; [32]; [194; 133]; [194; 160]; [225; 154; 128];
     [226; 128; 128]; [226; 128; 129]; [226; 128; 130]; [226; 128; 131];
     [226; 128; 132]; [226; 128; 133]; [226; 128; 134]; [226; 128; 135];
     [226; 128; 136]; [226; 128; 137]; [226; 128; 138];
     [226; 128; 168]; [226; 128; 169]; [226; 128; 175]; [226; 129; 159];
     [227; 128; 128]]%N.

(** The first of [runes] that the bytes [l] start with. *)
Fixpoint leading_rune (runes : list (list ascii)) (l : list ascii) : option (list ascii) :=
  match runes with
  | [] => None
  | r :: runes' => if decide (r `prefix_of` l) then Some r else leading_rune runes' l
  end.

(** Removing the leading runes of [l] that are among [runes]; [skip] counts
    the bytes of a rune that are still to be dropped. *)
Fixpoint trim_runes (runes : list (list ascii)) (skip : nat) (l : list ascii)
  : list ascii :=
  match l with
  | [] => []
  | _ :: l' =>
      match skip with
      | S k => trim_runes runes k l'
      | O =>
          match leading_rune runes l with
          | Some r => trim_runes runes (length r - 1) l'
          | None => l
          end
      end
  end.

Definition trim_left (l : list ascii) : list ascii := trim_runes space_runes 0 l.

(** From the end: the encodings are read backwards. *)
Definition trim_right (l : list ascii) : list ascii :=
  reverse (trim_runes (reverse <$> space_runes) 0 (reverse l)).

(** [strings.TrimSpace] *)
Definition TrimSpace (l : list ascii) : list ascii := trim_right (trim_left l).

(** [windows] tells that [runtime.GOOS] is "windows". *)
Definition sanitizeFileName (windows : bool) (s : string) : string :=
  let l := String.list_ascii_of_string s in
  let l := replace_illegal windows l in
  let l := collapse_spaces false l in
  let l := TrimSpace l in
  String.string_of_list_ascii l.



(** ** [withBlink] and the later [blinkNode]

    [withBlink] starts two goroutines: one runs [fn] and then sends on the
    channel [done], the other runs [blinkNode] and then [after].  The channel
    has no buffer: the send and the receive of the [select] of [blinkNode]
    happen together.  [fn] is a list of statements on the node, [after] one
    statement, or none for nil. *)

Inductive worker : Type :=
| Working (todo : list (TreeNode → TreeNode))   (* fn() *)
| Sending                                       (* done <- struct{}{} *)
| Sent.

Inductive blinking2 : Type :=
| B2Start                                        (* originalText := node.GetText() *)
| B2Color (originalText : string)                (* originalColor := node.GetColor() *)
| B2Loading (originalText : string) (originalColor : color)
                                                 (* node.SetText("loading...") *)
| B2Select (originalText : string) (originalColor color1 color2 : color)
                                                 (* select *)
| B2Tick (originalText : string) (originalColor color1 color2 : color)
                                                 (* node.SetColor(color2) *)
| B2TickDraw (originalText : string) (originalColor color1 color2 : color)
                                                 (* Draw(); color1, color2 swapped *)
| B2RestoreText (originalText : string) (originalColor : color)
                                                 (* node.SetText(originalText) *)
| B2RestoreColor (originalColor : color)         (* node.SetColor(originalColor) *)
| B2Draw                                         (* session.app.Draw() *)
| B2After                                        (* after() *)
| B2Returned.

Record blink_state : Type := {
  blink_node : TreeNode;
  wk : worker;
  bk : blinking2;
  shown : list TreeNode    (* what Draw() has shown of the node *)
}.

(** What can happen next: a statement of [fn] or its send becoming ready, a
    statement of the blinking goroutine, a tick taken by the [select], the
    receive from [done] taken by the [select]. *)
Inductive blink_event : Type := Work | Blink | Tick | Receive.

Definition blink_step (loadingColor : color) (after : option (TreeNode → TreeNode))
    (st : blink_state) (ev : blink_event) : blink_state :=
  let n := blink_node st in
  let goto (n' : TreeNode) (b : blinking2) :=
    {| blink_node := n'; wk := wk st; bk := b; shown := shown st |} in
  match ev with
  | Work =>
      match wk st with
      | Working (f :: todo) =>
          {| blink_node := f n; wk := Working todo; bk := bk st; shown := shown st |}
      | Working [] =>
          {| blink_node := n; wk := Sending; bk := bk st; shown := shown st |}
      | _ => st
      end
  | Tick =>
      match bk st with
      | B2Select t oc c1 c2 => goto n (B2Tick t oc c1 c2)
      | _ => st
      end
  | Receive =>
      match bk st, wk st with
      | B2Select t oc _ _, Sending =>
          {| blink_node := n; wk := Sent; bk := B2RestoreText t oc; shown := shown st |}
      | _, _ => st
      end
  | Blink =>
      match bk st with
      | B2Start => goto n (B2Color (text n))
      | B2Color t => goto n (B2Loading t (node_color n))
      | B2Loading t oc => goto (SetText "loading..." n) (B2Select t oc oc loadingColor)
      | B2Select _ _ _ _ => st
      | B2Tick t oc c1 c2 => goto (SetColor c2 n) (B2TickDraw t oc c1 c2)
      | B2TickDraw t oc c1 c2 =>
          {| blink_node := n; wk := wk st; bk := B2Select t oc c2 c1;
             shown := shown st ++ [n] |}
      | B2RestoreText t oc => goto (SetText t n) (B2RestoreColor oc)
      | B2RestoreColor oc => goto (SetColor oc n) B2Draw
      | B2Draw =>
          {| blink_node := n; wk := wk st; bk := B2After; shown := shown st ++ [n] |}
      | B2After => goto (if after is Some f then f n else n) B2Returned
      | B2Returned => st
      end
  end.

Definition withBlink (loadingColor : color) (node : TreeNode)
    (fn : list (TreeNode → TreeNode)) (after : option (TreeNode → TreeNode))
    (sched : list blink_event) : blink_state :=
  foldl (blink_step loadingColor after)
    {| blink_node := node; wk := Working fn; bk := B2Start; shown := [] |} sched.

(** A statement that leaves the text and the colour of the node alone. *)
Definition keeps_text_and_color (f : TreeNode → TreeNode) : Prop :=
  ∀ n, text (f n) = text n ∧ node_color (f n) = node_color n.

(** What holds of every state of [withBlink] on the node [n], for an [fn]
    that leaves the text and the colour alone. *)
Record blink_inv (after : option (TreeNode → TreeNode)) (n : TreeNode)
    (st : blink_state) : Prop := {
  blink_todo : ∀ todo, wk st = Working todo → Forall keeps_text_and_color todo;
  blink_pc :
    match bk st with
    | B2Start =>
        text (blink_node st) = text n ∧ node_color (blink_node st) = node_color n
    | B2Color t =>
        t = text n ∧ text (blink_node st) = text n ∧
        node_color (blink_node st) = node_color n
    | B2Loading t oc => t = text n ∧ oc = node_color n
    | B2Select t oc _ _ | B2Tick t oc _ _ | B2TickDraw t oc _ _ =>
        t = text n ∧ oc = node_color n ∧
        text (blink_node st) = "loading..."
    | B2RestoreText t oc => t = text n ∧ oc = node_color n ∧ wk st = Sent
    | B2RestoreColor oc =>
        text (blink_node st) = text n ∧ oc = node_color n ∧ wk st = Sent
    | B2Draw | B2After =>
        text (blink_node st) = text n ∧ node_color (blink_node st) = node_color n ∧
        wk st = Sent
    | B2Returned =>
        wk st = Sent ∧
        (after = None →
         text (blink_node st) = text n ∧ node_color (blink_node st) = node_color n)
    end
}.

(** ** [handlePaste] (Windows) *)

(** [clip] is what [clipboard.ReadAll()] returns: the content and, for an
    error, its message.  The result is the log and the new text of the
    field. *)
Definition handlePaste (session : viewerSession) (clip : string * option string)
    (cursorPos : Z) (text : string) : viewerSession * go string :=
  let '(clipContent, err) := clip in
  let session :=
    if err is Some msg then logError ("could not paste: " +:+ msg) session else session in
  (session,
   if decide (0 ≤ cursorPos)%Z then
     before ←! go_slice text 0 (Z.to_nat cursorPos);
     behind ←! go_slice text (Z.to_nat cursorPos) (String.length text);
     Ret (before +:+ clipContent +:+ behind)
   else Panic SliceBounds).

(** ** The fetch goroutines of an expansion and their wait-for-all join

    [getSessionNodes], [getEventNodes] and [addEpisodes] start one goroutine
    for every child to fetch, and the loader waits for all of them on a
    [sync.WaitGroup] before it attaches anything.  Here the loader of the
    expansion machine is taken apart up to its join: the counter of the
    WaitGroup, the goroutines that fetch, the goroutine of [addEpisodes] that
    starts them under the channel [guard], and the memory they share are
    explicit, and every goroutine takes its steps when the schedule names
    it.  A goroutine that is blocked (on [wg.Wait()], on the full or the
    empty channel) or that has returned stays where it is. *)

(** [getEpisode] is an HTTP call defined outside main.go, like the calls of
    the remote catalog. *)
Class EpisodeRemote : Type := { getEpisode : string → episodeStruct }.

(** What the selected node makes the loader fetch. *)
Inductive fetch : Type :=
| FetchEpisodes (contentUrls : list string)  (* addEpisodes(node, i): vodTypes.Objects[i].ContentUrls *)
| FetchSessions (event : eventStruct)        (* getSessionNodes(event) *)
| FetchEvents (season : seasonStruct)        (* getEventNodes(season) *)
| FetchSeasons.                              (* addSeasons(node): one call, no goroutine *)

(** The identifiers that get a goroutine each. *)
Definition fetch_urls (x : fetch) : list string :=
  match x with
  | FetchEpisodes contentUrls => contentUrls
  | FetchSessions event => SessionoccurrenceUrls event
  | FetchEvents season => EventoccurrenceUrls season
  | FetchSeasons => []
  end.

(** A goroutine that fetches one child: where it stands. *)
Inductive fetcher : Type :=
(* getSessionNodes, the goroutine for index n *)
| SessionFetch (n : nat) (sessionID : string)
    (* session := getSession(sessionID) ... sessions[n] = sessionNode *)
| SessionChannels (n : nat) (streams : sessionStreamsStruct)
    (* channels := getPerspectiveNodes(streams.Objects[0].ChannelUrls); sessionNode.AddChild *)
(* getEventNodes, the goroutine for index m *)
| EventFetch (m : nat) (eventID : string)
    (* event := getEvent(eventID) ... events[m] = eventNode *)
(* addEpisodes, the goroutine for index i *)
| EpisodeLookup (i : nat)
    (* epID := ...ContentUrls[i]; RLock; ep, ok := episodeMap[epID]; RUnlock *)
| EpisodeFetch (epID : string)
    (* ep = getEpisode(epID) *)
| EpisodeStore (epID : string) (ep : episodeStruct)
    (* Lock; episodeMap[epID] = ep; Unlock *)
| EpisodeRead (ep : episodeStruct)
    (* episodes = append(episodes, ep): the slice is read *)
| EpisodeAppend (ep : episodeStruct) (old : list episodeStruct)
    (* episodes = append(episodes, ep): the slice read, with ep behind it, is written *)
| GuardReceive
    (* <-guard *)
(* all three *)
| WgDone
    (* wg.Done() *)
| Returned.

(** The loader before its join. *)
Inductive joining : Type :=
| WgAdd               (* wg.Add(len(...)); the slice of the slots is made *)
| GoBlinkNode         (* addEpisodes: doneLoading := false; go blinkNode(target, &doneLoading, ...) *)
| GoSpawner           (* addEpisodes: guard := make(chan struct{}, 100); go func() {...}() *)
| GoFetcher (i : nat) (* getSessionNodes, getEventNodes: the loop at index i, go func(...) {...}(...) *)
| WgWait              (* wg.Wait() *)
| Sequential.         (* addSeasons: seasons := getSeasons(), nothing to wait for *)

(** The goroutine of [addEpisodes] that starts the fetch goroutines. *)
Inductive spawner : Type :=
| NotStarted
| GuardSend (i : nat)   (* for i := range ...: guard <- struct{}{} *)
| GoEpisode (i : nat)   (* go func(i int) {...}(i) *)
| SpawnerReturned.

Record fetching : Type := {
  mains : machine;                        (* the node, [done], the redraws; the loader from its
                                             join on; the blinking goroutine *)
  joining_at : joining;
  blink_started : bool;                   (* the blinking goroutine has been started *)
  spawner_at : spawner;
  wg : nat;                               (* the counter of the WaitGroup *)
  guard : nat;                            (* the elements in the channel guard *)
  slots : list (option TreeNode);         (* sessions, events *)
  episodeMap : gmap string episodeStruct; (* the cache of the episodes *)
  episodes : list episodeStruct;          (* the slice of the loaded episodes *)
  fetchers : list fetcher                 (* the fetch goroutines, in the order of their start *)
}.

Definition set_mains (m : machine) (st : fetching) : fetching :=
  {| mains := m; joining_at := joining_at st; blink_started := blink_started st;
     spawner_at := spawner_at st; wg := wg st; guard := guard st; slots := slots st;
     episodeMap := episodeMap st; episodes := episodes st; fetchers := fetchers st |}.

Definition set_joining (j : joining) (st : fetching) : fetching :=
  {| mains := mains st; joining_at := j; blink_started := blink_started st;
     spawner_at := spawner_at st; wg := wg st; guard := guard st; slots := slots st;
     episodeMap := episodeMap st; episodes := episodes st; fetchers := fetchers st |}.

Definition set_blink_started (st : fetching) : fetching :=
  {| mains := mains st; joining_at := joining_at st; blink_started := true;
     spawner_at := spawner_at st; wg := wg st; guard := guard st; slots := slots st;
     episodeMap := episodeMap st; episodes := episodes st; fetchers := fetchers st |}.

Definition set_spawner (s : spawner) (st : fetching) : fetching :=
  {| mains := mains st; joining_at := joining_at st; blink_started := blink_started st;
     spawner_at := s; wg := wg st; guard := guard st; slots := slots st;
     episodeMap := episodeMap st; episodes := episodes st; fetchers := fetchers st |}.

Definition set_wg (c : nat) (st : fetching) : fetching :=
  {| mains := mains st; joining_at := joining_at st; blink_started := blink_started st;
     spawner_at := spawner_at st; wg := c; guard := guard st; slots := slots st;
     episodeMap := episodeMap st; episodes := episodes st; fetchers := fetchers st |}.

Definition set_guard (g : nat) (st : fetching) : fetching :=
  {| mains := mains st; joining_at := joining_at st; blink_started := blink_started st;
     spawner_at := spawner_at st; wg := wg st; guard := g; slots := slots st;
     episodeMap := episodeMap st; episodes := episodes st; fetchers := fetchers st |}.

Definition set_slots (s : list (option TreeNode)) (st : fetching) : fetching :=
  {| mains := mains st; joining_at := joining_at st; blink_started := blink_started st;
     spawner_at := spawner_at st; wg := wg st; guard := guard st; slots := s;
     episodeMap := episodeMap st; episodes := episodes st; fetchers := fetchers st |}.

Definition set_episodeMap (m : gmap string episodeStruct) (st : fetching) : fetching :=
  {| mains := mains st; joining_at := joining_at st; blink_started := blink_started st;
     spawner_at := spawner_at st; wg := wg st; guard := guard st; slots := slots st;
     episodeMap := m; episodes := episodes st; fetchers := fetchers st |}.

Definition set_episodes (eps : list episodeStruct) (st : fetching) : fetching :=
  {| mains := mains st; joining_at := joining_at st; blink_started := blink_started st;
     spawner_at := spawner_at st; wg := wg st; guard := guard st; slots := slots st;
     episodeMap := episodeMap st; episodes := eps; fetchers := fetchers st |}.

Definition set_fetchers (fs : list fetcher) (st : fetching) : fetching :=
  {| mains := mains st; joining_at := joining_at st; blink_started := blink_started st;
     spawner_at := spawner_at st; wg := wg st; guard := guard st; slots := slots st;
     episodeMap := episodeMap st; episodes := episodes st; fetchers := fs |}.

(** An expansion ends with a panic of one of its goroutines, or with the
    panic of [wg.Done()] on a counter that is zero. *)
Inductive fault : Type :=
| Panicked (p : panic)
| NegativeCounter.      (* sync: negative WaitGroup counter *)

Inductive outcome : Type :=
| Running (st : fetching)
| Crashed (f : fault).

(** The node that the goroutine of [getSessionNodes] stores in its slot,
    before the perspectives are attached to it. *)
Definition sessionSlot (session : sessionStruct) (streams : sessionStreamsStruct) : TreeNode :=
  let node := SetSelectable true (NewTreeNode (session_Name session)) in
  let node :=
    if bool_decide (Status session = "live")
    then SetColor ColorRed (SetText (session_Name session +:+ " - LIVE") node)
    else node in
  SetExpanded false (SetReference (RefStreams streams) node).

(** One step of the fetch goroutine [j]. *)
Definition fetcher_step `{SliceSorter} `{Remote} `{EpisodeRemote} (x : fetch)
    (st : fetching) (j : nat) : outcome :=
  match fetchers st !! j with
  | None => Running st
  | Some at_ =>
      let goes (next : fetcher) (st' : fetching) :=
        Running (set_fetchers (<[j := next]> (fetchers st)) st') in
      match at_ with
      | SessionFetch n sessionID =>
          let session := getSession sessionID in
          if bool_decide (Status session ≠ "upcoming") then
            let streams := getSessionStreams (Slug session) in
            goes (SessionChannels n streams)
              (set_slots (<[n := Some (sessionSlot session streams)]> (slots st)) st)
          else goes WgDone st
      | SessionChannels n streams =>
          match Objects streams with
          | [] => Crashed (Panicked IndexRange)
          | object0 :: _ =>
              match getPerspectiveNodes (ChannelUrls object0) with
              | Ret channels =>
                  goes WgDone
                    (set_slots
                       (alter (fmap (λ sessionNode,
                                       foldl (λ n stream, AddChild (Some stream) n)
                                         sessionNode channels))
                          n (slots st)) st)
              | Panic p => Crashed (Panicked p)
              end
          end
      | EventFetch m eventID =>
          goes WgDone
            (match eventNode eventID with
             | Some node => set_slots (<[m := Some node]> (slots st)) st
             | None => st
             end)
      | EpisodeLookup i =>
          match fetch_urls x !! i with
          | None => Crashed (Panicked IndexRange)
          | Some epID =>
              match episodeMap st !! epID with
              | Some ep => goes (EpisodeRead ep) st
              | None => goes (EpisodeFetch epID) st
              end
          end
      | EpisodeFetch epID => goes (EpisodeStore epID (getEpisode epID)) st
      | EpisodeStore epID ep =>
          goes (EpisodeRead ep) (set_episodeMap (<[epID := ep]> (episodeMap st)) st)
      | EpisodeRead ep => goes (EpisodeAppend ep (episodes st)) st
      | EpisodeAppend ep old => goes GuardReceive (set_episodes (old ++ [ep]) st)
      | GuardReceive =>
          match guard st with
          | 0 => Running st
          | S g => goes WgDone (set_guard g st)
          end
      | WgDone =>
          match wg st with
          | 0 => Crashed NegativeCounter
          | S c => goes Returned (set_wg c st)
          end
      | Returned => Running st
      end
  end.

(** One step of the goroutine of [addEpisodes] that starts the fetch
    goroutines: it sends to [guard], which holds at most 100 elements, and
    starts the goroutine for the index. *)
Definition spawner_step (x : fetch) (st : fetching) : fetching :=
  match spawner_at st with
  | GuardSend i =>
      if decide (i < length (fetch_urls x)) then
        if decide (guard st < 100)
        then set_spawner (GoEpisode i) (set_guard (S (guard st)) st)
        else st
      else set_spawner SpawnerReturned st
  | GoEpisode i =>
      set_spawner (GuardSend (S i)) (set_fetchers (fetchers st ++ [EpisodeLookup i]) st)
  | NotStarted | SpawnerReturned => st
  end.

(** What the loader has to expand, given the slice of the loaded episodes. *)
Definition expandable_of (x : fetch) (eps : list episodeStruct) : expandable :=
  match x with
  | FetchEpisodes _ => Category eps
  | FetchSessions event => Event event
  | FetchEvents season => Season season
  | FetchSeasons => AllSeasons
  end.

(** The statements of the loader that follow its join: they work on the
    slots, or on the slice of the episodes, as the goroutines have left
    them. *)
Definition after_join `{SliceSorter} `{Remote} (x : fetch) (st : fetching)
  : go (list action) :=
  match x with
  | FetchEpisodes _ => load (expandCategory (episodes st))
  | FetchSessions _ =>
      Ret ((attachSession <$> slots st) ++ [λ e, Ret (set_done e)])
  | FetchEvents _ =>
      Ret (((λ event e, Ret (with_node (AddChild event) e)) <$> slots st)
           ++ [λ e, Ret (set_done e)])
  | FetchSeasons => load expandAllSeasons
  end.

Definition lift_main (st : fetching) (r : go machine) : outcome :=
  match r with
  | Ret m => Running (set_mains m st)
  | Panic p => Crashed (Panicked p)
  end.

(** The loader is through its join and goes on with the statements [todo]. *)
Definition pass_join `{SliceSorter} `{Remote} (x : fetch) (st : fetching) : outcome :=
  lift_main st
    (todo ←! after_join x st;
     Ret {| shared := shared (mains st); ld := Attaching todo; bl := bl (mains st) |}).

(** The goroutine that a loop of [getSessionNodes] or [getEventNodes] starts
    for the index [i]. *)
Definition start_fetcher (x : fetch) (i : nat) (id : string) : fetcher :=
  match x with
  | FetchSessions _ => SessionFetch i id
  | FetchEvents _ => EventFetch i id
  | FetchEpisodes _ | FetchSeasons => EpisodeLookup i
  end.

(** One step of the loader. *)
Definition loader_fetch_step `{SliceSorter} `{Remote} (x : fetch) (st : fetching) : outcome :=
  match ld (mains st) with
  | Attaching _ =>
      lift_main st (loader_step (expansion_of (expandable_of x (episodes st))) (mains st))
  | Loading =>
      match joining_at st with
      | WgAdd =>
          match x with
          | FetchEpisodes contentUrls =>
              Running (set_joining GoBlinkNode (set_wg (length contentUrls) st))
          | _ =>
              Running (set_joining (GoFetcher 0)
                         (set_wg (length (fetch_urls x))
                            (set_slots (replicate (length (fetch_urls x)) None) st)))
          end
      | GoBlinkNode => Running (set_joining GoSpawner (set_blink_started st))
      | GoSpawner =>
          Running (set_joining WgWait (set_spawner (GuardSend 0) (set_guard 0 st)))
      | GoFetcher i =>
          match fetch_urls x !! i with
          | Some id =>
              Running (set_joining (GoFetcher (S i))
                         (set_fetchers (fetchers st ++ [start_fetcher x i id]) st))
          | None => Running (set_joining WgWait st)
          end
      | WgWait =>
          match wg st with
          | 0 => pass_join x st
          | S _ => Running st
          end
      | Sequential => pass_join x st
      end
  end.

(** The goroutines of an expansion. *)
Inductive goroutine : Type :=
| Main (t : thread)     (* the loader, the blinking goroutine *)
| Spawner               (* the goroutine of addEpisodes that starts the fetch goroutines *)
| Fetcher (j : nat).    (* the fetch goroutine started as the j-th, from 0 *)

Definition fetch_step `{SliceSorter} `{Remote} `{EpisodeRemote} (x : fetch)
    (st : fetching) (g : goroutine) : outcome :=
  match g with
  | Main Loader => loader_fetch_step x st
  | Main Blinker =>
      if blink_started st
      then Running (set_mains
                      (blinker_step (expansion_of (expandable_of x (episodes st))) (mains st))
                      st)
      else Running st
  | Spawner => Running (spawner_step x st)
  | Fetcher j => fetcher_step x st j
  end.

Fixpoint fetch_run `{SliceSorter} `{Remote} `{EpisodeRemote} (x : fetch)
    (sched : list goroutine) (st : fetching) : outcome :=
  match sched with
  | [] => Running st
  | g :: sched' =>
      match fetch_step x st g with
      | Running st' => fetch_run x sched' st'
      | Crashed f => Crashed f
      end
  end.

(** The handler has just started the loader on [n], and the blinking
    goroutine with it where it is the handler that starts it; [cache] is the
    cache of the episodes. *)
Definition fetch_selected (x : fetch) (cache : gmap string episodeStruct) (n : TreeNode)
  : fetching :=
  {| mains := selected n;
     joining_at := match x with FetchSeasons => Sequential | _ => WgAdd end;
     blink_started := match x with FetchEpisodes _ => false | _ => true end;
     spawner_at := NotStarted; wg := 0; guard := 0; slots := [];
     episodeMap := cache; episodes := []; fetchers := [] |}.

(** Every goroutine that was to be started has been started and has
    returned, and the counter of the WaitGroup is zero. *)
Definition joined (x : fetch) (st : fetching) : Prop :=
  length (fetchers st) = length (fetch_urls x) ∧
  Forall (λ at_, at_ = Returned) (fetchers st) ∧
  wg st = 0.

(** A catalog of episodes for the examples. *)
Definition sample_episodes : EpisodeRemote :=
  {| getEpisode := λ epID, episode (String.substring 13 8 epID) ("Episode " +:+ epID) |}.

(** *** Invariants of the join *)

(** The fetch goroutines that have returned. *)
Definition has_returned (at_ : fetcher) : bool :=
  match at_ with Returned => true | _ => false end.

Definition returned (fs : list fetcher) : nat :=
  length (filter (λ at_, has_returned at_ = true) fs).

(** The fetch goroutines started so far, as the loops stand. *)
Definition spawned (x : fetch) (st : fetching) : nat :=
  match x with
  | FetchEpisodes contentUrls =>
      match spawner_at st with
      | NotStarted => 0
      | GuardSend i | GoEpisode i => i
      | SpawnerReturned => length contentUrls
      end
  | _ =>
      match joining_at st with
      | GoFetcher i => i
      | WgWait => length (fetch_urls x)
      | _ => 0
      end
  end.

(** The record that an episode identifier resolves to: the cached one, or
    the one fetched. *)
Definition resolved_episode `{EpisodeRemote} (cache : gmap string episodeStruct)
    (epID : string) : episodeStruct :=
  default (getEpisode epID) (cache !! epID).

(** Where the fetch goroutine [j] stands, and what it has left in the shared
    memory so far. *)
Definition fetcher_ok `{SliceSorter} `{Remote} `{EpisodeRemote} (x : fetch)
    (cache : gmap string episodeStruct) (st : fetching) (j : nat) (at_ : fetcher) : Prop :=
  ∃ id, fetch_urls x !! j = Some id ∧
    match x with
    | FetchSessions _ =>
        match at_ with
        | SessionFetch n sessionID =>
            n = j ∧ sessionID = id ∧ slots st !! j = Some None
        | SessionChannels n streams =>
            n = j ∧ Status (getSession id) ≠ "upcoming" ∧
            streams = getSessionStreams (Slug (getSession id)) ∧
            slots st !! j = Some (Some (sessionSlot (getSession id) streams))
        | WgDone | Returned =>
            ∃ slot, sessionNode id = Ret slot ∧ slots st !! j = Some slot
        | _ => False
        end
    | FetchEvents _ =>
        match at_ with
        | EventFetch m eventID => m = j ∧ eventID = id ∧ slots st !! j = Some None
        | WgDone | Returned => slots st !! j = Some (eventNode id)
        | _ => False
        end
    | FetchEpisodes _ =>
        match at_ with
        | EpisodeLookup i => i = j
        | EpisodeFetch epID => epID = id
        | EpisodeStore epID ep => epID = id ∧ ep = resolved_episode cache id
        | EpisodeRead ep | EpisodeAppend ep _ =>
            ep = resolved_episode cache id ∧ episodeMap st !! id = Some ep
        | GuardReceive | WgDone | Returned =>
            episodeMap st !! id = Some (resolved_episode cache id)
        | _ => False
        end
    | FetchSeasons => False
    end.

(** What holds of every state of an expansion, the WaitGroup and the
    goroutines it counts: the goroutines started are those the loops have
    started, at most one for every identifier; once [wg.Add] is done the
    counter is the number of the goroutines that have not returned yet, those
    included that are still to be started; the loader is not through its join
    unless the counter is zero; the cache only grows, by the records of the
    catalog. *)
Record wait_inv `{SliceSorter} `{Remote} `{EpisodeRemote} (x : fetch)
    (cache : gmap string episodeStruct) (st : fetching) : Prop := {
  wait_started : length (fetchers st) = spawned x st;
  wait_bound : spawned x st ≤ length (fetch_urls x);
  wait_go : ∀ i, spawner_at st = GoEpisode i → i < length (fetch_urls x);
  wait_spawner :
    match x with
    | FetchEpisodes _ =>
        (joining_at st = WgAdd ∨ joining_at st = GoBlinkNode ∨ joining_at st = GoSpawner) ∧
        spawner_at st = NotStarted ∨
        joining_at st = WgWait ∧ spawner_at st ≠ NotStarted
    | FetchSeasons => joining_at st = Sequential ∧ spawner_at st = NotStarted
    | _ => joining_at st ≠ Sequential ∧ joining_at st ≠ GoBlinkNode ∧
           joining_at st ≠ GoSpawner ∧ spawner_at st = NotStarted
    end;
  wait_before : joining_at st = WgAdd → wg st = 0;
  wait_counter : joining_at st ≠ WgAdd →
    wg st + returned (fetchers st) = length (fetch_urls x);
  wait_passed : ld (mains st) ≠ Loading → wg st = 0 ∧ joining_at st ≠ WgAdd;
  wait_slots :
    match x with
    | FetchSessions _ | FetchEvents _ =>
        joining_at st ≠ WgAdd → length (slots st) = length (fetch_urls x)
    | _ => True
    end;
  wait_unstarted : ∀ j, length (fetchers st) ≤ j → j < length (slots st) →
    slots st !! j = Some None;
  wait_fetchers : ∀ j at_, fetchers st !! j = Some at_ → fetcher_ok x cache st j at_;
  wait_cache : ∀ epID ep, episodeMap st !! epID = Some ep → ep = resolved_episode cache epID
}.

(** What the goroutines have left for the loader when it is through its
    join: the slots are those of [getSessionNodes], of [getEventNodes]; every
    content URL of the category has its record in the cache. *)
Definition results_in `{SliceSorter} `{Remote} `{EpisodeRemote} (x : fetch)
    (cache : gmap string episodeStruct) (st : fetching) : Prop :=
  match x with
  | FetchSessions event => getSessionNodes event = Ret (slots st)
  | FetchEvents season => slots st = getEventNodes season
  | FetchEpisodes contentUrls =>
      ∀ epID, epID ∈ contentUrls →
        episodeMap st !! epID = Some (resolved_episode cache epID)
  | FetchSeasons => True
  end.

(** The expansion machine with its atomic load follows the goroutines: it
    reaches the state of the loader and of the blinking goroutine under a
    schedule of its own, in which the loader has not moved while the join is
    not passed. *)
Definition follows `{SliceSorter} `{Remote} (x : fetch) (n : TreeNode) (st : fetching)
  : Prop :=
  ∃ sched : list thread,
    run (expansion_of (expandable_of x (episodes st))) sched (selected n) = Ret (mains st) ∧
    (ld (mains st) = Loading → Forall (λ t, t = Blinker) sched).

(** * Properties *)

(** ** The [go] monad *)

Lemma go_bind_Ret {A B} (m : go A) (k : A → go B) (b : B) :
  go_bind m k = Ret b → ∃ a, m = Ret a ∧ k a = Ret b.
Proof. destruct m as [a|p]; simpl; [eauto | discriminate]. Qed.

Lemma go_bind_returns {A B} (m : go A) (k : A → go B) :
  returns (go_bind m k) → returns m.
Proof. intros [b [a [-> _]]%go_bind_Ret]. by exists a. Qed.


Lemma go_foldl_app {A S} (body : S → A → go S) (s : S) (l1 l2 : list A) :
  go_foldl body s (l1 ++ l2) = go_bind (go_foldl body s l1) (λ s', go_foldl body s' l2).
Proof.
  revert s. induction l1 as [|x l1 IH]; intros s; simpl; [done|].
  destruct (body s x) as [s'|p]; simpl; [apply IH | done].
Qed.

Lemma go_foldl_cons {A S} (body : S → A → go S) (s : S) (x : A) (l : list A) :
  go_foldl body s (x :: l) = go_bind (body s x) (λ s', go_foldl body s' l).
Proof. done. Qed.

Lemma go_foldl_singleton {A S} (body : S → A → go S) (s : S) (x : A) :
  go_foldl body s [x] = body s x.
Proof. simpl. by destruct (body s x). Qed.

(** ** Insertion sort meets the contract of [sort.Slice] *)

Section insertion_sort.
Context {A : Type} (less : A → A → go bool).

Lemma sink_perm x r r' : sink less x r = Ret r' → r' ≡ₚ x :: r.
Proof.
  revert r'. induction r as [|y r IH]; intros r' Hs; simpl in Hs.
  - by inversion Hs.
  - apply go_bind_Ret in Hs as ([] & _ & Hs).
    + apply go_bind_Ret in Hs as (r0 & Hr0 & Hs). inversion Hs; subst.
      rewrite (IH _ Hr0). apply Permutation_swap.
    + by inversion Hs.
Qed.

Lemma sink_returns x r :
  (∀ y, y ∈ r → returns (less x y)) → returns (sink less x r).
Proof.
  induction r as [|y r IH]; intros Hless; simpl.
  - by eexists.
  - destruct (Hless y) as [b ->]; [by left|]. simpl. destruct b.
    + destruct IH as [r' ->]; [intros; apply Hless; by right|]. by eexists.
    + by eexists.
Qed.

Lemma insertion_loop_perm l : ∀ r r',
  go_foldl (λ rprefix x, sink less x rprefix) r l = Ret r' → r' ≡ₚ l ++ r.
Proof.
  induction l as [|x l IH]; intros r r' Hrun; simpl in Hrun.
  - by inversion Hrun.
  - apply go_bind_Ret in Hrun as (r1 & Hx & Hrest).
    rewrite (IH _ _ Hrest), (sink_perm _ _ _ Hx). simpl.
    by rewrite Permutation_middle.
Qed.

Lemma insertionSort_perm l l' : insertionSort less l = Ret l' → l' ≡ₚ l.
Proof.
  unfold insertionSort. intros (r & Hr & Hret)%go_bind_Ret. inversion Hret; subst.
  rewrite reverse_Permutation, (insertion_loop_perm _ _ _ Hr). by rewrite app_nil_r.
Qed.

Lemma insertion_loop_returns l : ∀ r,
  (∀ a b, a ∈ l ++ r → b ∈ l ++ r → returns (less a b)) →
  returns (go_foldl (λ rprefix x, sink less x rprefix) r l).
Proof.
  induction l as [|x l IH]; intros r Hless; simpl.
  - by eexists.
  - destruct (sink_returns x r) as [r1 Hr1].
    { intros y Hy. apply Hless; simpl.
      - by left.
      - right. apply elem_of_app. by right. }
    rewrite Hr1. simpl. apply IH.
    pose proof (sink_perm _ _ _ Hr1) as Hp.
    assert (∀ a, a ∈ l ++ r1 → a ∈ (x :: l) ++ r) as Hin.
    { intros a. rewrite Hp. simpl.
      rewrite elem_of_app, !elem_of_cons, elem_of_app. tauto. }
    intros a b Ha Hb. apply Hless; by apply Hin.
Qed.

Lemma insertionSort_returns l :
  (∀ a b, a ∈ l → b ∈ l → returns (less a b)) → returns (insertionSort less l).
Proof.
  intros Hless. unfold insertionSort.
  destruct (insertion_loop_returns l []) as [r ->].
  { intros a b. rewrite app_nil_r. apply Hless. }
  by eexists.
Qed.

Context (f : A → A → bool).

(** The reversed prefix is sorted downwards: no element is before a later one. *)
Lemma sink_sorted (dom : list A) x r r' :
  strict_weak_on f dom → x ∈ dom → (∀ y, y ∈ r → y ∈ dom) →
  (∀ y, y ∈ r → less x y = Ret (f x y)) →
  StronglySorted (λ a b, f a b = false) r →
  sink less x r = Ret r' →
  StronglySorted (λ a b, f a b = false) r'.
Proof.
  intros [Hasym Hneg] Hx. revert r'.
  induction r as [|y r IH]; intros r' Hdom Hless Hsorted Hs; simpl in Hs.
  - inversion Hs. repeat constructor.
  - rewrite (Hless y) in Hs by (by left). simpl in Hs.
    apply StronglySorted_inv in Hsorted as [Hr Hy].
    destruct (f x y) eqn:Hxy.
    + apply go_bind_Ret in Hs as (r0 & Hr0 & Hs). inversion Hs; subst.
      constructor.
      * apply IH; auto; intros; [apply Hdom|apply Hless]; by right.
      * apply Forall_forall. intros z Hz.
        rewrite (sink_perm _ _ _ Hr0) in Hz.
        apply elem_of_cons in Hz as [->|Hz].
        -- apply Hasym; auto. apply Hdom. by left.
        -- rewrite Forall_forall in Hy. by apply Hy.
    + inversion Hs; subst. constructor; [by constructor|].
      constructor; [done|].
      apply Forall_forall. intros z Hz. rewrite Forall_forall in Hy.
      apply (Hneg x y z); auto; apply Hdom; [by left|by right].
Qed.

Lemma insertion_loop_sorted (dom : list A) l : ∀ r r',
  strict_weak_on f dom →
  (∀ a, a ∈ l ++ r → a ∈ dom) →
  (∀ a b, a ∈ dom → b ∈ dom → less a b = Ret (f a b)) →
  StronglySorted (λ a b, f a b = false) r →
  go_foldl (λ rprefix x, sink less x rprefix) r l = Ret r' →
  StronglySorted (λ a b, f a b = false) r'.
Proof.
  induction l as [|x l IH]; intros r r' Hsw Hdom Hless Hsorted Hrun; simpl in Hrun.
  - by inversion Hrun; subst.
  - apply go_bind_Ret in Hrun as (r1 & Hx & Hrest).
    apply (IH r1 r'); auto.
    + intros a Ha. apply Hdom. simpl.
      rewrite elem_of_app in Ha. rewrite (sink_perm _ _ _ Hx) in Ha.
      rewrite elem_of_cons, elem_of_app. rewrite elem_of_cons in Ha. tauto.
    + assert (x ∈ dom) as Hxd by (apply Hdom; by left).
      assert (∀ y, y ∈ r → y ∈ dom) as Hrd.
      { intros y Hy. apply Hdom. right. apply elem_of_app. by right. }
      eapply (sink_sorted dom x r); eauto.
Qed.

Lemma StronglySorted_reverse_flip (R : relation A) l :
  StronglySorted R l → StronglySorted (flip R) (reverse l).
Proof.
  induction 1 as [|x l Hl IH Hx]; [constructor|].
  rewrite reverse_cons. apply StronglySorted_app_2; [|done|repeat constructor].
  intros a b Ha Hb. apply list_elem_of_singleton in Hb as ->.
  rewrite elem_of_reverse in Ha. rewrite Forall_forall in Hx. by apply Hx.
Qed.

Lemma insertionSort_sorted l l' :
  (∀ a b, a ∈ l → b ∈ l → less a b = Ret (f a b)) →
  strict_weak_on f l →
  insertionSort less l = Ret l' → StronglySorted (not_after f) l'.
Proof.
  intros Hless Hsw. unfold insertionSort.
  intros (r & Hr & Hret)%go_bind_Ret. inversion Hret; subst.
  apply (StronglySorted_reverse_flip (λ a b, f a b = false)).
  eapply (insertion_loop_sorted l l []); eauto; [|constructor].
  intros a. by rewrite app_nil_r.
Qed.
End insertion_sort.

(** Go's sort on short slices is an instance of the contract. *)
Instance go_sort : SliceSorter := {|
  sort_Slice := @insertionSort;
  sort_Slice_perm := @insertionSort_perm;
  sort_Slice_returns := @insertionSort_returns;
  sort_Slice_sorted := @insertionSort_sorted
|}.

(** ** Slices and [strconv.Atoi] *)

Lemma go_slice_Ret (s : string) (lo hi : nat) :
  lo ≤ hi → hi ≤ String.length s →
  go_slice s lo hi = Ret (String.substring lo (hi - lo) s).
Proof. intros ??. unfold go_slice. by rewrite decide_True. Qed.

Lemma go_slice_Panic (s : string) (lo hi : nat) :
  String.length s < hi → go_slice s lo hi = Panic SliceBounds.
Proof. intros ?. unfold go_slice. rewrite decide_False; [done|lia]. Qed.

Lemma is_digit_val ch : is_digit ch = true → (0 ≤ digit_val ch ≤ 9)%Z.
Proof.
  unfold is_digit, digit_val. intros [H1 H2]%andb_true_iff.
  apply N.leb_le in H1, H2. lia.
Qed.

Lemma is_digit_not_sign ch :
  is_digit ch = true → ¬ (ch = "-"%char ∨ ch = "+"%char).
Proof. intros H [-> | ->]; vm_compute in H; discriminate. Qed.

Lemma int_range_small (v : Z) :
  (-10000 < v < 10000)%Z →
  (if (v <? minInt)%Z then (minInt, Some ErrRange)
   else if (maxInt <? v)%Z then (maxInt, Some ErrRange) else (v, None))
  = (v, None).
Proof.
  intros Hv. assert (minInt = -9223372036854775808)%Z as -> by reflexivity.
  assert (maxInt = 9223372036854775807)%Z as -> by reflexivity.
  destruct (Z.ltb_spec v (-9223372036854775808)); [lia|].
  destruct (Z.ltb_spec 9223372036854775807 v); [lia|done].
Qed.

(** A string of at most four decimal digits is accepted, with its value. *)
Lemma Atoi_digits2 a b :
  is_digit a = true → is_digit b = true →
  Atoi (String a (String b "")) = ((digit_val a * 10 + digit_val b)%Z, None).
Proof.
  intros Ha Hb. unfold Atoi.
  rewrite (bool_decide_eq_false_2 _ (is_digit_not_sign a Ha)).
  rewrite bool_decide_eq_false_2
    by (intros ->; exact (is_digit_not_sign _ Ha (or_introl eq_refl))).
  simpl. rewrite Ha, Hb.
  apply is_digit_val in Ha, Hb. apply int_range_small. lia.
Qed.

Lemma Atoi_digits4 a b c d :
  is_digit a = true → is_digit b = true → is_digit c = true → is_digit d = true →
  (Atoi (String a (String b (String c (String d ""))))).2 = None.
Proof.
  intros Ha Hb Hc Hd. unfold Atoi.
  rewrite (bool_decide_eq_false_2 _ (is_digit_not_sign a Ha)).
  rewrite bool_decide_eq_false_2
    by (intros ->; exact (is_digit_not_sign _ Ha (or_introl eq_refl))).
  simpl. rewrite Ha, Hb, Hc, Hd.
  apply is_digit_val in Ha, Hb, Hc, Hd. rewrite int_range_small; [done|lia].
Qed.

(** ** Year and race derivation *)

Arguments Atoi : simpl never.
Arguments go_slice : simpl never.

Lemma substring_0_0 s : String.substring 0 0 s = "".
Proof. by destruct s. Qed.

Lemma all_digits_inv a b c d :
  all_digits (String a (String b (String c (String d "")))) = true →
  is_digit a = true ∧ is_digit b = true ∧ is_digit c = true ∧ is_digit d = true.
Proof.
  unfold all_digits. simpl. rewrite !andb_true_iff. tauto.
Qed.

(** Four leading decimal digits parse. *)
Lemma all_digits_parses id :
  4 ≤ String.length id → all_digits (token4 id) = true → parses id.
Proof.
  intros Hlen Hdig. split; [done|].
  destruct id as [|a [|b [|c [|d rest]]]]; simpl in Hlen; try lia.
  unfold token4 in *. simpl in *. rewrite substring_0_0 in *.
  apply all_digits_inv in Hdig as (Ha & Hb & Hc & Hd). by apply Atoi_digits4.
Qed.

(** [strconv.Atoi] also accepts a sign followed by three digits: such an
    identifier parses, and its bucket carries the sign. *)
Example signed_identifier_parses :
  parses "+123_R01" ∧ episode_year (episode "+123_R01" "Race") = Ret (Some "20+1").
Proof. split; [split; [vm_compute; lia|reflexivity]|reflexivity]. Qed.

Example getYearAndRace_examples :
  Util.getYearAndRace "99010203" = Ret ("1999", "01", None) ∧
  Util.getYearAndRace "05010203" = Ret ("2005", "01", None) ∧
  Util.getYearAndRace "2018_R01" = Ret ("2018", "0", None) ∧
  Util.getYearAndRace "2019_R01" = Ret ("2019", "0", None) ∧
  getYearAndRace "2018_R01" = Ret ("2020", "18").
Proof. repeat split; reflexivity. Qed.

(** *** The two-digit year rule *)




(** C1 (the claim fails as stated). The unguarded [getYearAndRace] has no
    case for the tokens "2018" and "2019": from the identifier "2018_R01",
    four digits and more, it derives the year "2020" and the race number
    "18", not the token. *)
Lemma C1_unguarded_year_is_not_the_token :
  ¬ (∀ id : string,
       4 ≤ String.length id → all_digits (token4 id) = true →
       token4 id = "2018" ∨ token4 id = "2019" →
       ∃ race, getYearAndRace id = Ret (token4 id, race)).
Proof.
  intros Hclaim.
  destruct (Hclaim "2018_R01") as [race Hrace];
    [vm_compute; lia|reflexivity|by left|].
  vm_compute in Hrace. discriminate.
Qed.

(** The sort comparator of [addEpisodes] calls the unguarded version on every
    identifier that parses: it ranks an episode of the token "2018" under the
    year 2020, behind an episode of the season 2019, and the bucket "2019" is
    then attached before the bucket "2018". *)
Example comparator_ranks_2018_under_2020 :
  let ep18 := episode "2018_R01" "Australia" in
  let ep19 := episode "1921_R21" "Abu Dhabi" in
  episode_less ep19 ep18 = Ret true ∧ episode_less ep18 ep19 = Ret false ∧
  ∃ target, addEpisodes (NewTreeNode "Grand Prix") [ep18; ep19] = Ret target ∧
            buckets target = [("2019", [ep19]); ("2018", [ep18])].
Proof. repeat split; try reflexivity. eexists. split; reflexivity. Qed.



(** C10. On every input of at least four bytes whose first four bytes are
    decimal digits other than "2018" and "2019", the unguarded and the guarded
    [getYearAndRace] return the same year and race number, and the guarded
    one returns a nil error. *)
Theorem C10_getYearAndRace_versions_agree (input : string) :
  4 ≤ String.length input →
  all_digits (token4 input) = true →
  token4 input ≠ "2018" → token4 input ≠ "2019" →
  ∃ fullYear raceNumber,
    getYearAndRace input = Ret (fullYear, raceNumber) ∧
    Util.getYearAndRace input = Ret (fullYear, raceNumber, None).
Proof.
  intros Hlen Hdig H18 H19.
  destruct input as [|a [|b [|c [|d rest]]]]; simpl in Hlen; try lia.
  unfold token4 in *. simpl in Hdig, H18, H19. rewrite substring_0_0 in Hdig, H18, H19.
  apply all_digits_inv in Hdig as (Ha & Hb & Hc & Hd).
  pose proof (Atoi_digits4 a b c d Ha Hb Hc Hd) as H4.
  pose proof (Atoi_digits2 a b Ha Hb) as H2.
  destruct (Atoi (String a (String b (String c (String d ""))))) as [v err] eqn:Hv.
  simpl in H4. subst err.
  eexists _, _. split.
  - unfold getYearAndRace. rewrite !go_slice_Ret by (simpl; lia). simpl.
    rewrite H2, substring_0_0. reflexivity.
  - unfold Util.getYearAndRace. rewrite decide_False by (simpl; lia).
    rewrite !go_slice_Ret by (simpl; lia). simpl. rewrite substring_0_0, Hv, H2.
    by rewrite !bool_decide_eq_false_2 by done.
Qed.

Lemma C10_getYearAndRace_versions_agree_witness :
  4 ≤ String.length "05030001" ∧
  all_digits (token4 "05030001") = true ∧
  ∃ fullYear raceNumber,
    getYearAndRace "05030001" = Ret (fullYear, raceNumber) ∧
    Util.getYearAndRace "05030001" = Ret (fullYear, raceNumber, None).
Proof.
  split; [vm_compute; lia|]. split; [reflexivity|].
  apply (C10_getYearAndRace_versions_agree "05030001");
    [vm_compute; lia | reflexivity | discriminate | discriminate].
Defined.

(** ** Sorting strings *)

Lemma string_lt_le a b : string_lt a b = false ↔ String.le b a.
Proof.
  unfold string_lt, String.le, String.ltb, String.leb.
  rewrite (String.compare_antisym b a).
  destruct (String.compare a b); simpl; intuition (try done; try discriminate).
Qed.

Lemma string_lt_asym a b : string_lt a b = true → string_lt b a = false.
Proof.
  intros Hab. apply string_lt_le.
  unfold string_lt, String.le, String.ltb, String.leb in *.
  by destruct (String.compare a b).
Qed.

Lemma string_lt_irrefl a : string_lt a a = false.
Proof.
  destruct (string_lt a a) eqn:Ha; [|done]. by rewrite (string_lt_asym a a Ha) in Ha.
Qed.

Lemma string_lt_negtrans a b c :
  string_lt a b = false → string_lt b c = false → string_lt a c = false.
Proof.
  intros Hab%string_lt_le Hbc%string_lt_le. apply string_lt_le. by etrans.
Qed.

Lemma string_lt_total a b :
  string_lt a b = false → string_lt b a = false → a = b.
Proof.
  intros Hab%string_lt_le Hba%string_lt_le. by apply (anti_symm String.le).
Qed.

Lemma string_lt_strict_weak (l : list string) : strict_weak_on string_lt l.
Proof.
  split.
  - intros a b _ _. apply string_lt_asym.
  - intros a b c _ _ _. apply string_lt_negtrans.
Qed.

Lemma not_after_string_le l :
  StronglySorted (not_after string_lt) l ↔ StronglySorted String.le l.
Proof.
  split; induction 1 as [|x l Hl IH Hx]; constructor; auto;
    eapply Forall_impl; eauto; intros y; unfold not_after; apply string_lt_le.
Qed.

(** [sort.Strings] returns the one sorted arrangement of its argument. *)
Lemma sort_Strings_spec `{SliceSorter} (l : list string) :
  ∃ l', sort_Strings l = Ret l' ∧ l' ≡ₚ l ∧ StronglySorted String.le l'.
Proof.
  unfold sort_Strings.
  destruct (sort_Slice_returns string (λ a b, Ret (string_lt a b)) l) as [l' Hl'].
  { intros. by eexists. }
  exists l'. split; [done|]. split; [by eapply sort_Slice_perm|].
  apply not_after_string_le.
  eapply (sort_Slice_sorted string _ string_lt l l'); eauto.
  apply string_lt_strict_weak.
Qed.

Lemma sort_Strings_perm `{SliceSorter} (l1 l2 : list string) :
  l1 ≡ₚ l2 → sort_Strings l1 = sort_Strings l2.
Proof.
  intros Hp.
  destruct (sort_Strings_spec l1) as (s1 & -> & Hp1 & Hs1).
  destruct (sort_Strings_spec l2) as (s2 & -> & Hp2 & Hs2).
  f_equal. apply (StronglySorted_unique String.le); [done|done|].
  by rewrite Hp1, Hp2.
Qed.

(** ** The episode organizer *)

(** A loop that returns has returned from the body at every element. *)
Lemma go_foldl_returns_body {A S} (body : S → A → go S) (l : list A) :
  ∀ s x, x ∈ l → returns (go_foldl body s l) → ∃ s0, returns (body s0 x).
Proof.
  induction l as [|y l IH]; intros s x Hx Hret; [by apply elem_of_nil in Hx|].
  simpl in Hret. pose proof (go_bind_returns _ _ Hret) as [s1 Hs1].
  apply elem_of_cons in Hx as [->|Hx].
  - exists s. by exists s1.
  - rewrite Hs1 in Hret. simpl in Hret. by apply (IH s1).
Qed.

Lemma episode_year_short ep :
  String.length (DataSourceID ep) < 4 → episode_year ep = Panic SliceBounds.
Proof. intros Hlen. unfold episode_year. by rewrite go_slice_Panic. Qed.

(** Whatever sort is used and in whatever order the episodes arrived, one
    identifier of fewer than four bytes keeps [addEpisodes] from returning:
    either the comparator or the attach loop slices it out of range. *)
Lemma addEpisodes_short_id_panics `{SliceSorter} target episodes ep :
  ep ∈ episodes → String.length (DataSourceID ep) < 4 →
  ¬ returns (addEpisodes target episodes).
Proof.
  intros Hin Hlen Hret. unfold addEpisodes in Hret.
  pose proof (go_bind_returns _ _ Hret) as [sorted Hsorted].
  rewrite Hsorted in Hret. simpl in Hret.
  apply go_bind_returns in Hret.
  assert (ep ∈ sorted) as Hin' by (by rewrite (sort_Slice_perm _ _ _ _ Hsorted)).
  destruct (go_foldl_returns_body _ _ _ _ Hin' Hret) as [[t sk] [st' Hbody]].
  unfold attachEpisode in Hbody. by rewrite episode_year_short in Hbody.
Qed.

(** C2 (the code fails the claim). A category whose only episode has an empty
    source identifier: no comparison is made, the attach loop evaluates
    [ep.DataSourceID[:4]] and the process panics instead of placing the
    episode in the residual list.  With any conforming sort, a list that holds
    an identifier of three bytes does not return either. *)
Theorem C2_short_identifier_panics :
  addEpisodes (NewTreeNode "Category") [episode "" "Trailer"] = Panic SliceBounds ∧
  addEpisodes (NewTreeNode "Category")
    [episode "0501_R01" "Race"; episode "abc" "Trailer"] = Panic SliceBounds ∧
  ∀ (S : SliceSorter) target,
    ¬ returns (addEpisodes target [episode "0501_R01" "Race"; episode "abc" "Trailer"]).
Proof.
  split; [reflexivity|]. split; [reflexivity|].
  intros S target. apply (addEpisodes_short_id_panics target _ (episode "abc" "Trailer")).
  - right. by left.
  - vm_compute. lia.
Qed.

(** C3 (the code fails the claim). Three episodes arrive in the order 0503,
    an unparseable identifier, 0501, with titles "a" < "b" < "c".  Each
    adjacent pair falls back to the title comparison and is in order, so the
    insertion sort that [sort.Slice] runs on three elements moves nothing;
    bucket "2005" then holds race 0503 before race 0501. *)
Theorem C3_bucket_out_of_order :
  ∃ target,
    addEpisodes (NewTreeNode "Category")
      [episode "0503_R03" "a"; episode "abcd" "b"; episode "0501_R01" "c"]
    = Ret target ∧
    buckets target = [("2005", [episode "0503_R03" "a"; episode "0501_R01" "c"])] ∧
    residual target = [episode "abcd" "b"] ∧
    episode_less (episode "0501_R01" "c") (episode "0503_R03" "a") = Ret true.
Proof. eexists. split; [reflexivity|]. repeat split; reflexivity. Qed.

(** *** The organizer on identifiers of at least four bytes *)

Lemma getYearAndRace_sort_key ep :
  4 ≤ String.length (DataSourceID ep) →
  getYearAndRace (DataSourceID ep) = Ret (sort_key ep).
Proof.
  intros Hlen. unfold sort_key, getYearAndRace.
  rewrite !go_slice_Ret by lia. simpl. by destruct (Atoi _).
Qed.

Lemma episode_year_long ep :
  4 ≤ String.length (DataSourceID ep) → episode_year ep = Ret (year_of ep).
Proof.
  intros Hlen. unfold year_of, episode_year.
  rewrite go_slice_Ret by lia. simpl.
  destruct (Atoi _) as [v [err|]]; simpl; [done|].
  destruct (_ && _); [|done].
  rewrite (getYearAndRace_sort_key _ Hlen). simpl. by destruct (sort_key ep).
Qed.

(** An episode has a year bucket exactly when its identifier parses. *)
Lemma year_of_parses ep :
  4 ≤ String.length (DataSourceID ep) →
  (is_Some (year_of ep) ↔ parses (DataSourceID ep)).
Proof.
  intros Hlen. unfold parses, token4.
  pose proof (episode_year_long ep Hlen) as Hy. unfold episode_year in Hy.
  rewrite go_slice_Ret in Hy by lia. simpl in Hy.
  destruct (Atoi (String.substring 0 4 (DataSourceID ep))) as [v [err|]]; simpl in *.
  - injection Hy as Hn. rewrite <- Hn. split; [by intros [? ?]|by intros [_ ?]].
  - split; [done|]. intros _.
    destruct (_ && _); simpl in Hy.
    + rewrite (getYearAndRace_sort_key _ Hlen) in Hy. simpl in Hy.
      destruct (sort_key ep). injection Hy as Hn. rewrite <- Hn. by eexists.
    + injection Hy as Hn. rewrite <- Hn. by eexists.
Qed.

Lemma last_index_from_spec year keys : ∀ i found,
  match last_index_from i found year keys with
  | Some j => (found = Some j ∧ year ∉ keys) ∨ (i ≤ j ∧ keys !! (j - i) = Some year)
  | None => found = None ∧ year ∉ keys
  end.
Proof.
  induction keys as [|k keys IH]; intros i found; simpl.
  - destruct found; [left|]; split; try done; apply not_elem_of_nil.
  - specialize (IH (S i) (if bool_decide (k = year) then Some i else found)).
    destruct (last_index_from _ _ year keys) as [j|].
    + destruct IH as [[Hf Hnin]|[Hle Hl]].
      * case_bool_decide as Hk.
        -- inversion Hf; subst. right. split; [lia|]. by rewrite Nat.sub_diag.
        -- left. split; [done|]. by apply not_elem_of_cons.
      * right. split; [lia|]. replace (j - i) with (S (j - S i)) by lia. done.
    + destruct IH as [Hf Hnin]. case_bool_decide as Hk; [done|].
      split; [done|]. by apply not_elem_of_cons.
Qed.

Lemma last_index_Some year keys j :
  last_index_from 0 None year keys = Some j → keys !! j = Some year.
Proof.
  intros Hl. pose proof (last_index_from_spec year keys 0 None) as Hs.
  rewrite Hl in Hs. destruct Hs as [[? _]|[_ Hs]]; [done|]. by rewrite Nat.sub_0_r in Hs.
Qed.

Lemma last_index_None year keys :
  last_index_from 0 None year keys = None → year ∉ keys.
Proof.
  intros Hl. pose proof (last_index_from_spec year keys 0 None) as Hs.
  rewrite Hl in Hs. by destruct Hs.
Qed.

Lemma find_father_loop year bs : ∀ i found,
  go_foldl
    (λ '(i, father) subNode,
       match subNode with
       | None => Panic NilDeref
       | Some n =>
           Ret (S i, if reference_is_string (node_reference n) year
                     then Some i else father)
       end)
    (i, found) (bucketNode <$> bs)
  = Ret (i + length bs, last_index_from i found year bs.*1).
Proof.
  induction bs as [|b bs IH]; intros i found; simpl.
  - by rewrite Nat.add_0_r.
  - rewrite IH. by rewrite Nat.add_succ_r.
Qed.

Lemma find_father_buckets year bs :
  find_father year (bucketNode <$> bs) = Ret (last_index_from 0 None year bs.*1).
Proof. unfold find_father. by rewrite find_father_loop. Qed.

(** One iteration of the attach loop on a tree that holds buckets. *)
Lemma attachEpisode_buckets target sk bs ep :
  4 ≤ String.length (DataSourceID ep) →
  children target = bucketNode <$> bs →
  ∃ target',
    attachEpisode (target, sk) ep
    = Ret (target', sk ++ (if year_of ep is None then [episodeNode ep] else [])) ∧
    children target' = bucketNode <$> group_step bs ep.
Proof.
  intros Hlen Hc. unfold attachEpisode, group_step.
  rewrite (episode_year_long _ Hlen). simpl.
  destruct (year_of ep) as [year|]; simpl.
  - rewrite Hc, find_father_buckets. simpl.
    destruct (last_index_from 0 None year bs.*1) as [i|]; simpl.
    + eexists. split; [by rewrite app_nil_r|]. simpl.
      symmetry. apply list_fmap_alter. apply Forall_forall. intros [y es] _.
      unfold bucketNode, AddChild, SetChildren. simpl. by rewrite fmap_app.
    + eexists. split; [by rewrite app_nil_r|]. simpl.
      by rewrite Hc, fmap_app.
  - by exists target.
Qed.

Lemma filter_none {A} (P : A → Prop) `{∀ x, Decision (P x)} (l : list A) :
  (∀ x, x ∈ l → ¬ P x) → filter P l = [].
Proof.
  induction l as [|x l IH]; intros Hl; [done|].
  rewrite filter_cons, decide_False by (apply Hl; by left).
  apply IH. intros y Hy. apply Hl. by right.
Qed.

Lemma filter_year_snoc (P : episodeStruct → Prop) `{∀ ep, Decision (P ep)} eps ep :
  filter P (eps ++ [ep]) = filter P eps ++ (if decide (P ep) then [ep] else []).
Proof. rewrite filter_app. f_equal. Qed.

Lemma grouped_step bs eps ep :
  grouped bs eps → grouped (group_step bs ep) (eps ++ [ep]).
Proof.
  intros [Hk Hb Ha]. unfold group_step.
  destruct (year_of ep) as [year|] eqn:Hy.
  - destruct (last_index_from 0 None year bs.*1) as [i|] eqn:Hl.
    + apply last_index_Some in Hl.
      rewrite list_lookup_fmap in Hl.
      destruct (bs !! i) as [[y es]|] eqn:Hi; simpl in Hl; [|done].
      inversion Hl; subst y.
      assert ((alter (λ b, (b.1, b.2 ++ [ep])) i bs).*1 = bs.*1) as Hkeys.
      { rewrite (list_fmap_alter fst _ id); [apply list_alter_id; done|].
        apply Forall_forall. by intros [? ?] _. }
      split.
      * by rewrite Hkeys.
      * intros y es' [j Hj]%list_elem_of_lookup_1.
        destruct (decide (i = j)) as [<-|Hne].
        -- rewrite list_lookup_alter_eq, Hi in Hj. simpl in Hj. inversion Hj; subst y es'.
           destruct (Hb year es) as [Hes _]; [by eapply list_elem_of_lookup_2|].
           split; [|by destruct es].
           rewrite filter_year_snoc, <- Hes. by rewrite decide_True.
        -- rewrite list_lookup_alter_ne in Hj by done.
           destruct (Hb y es') as [Hes Hne']; [by eapply list_elem_of_lookup_2|].
           split; [|done].
           rewrite filter_year_snoc, <- Hes.
           rewrite decide_False; [by rewrite app_nil_r|].
           rewrite Hy. intros Heq. inversion Heq; subst y.
           apply Hne. eapply (NoDup_lookup bs.*1); [done| |].
           ++ rewrite list_lookup_fmap, Hi. done.
           ++ rewrite list_lookup_fmap, Hj. done.
      * intros ep' y Hin Hy'. rewrite Hkeys.
        apply elem_of_app in Hin as [Hin|Hin%list_elem_of_singleton]; [by eapply Ha|].
        subst ep'. rewrite Hy in Hy'. inversion Hy'; subst y.
        apply (list_elem_of_lookup_2 _ i). by rewrite list_lookup_fmap, Hi.
    + apply last_index_None in Hl.
      assert (filter (λ ep0, year_of ep0 = Some year) eps = []) as Hnone.
      { apply filter_none. intros ep' Hin Hy'. apply Hl. by eapply Ha. }
      split.
      * rewrite fmap_app. simpl. apply NoDup_app. split; [done|]. split.
        -- intros y Hin [->|[]%elem_of_nil]%elem_of_cons. done.
        -- apply NoDup_singleton.
      * intros y es [Hin|Hin%list_elem_of_singleton]%elem_of_app.
        -- destruct (Hb y es Hin) as [Hes Hne]. split; [|done].
           rewrite filter_year_snoc, <- Hes.
           rewrite decide_False; [by rewrite app_nil_r|].
           rewrite Hy. intros Heq. inversion Heq; subst y.
           apply Hl. apply list_elem_of_fmap. by exists (year, es).
        -- inversion Hin; subst y es. split; [|done].
           rewrite filter_year_snoc, Hnone. by rewrite decide_True.
      * intros ep' y Hin Hy'. rewrite fmap_app. apply elem_of_app.
        apply elem_of_app in Hin as [Hin|Hin%list_elem_of_singleton].
        -- left. by eapply Ha.
        -- subst ep'. rewrite Hy in Hy'. inversion Hy'; subst y. right. by left.
  - split.
    + done.
    + intros y es Hin. destruct (Hb y es Hin) as [Hes Hne]. split; [|done].
      rewrite filter_year_snoc, <- Hes.
      rewrite decide_False; [by rewrite app_nil_r|]. by rewrite Hy.
    + intros ep' y Hin Hy'.
      apply elem_of_app in Hin as [Hin|Hin%list_elem_of_singleton]; [by eapply Ha|].
      subst ep'. by rewrite Hy in Hy'.
Qed.

Lemma attach_loop rest : ∀ seen target sk bs,
  Forall (λ ep, 4 ≤ String.length (DataSourceID ep)) rest →
  children target = bucketNode <$> bs → grouped bs seen →
  ∃ target' bs',
    go_foldl attachEpisode (target, sk) rest
    = Ret (target', sk ++ (episodeNode <$> filter (λ ep, year_of ep = None) rest)) ∧
    children target' = bucketNode <$> bs' ∧ grouped bs' (seen ++ rest).
Proof.
  induction rest as [|ep rest IH]; intros seen target sk bs Hlong Hc Hg.
  - exists target, bs. simpl. by rewrite !app_nil_r.
  - apply Forall_cons in Hlong as [Hlen Hlong].
    destruct (attachEpisode_buckets target sk bs ep Hlen Hc) as (t1 & Ht1 & Hc1).
    destruct (IH (seen ++ [ep]) t1
                (sk ++ (if year_of ep is None then [episodeNode ep] else []))
                (group_step bs ep) Hlong Hc1 (grouped_step _ _ _ Hg))
      as (target' & bs' & Hrun & Hc' & Hg').
    exists target', bs'. rewrite go_foldl_cons, Ht1. cbn [go_bind]. rewrite Hrun.
    split; [|split; [done|by rewrite <- app_assoc in Hg']].
    f_equal. f_equal. rewrite <- app_assoc. f_equal.
    rewrite filter_cons. by destruct (year_of ep).
Qed.

Lemma children_attach_skipped sk : ∀ t,
  children (foldl (λ t ep, AddChild (Some ep) t) t sk) = children t ++ (Some <$> sk).
Proof.
  induction sk as [|ep sk IH]; intros t; simpl.
  - by rewrite app_nil_r.
  - rewrite IH. simpl. by rewrite <- app_assoc.
Qed.

Lemma episodes_of_episode_nodes (eps : list episodeStruct) :
  omap episode_of_child (Some <$> (episodeNode <$> eps)) = eps.
Proof. induction eps as [|e eps IH]; csimpl; [done|]. by rewrite IH. Qed.

Lemma episodes_of_bucket_nodes (bs : list (string * list episodeStruct)) :
  omap episode_of_child (bucketNode <$> bs) = [].
Proof. induction bs as [|b bs IH]; csimpl; done. Qed.

Lemma buckets_of_episode_nodes (eps : list episodeStruct) :
  omap bucket_of_child (Some <$> (episodeNode <$> eps)) = [].
Proof. induction eps as [|e eps IH]; csimpl; done. Qed.

Lemma episodes_of_bucket (es : list episodeStruct) :
  omap episode_of_child ((λ ep, Some (episodeNode ep)) <$> es) = es.
Proof. induction es as [|e es IH]; csimpl; [done|]. by rewrite IH. Qed.

Lemma buckets_of_bucket_nodes (bs : list (string * list episodeStruct)) :
  omap bucket_of_child (bucketNode <$> bs) = bs.
Proof.
  induction bs as [|[y es] bs IH]; csimpl; [done|]. rewrite IH.
  unfold node_episodes. csimpl. by rewrite episodes_of_bucket.
Qed.

Lemma buckets_children t bs (eps : list episodeStruct) :
  children t = (bucketNode <$> bs) ++ (Some <$> (episodeNode <$> eps)) →
  buckets t = bs ∧ residual t = eps.
Proof.
  intros Hc. unfold buckets, residual, node_episodes. rewrite Hc, !omap_app. split.
  - by rewrite buckets_of_bucket_nodes, buckets_of_episode_nodes, app_nil_r.
  - by rewrite episodes_of_bucket_nodes, episodes_of_episode_nodes.
Qed.

Lemma episode_less_long ei ej :
  4 ≤ String.length (DataSourceID ei) → 4 ≤ String.length (DataSourceID ej) →
  returns (episode_less ei ej).
Proof.
  intros Hi Hj. unfold episode_less. rewrite !go_slice_Ret by lia. simpl.
  destruct (Atoi _) as [? ?]. destruct (Atoi _) as [? ?].
  destruct (bool_decide _); [by eexists|].
  rewrite !getYearAndRace_sort_key by done. simpl.
  destruct (sort_key ei), (sort_key ej). by eexists.
Qed.

(** What [addEpisodes] builds from identifiers of at least four bytes, for
    every conforming sort and every arrival order: it returns; the residual
    list holds the episodes whose identifiers do not parse, in sorted order;
    every episode that parses is in the bucket of its year, and each bucket
    holds the episodes of its year in sorted order. *)
Lemma addEpisodes_organizes `{SliceSorter} target episodes :
  children target = [] →
  Forall (λ ep, 4 ≤ String.length (DataSourceID ep)) episodes →
  ∃ sorted target',
    sort_Slice episode_less episodes = Ret sorted ∧ sorted ≡ₚ episodes ∧
    addEpisodes target episodes = Ret target' ∧
    residual target' = filter (λ ep, year_of ep = None) sorted ∧
    grouped (buckets target') sorted.
Proof.
  intros Hc Hlong.
  destruct (sort_Slice_returns _ episode_less episodes) as [sorted Hsorted].
  { intros a b Ha Hb. rewrite Forall_forall in Hlong. apply episode_less_long; auto. }
  pose proof (sort_Slice_perm _ _ _ _ Hsorted) as Hperm.
  assert (Forall (λ ep, 4 ≤ String.length (DataSourceID ep)) sorted) as Hlong'
    by (by rewrite Hperm).
  destruct (attach_loop sorted [] target [] [] Hlong') as (t1 & bs & Hrun & Hc1 & Hg).
  { by rewrite Hc. }
  { split; [constructor| |]; intros ? ? Hin; by apply elem_of_nil in Hin. }
  exists sorted. eexists. split; [done|]. split; [done|].
  unfold addEpisodes. rewrite Hsorted. simpl. rewrite Hrun. simpl.
  split; [done|].
  destruct (buckets_children
              (foldl (λ t ep, AddChild (Some ep) t) t1
                 (episodeNode <$> filter (λ ep, year_of ep = None) sorted))
              bs (filter (λ ep, year_of ep = None) sorted)) as [-> ->].
  { by rewrite children_attach_skipped, Hc1. }
  done.
Qed.

(** With identifiers of at least four bytes the residual list holds exactly
    the episodes whose identifiers do not parse. *)
Lemma addEpisodes_residual `{SliceSorter} target episodes target' :
  children target = [] →
  Forall (λ ep, 4 ≤ String.length (DataSourceID ep)) episodes →
  addEpisodes target episodes = Ret target' →
  ∀ ep, ep ∈ residual target' ↔ ep ∈ episodes ∧ ¬ parses (DataSourceID ep).
Proof.
  intros Hc Hlong Hrun ep.
  destruct (addEpisodes_organizes target episodes Hc Hlong)
    as (sorted & t & Hsorted & Hperm & Hrun' & Hres & _).
  rewrite Hrun in Hrun'. injection Hrun' as ->.
  rewrite Hres, list_elem_of_filter, Hperm. rewrite Forall_forall in Hlong.
  split.
  - intros [Hnone Hin]. split; [done|].
    rewrite <- year_of_parses by auto. rewrite Hnone. by intros [? ?].
  - intros [Hin Hnp]. split; [|done].
    rewrite <- year_of_parses in Hnp by auto.
    destruct (year_of ep); [|done]. exfalso. apply Hnp. by eexists.
Qed.

(** *** Buckets are in order when every identifier parses *)

Lemma key_lt_false k1 k2 :
  key_lt k1 k2 = false ↔
  string_lt k1.1 k2.1 = false ∧ (k1.1 = k2.1 → string_lt k1.2 k2.2 = false).
Proof.
  unfold key_lt. rewrite orb_false_iff, andb_false_iff, bool_decide_eq_false.
  split; intros [H1 H2]; (split; [done|]).
  - intros Heq. by destruct H2.
  - destruct (decide (k1.1 = k2.1)); auto.
Qed.

Lemma key_lt_strict_weak (l : list episodeStruct) :
  strict_weak_on (λ a b, key_lt (sort_key a) (sort_key b)) l.
Proof.
  split.
  - intros a b _ _ Hab. apply key_lt_false. unfold key_lt in Hab.
    apply orb_true_iff in Hab as [Hy|[Hy Hr]%andb_true_iff].
    + split; [by apply string_lt_asym|]. intros Heq. rewrite Heq in Hy.
      by rewrite string_lt_irrefl in Hy.
    + apply bool_decide_eq_true in Hy. split.
      * rewrite Hy. apply string_lt_irrefl.
      * intros _. by apply string_lt_asym.
  - intros a b c _ _ _ [Hab Hab']%key_lt_false [Hbc Hbc']%key_lt_false.
    apply key_lt_false. split; [by eapply string_lt_negtrans|].
    intros Heq. rewrite Heq in Hab.
    assert ((sort_key b).1 = (sort_key c).1) as Hbceq by (by apply string_lt_total).
    assert ((sort_key a).1 = (sort_key b).1) as Habeq by congruence.
    eapply string_lt_negtrans; eauto.
Qed.

Lemma episode_less_parses ei ej :
  parses (DataSourceID ei) → parses (DataSourceID ej) →
  episode_less ei ej = Ret (key_lt (sort_key ei) (sort_key ej)).
Proof.
  intros [Hi Hti] [Hj Htj]. unfold episode_less, token4 in *.
  rewrite !go_slice_Ret by lia. simpl.
  destruct (Atoi (String.substring 0 4 (DataSourceID ei))) as [vi erri].
  destruct (Atoi (String.substring 0 4 (DataSourceID ej))) as [vj errj].
  simpl in Hti, Htj. subst erri errj.
  rewrite bool_decide_eq_false_2 by (intros [?|?]; done).
  rewrite !getYearAndRace_sort_key by done. simpl.
  by destruct (sort_key ei), (sort_key ej).
Qed.

Lemma StronglySorted_filter {A} (R : relation A) (P : A → Prop)
    `{∀ x, Decision (P x)} (l : list A) :
  StronglySorted R l → StronglySorted R (filter P l).
Proof.
  induction 1 as [|x l Hl IH Hx]; [constructor|].
  rewrite filter_cons. destruct (decide (P x)); [|done].
  constructor; [done|]. rewrite Forall_forall in Hx |- *.
  intros y [_ Hy]%list_elem_of_filter. by apply Hx.
Qed.

(** When every identifier of the list parses, every bucket is in (year, race)
    order, for every conforming sort and every arrival order. *)
Lemma addEpisodes_buckets_sorted `{SliceSorter} target episodes target' :
  children target = [] →
  Forall (λ ep, parses (DataSourceID ep)) episodes →
  addEpisodes target episodes = Ret target' →
  ∀ year es, (year, es) ∈ buckets target' →
    StronglySorted (not_after (λ a b, key_lt (sort_key a) (sort_key b))) es.
Proof.
  intros Hc Hparse Hrun year es Hin.
  assert (Forall (λ ep, 4 ≤ String.length (DataSourceID ep)) episodes) as Hlong.
  { eapply Forall_impl; [exact Hparse|]. by intros ep [? _]. }
  destruct (addEpisodes_organizes target episodes Hc Hlong)
    as (sorted & t & Hsorted & Hperm & Hrun' & _ & Hg).
  rewrite Hrun in Hrun'. injection Hrun' as ->.
  destruct (grouped_bucket _ _ Hg year es Hin) as [-> _].
  apply StronglySorted_filter.
  eapply (sort_Slice_sorted _ episode_less _ episodes sorted); [|apply key_lt_strict_weak|done].
  intros a b Ha Hb. rewrite Forall_forall in Hparse. apply episode_less_parses; auto.
Qed.

(** ** Kind dispatch of the resolver *)

Lemma length_app_string (s t : string) :
  String.length (s +:+ t) = String.length s + String.length t.
Proof.
  induction s as [|c s IH]; [done|].
  change (S (String.length (s +:+ t)) = S (String.length s + String.length t)).
  by rewrite IH.
Qed.

(** A first line that carries the driver prefix and at least one more byte is
    resolved as a list of drivers. *)
Lemma convertIDs_kind_driver (id : string) (rest : list string) :
  id ≠ "" → convertIDs_kind (("/api/driver/" +:+ id) :: rest) = Ret AsDrivers.
Proof.
  intros Hid. unfold convertIDs_kind, guarded_prefix.
  rewrite decide_True.
  2:{ rewrite length_app_string. destruct id; [done|]. simpl. lia. }
  rewrite go_slice_Ret by (rewrite ?length_app_string; simpl; lia).
  cbv beta iota zeta delta [String.append String.substring go_bind Nat.sub].
  by rewrite substring_0_0.
Qed.

(** A first line that carries the team prefix is resolved as a list of teams
    only when it is longer than 12 bytes, the length of the driver prefix:
    the team identifier proper must have at least three bytes. *)
Lemma convertIDs_kind_team (id : string) (rest : list string) :
  convertIDs_kind (("/api/team/" +:+ id) :: rest)
  = Ret (if decide (2 < String.length id) then AsTeams else Unresolved).
Proof.
  unfold convertIDs_kind, guarded_prefix. rewrite length_app_string.
  change (String.length "/api/team/") with 10.
  destruct (decide (2 < String.length id)) as [Hlong|Hshort].
  - rewrite !decide_True by lia.
    rewrite !go_slice_Ret by (rewrite ?length_app_string; simpl; lia).
    destruct id as [|a [|b id]]; simpl in Hlong; try lia.
    cbv beta iota zeta delta [String.append String.substring go_bind Nat.sub].
    by rewrite bool_decide_eq_false_2 by discriminate.
  - by rewrite !decide_False by lia.
Qed.

(** C4 (the code fails the claim). A list whose first element is the team
    prefix followed by a one-byte (or two-byte) identifier is returned as it
    is: the team branch requires more than 12 bytes, the length of the driver
    prefix, although it compares 10.  No team is looked up or fetched. *)
Theorem C4_short_team_identifier_unresolved :
  ∀ (S : SliceSorter) (R : Remote) (sched : list nat) (w : world),
    convertIDs sched w ["/api/team/7"; "/api/team/8"]
      = (Ret ["/api/team/7"; "/api/team/8"], w) ∧
    convertIDs sched w ["/api/team/42"] = (Ret ["/api/team/42"], w) ∧
    convertIDs sched w ["/api/team/427"] = getTeamNames sched w ["/api/team/427"].
Proof. intros. repeat split; reflexivity. Qed.

(** ** The resolver under every interleaving *)

Section resolver_proofs.
Context {V : Type} (fetch : string → V) (name_of : V → string).
Context (m : gmap string V) (ids : list string).

Local Abbreviation inv := (resolver_inv fetch name_of m ids).
Local Abbreviation step := (goroutine_step fetch name_of).

Lemma occurrences_app id l1 l2 :
  occurrences id (l1 ++ l2) = occurrences id l1 + occurrences id l2.
Proof. unfold occurrences. by rewrite filter_app, length_app. Qed.

Lemma occurrences_cons id i l :
  occurrences id (i :: l) = (if decide (i = id) then 1 else 0) + occurrences id l.
Proof.
  unfold occurrences. rewrite filter_cons. by destruct (decide (i = id)).
Qed.

Lemma may_fetch_insert id (l : list string) : ∀ (phs : list (phase V)) j i ph ph',
  l !! j = Some i → phs !! j = Some ph →
  may_fetch id l (<[j:=ph']> phs) + fetch_weight id i ph
  = may_fetch id l phs + fetch_weight id i ph'.
Proof.
  induction l as [|i0 l IH]; intros phs j i ph ph' Hl Hp; [done|].
  destruct phs as [|p0 phs]; [done|].
  destruct j as [|j]; simpl in *.
  - inversion Hl; inversion Hp; subst. lia.
  - specialize (IH phs j i ph ph' Hl Hp). lia.
Qed.

Lemma may_fetch_init id :
  may_fetch id ids (replicate (length ids) (PLookup : phase V)) = occurrences id ids.
Proof.
  induction ids as [|i l IH]; [done|].
  simpl. rewrite occurrences_cons. by rewrite IH.
Qed.

Lemma inv_init :
  inv {| cache := m; fetched := []; lines := ids;
         phases := replicate (length ids) PLookup |}.
Proof.
  split; simpl.
  - apply length_replicate.
  - done.
  - by left.
  - intros j id ph Hid [-> _]%lookup_replicate. done.
  - intros id Hin. by apply elem_of_nil in Hin.
  - intros id. by rewrite may_fetch_init.
Qed.

Lemma inv_step st j : inv st → inv (step st j).
Proof.
  intros Hinv. unfold goroutine_step.
  destruct (phases st !! j) as [ph|] eqn:Hph; [|done].
  destruct (lines st !! j) as [line|] eqn:Hline; [|done].
  assert (j < length ids) as Hj.
  { rewrite <- (inv_phases _ _ _ _ _ Hinv). by eapply lookup_lt_Some. }
  destruct (lookup_lt_is_Some_2 ids j Hj) as [id Hid].
  pose proof (inv_goroutine _ _ _ _ _ Hinv j id ph Hid Hph) as Hok.
  assert (j < length (phases st)) as Hjp by (by eapply lookup_lt_Some).
  assert (j < length (lines st)) as Hjl by (by eapply lookup_lt_Some).
  destruct ph as [| |v|v|]; simpl in Hok.
  - (* lookup *)
    rewrite Hline in Hok. inversion Hok; subst line. clear Hok.
    split; simpl.
    + rewrite length_insert. apply Hinv.
    + apply Hinv.
    + apply Hinv.
    + intros j' id' ph' Hid' Hph'.
      destruct (decide (j = j')) as [<-|Hne].
      * rewrite list_lookup_insert_eq in Hph' by done.
        rewrite Hid in Hid'. inversion Hid'; subst id'. inversion Hph'; subst ph'.
        destruct (inv_cache _ _ _ _ _ Hinv id) as [Hc|[Hm Hc]];
          destruct (cache st !! id) as [v|] eqn:Hcache; simpl.
        -- split; [done|]. split; [|by eexists].
           unfold resolved. by rewrite <- Hc.
        -- done.
        -- split; [done|]. split; [|by eexists].
           unfold resolved. rewrite Hm. simpl. congruence.
        -- done.
      * rewrite list_lookup_insert_ne in Hph' by done.
        apply (inv_goroutine _ _ _ _ _ Hinv j' id' ph' Hid' Hph').
    + apply Hinv.
    + intros id'. pose proof (inv_count _ _ _ _ _ Hinv id') as Hc.
      pose proof (may_fetch_insert id' ids (phases st) j id PLookup
        (match cache st !! id with Some v => PName v | None => PFetch end)
        Hid Hph) as He.
      assert (fetch_weight id' id
                (match cache st !! id with Some v => PName v | None => PFetch end)
              ≤ fetch_weight id' id (PLookup : phase V)) as Hw.
      { destruct (cache st !! id); simpl; [lia|done]. }
      lia.
  - (* fetch *)
    destruct Hok as [Hl Hm]. rewrite Hline in Hl. inversion Hl; subst line.
    split; simpl.
    + rewrite length_insert. apply Hinv.
    + apply Hinv.
    + apply Hinv.
    + intros j' id' ph' Hid' Hph'.
      destruct (decide (j = j')) as [<-|Hne].
      * rewrite list_lookup_insert_eq in Hph' by done.
        rewrite Hid in Hid'. inversion Hid'; subst id'. inversion Hph'; subst ph'.
        by simpl.
      * rewrite list_lookup_insert_ne in Hph' by done.
        apply (inv_goroutine _ _ _ _ _ Hinv j' id' ph' Hid' Hph').
    + intros id' [Hin|Hin%list_elem_of_singleton]%elem_of_app.
      * by apply Hinv.
      * subst id'. split; [done|]. by eapply list_elem_of_lookup_2.
    + intros id'. pose proof (inv_count _ _ _ _ _ Hinv id') as Hc.
      pose proof (may_fetch_insert id' ids (phases st) j id PFetch
        (PStore (fetch id)) Hid Hph) as He.
      rewrite occurrences_app, occurrences_cons. simpl in *.
      change (occurrences id' []) with 0. lia.
  - (* store *)
    destruct Hok as (Hl & Hm & ->). rewrite Hline in Hl. inversion Hl; subst line.
    split; simpl.
    + rewrite length_insert. apply Hinv.
    + apply Hinv.
    + intros id'. destruct (decide (id = id')) as [<-|Hne].
      * right. by rewrite lookup_insert_eq.
      * rewrite lookup_insert_ne by done. apply Hinv.
    + intros j' id' ph' Hid' Hph'.
      assert (∀ k, is_Some (cache st !! k) → is_Some (<[id:=fetch id]> (cache st) !! k))
        as Hmono.
      { intros k Hk. destruct (decide (id = k)) as [<-|Hne].
        - rewrite lookup_insert_eq. by eexists.
        - by rewrite lookup_insert_ne. }
      destruct (decide (j = j')) as [<-|Hne].
      * rewrite list_lookup_insert_eq in Hph' by done.
        rewrite Hid in Hid'. inversion Hid'; subst id'. inversion Hph'; subst ph'.
        simpl. split; [done|]. split.
        -- unfold resolved. by rewrite Hm.
        -- rewrite lookup_insert_eq. by eexists.
      * rewrite list_lookup_insert_ne in Hph' by done.
        pose proof (inv_goroutine _ _ _ _ _ Hinv j' id' ph' Hid' Hph') as Hok'.
        destruct ph' as [| |v'|v'|]; simpl in Hok' |- *; intuition auto.
    + apply Hinv.
    + intros id'. pose proof (inv_count _ _ _ _ _ Hinv id') as Hc.
      pose proof (may_fetch_insert id' ids (phases st) j id (PStore (fetch id))
        (PName (fetch id)) Hid Hph) as He.
      simpl in *. lia.
  - (* name *)
    destruct Hok as (Hl & -> & Hsome). rewrite Hline in Hl. inversion Hl; subst line.
    split; simpl.
    + rewrite length_insert. apply Hinv.
    + rewrite length_insert. apply Hinv.
    + apply Hinv.
    + intros j' id' ph' Hid' Hph'.
      destruct (decide (j = j')) as [<-|Hne].
      * rewrite list_lookup_insert_eq in Hph' by done.
        rewrite Hid in Hid'. inversion Hid'; subst id'. inversion Hph'; subst ph'.
        simpl. by rewrite list_lookup_insert_eq.
      * rewrite list_lookup_insert_ne in Hph' by done.
        pose proof (inv_goroutine _ _ _ _ _ Hinv j' id' ph' Hid' Hph') as Hok'.
        destruct ph'; simpl in *; rewrite list_lookup_insert_ne by done; done.
    + apply Hinv.
    + intros id'. pose proof (inv_count _ _ _ _ _ Hinv id') as Hc.
      pose proof (may_fetch_insert id' ids (phases st) j id (PName (resolved fetch m id))
        PDone Hid Hph) as He.
      simpl in *. lia.
  - done.
Qed.

Lemma inv_run sched : ∀ st, inv st → inv (run_schedule fetch name_of sched st).
Proof.
  unfold run_schedule.
  induction sched as [|j sched IH]; intros st Hinv; simpl; [done|].
  apply IH. by apply inv_step.
Qed.
(** *** Every goroutine ends: [wg.Wait()] returns *)

Lemma step_other st j j' : j ≠ j' → phases (step st j) !! j' = phases st !! j'.
Proof.
  intros Hne. unfold goroutine_step.
  destruct (phases st !! j) as [ph|]; [|done].
  destruct (lines st !! j) as [line|]; [|done].
  destruct ph; simpl; by rewrite ?list_lookup_insert_ne.
Qed.

Lemma step_done st j j' :
  phases st !! j' = Some PDone → phases (step st j) !! j' = Some PDone.
Proof.
  intros Hd. destruct (decide (j = j')) as [->|Hne].
  - unfold goroutine_step. rewrite Hd. by destruct (lines st !! j').
  - by rewrite step_other.
Qed.

Lemma step_progress st j ph :
  inv st → phases st !! j = Some ph →
  ∃ ph', phases (step st j) !! j = Some ph' ∧ steps_left ph' ≤ pred (steps_left ph).
Proof.
  intros Hinv Hph.
  assert (j < length (phases st)) as Hjp by (by eapply lookup_lt_Some).
  assert (j < length (lines st)) as Hjl.
  { rewrite (inv_lines _ _ _ _ _ Hinv), <- (inv_phases _ _ _ _ _ Hinv). done. }
  destruct (lookup_lt_is_Some_2 _ _ Hjl) as [line Hline].
  unfold goroutine_step. rewrite Hph, Hline.
  destruct ph; simpl; rewrite ?list_lookup_insert_eq by done.
  - eexists; split; [done|]. destruct (cache st !! line); simpl; lia.
  - eexists; split; [done|]. simpl; lia.
  - eexists; split; [done|]. simpl; lia.
  - eexists; split; [done|]. simpl; lia.
  - eexists; split; [done|]. simpl; lia.
Qed.

Lemma steps_progress k : ∀ st j ph,
  inv st → phases st !! j = Some ph → steps_left ph ≤ k →
  phases (run_schedule fetch name_of (replicate k j) st) !! j = Some PDone.
Proof.
  unfold run_schedule.
  induction k as [|k IH]; intros st j ph Hinv Hph Hk; simpl.
  - destruct ph; simpl in Hk; try lia. done.
  - destruct (step_progress st j ph Hinv Hph) as (ph' & Hph' & Hle).
    apply (IH _ _ ph'); [by apply inv_step|done|lia].
Qed.

Lemma run_done sched : ∀ st j,
  phases st !! j = Some PDone →
  phases (run_schedule fetch name_of sched st) !! j = Some PDone.
Proof.
  unfold run_schedule.
  induction sched as [|i sched IH]; intros st j Hd; simpl; [done|].
  apply IH. by apply step_done.
Qed.

Lemma run_app s1 s2 st :
  run_schedule fetch name_of (s1 ++ s2) st
  = run_schedule fetch name_of s2 (run_schedule fetch name_of s1 st).
Proof. unfold run_schedule. by rewrite foldl_app. Qed.

Lemma wait_all_done k : ∀ st j,
  inv st → k ≤ length ids → j < k →
  phases (run_schedule fetch name_of (wait_all k) st) !! j = Some PDone.
Proof.
  unfold wait_all.
  induction k as [|k IH]; intros st j Hinv Hk Hj; [lia|].
  rewrite seq_S, flat_map_app, run_app.
  change (flat_map (λ j, replicate 4 j) [0 + k]) with (replicate 4 k).
  set (st1 := run_schedule fetch name_of (flat_map (λ j, replicate 4 j) (seq 0 k)) st).
  assert (inv st1) as Hinv1 by (by apply inv_run).
  destruct (decide (j = k)) as [->|Hne].
  - assert (k < length (phases st1)) as Hkp.
    { rewrite (inv_phases _ _ _ _ _ Hinv1). lia. }
    destruct (lookup_lt_is_Some_2 _ _ Hkp) as [ph Hph].
    apply (steps_progress 4 st1 k ph Hinv1 Hph). destruct ph; simpl; lia.
  - apply run_done. apply IH; [done|lia|lia].
Qed.

(** *** What a call leaves behind, whatever the schedule *)

Lemma resolve_inv sched : inv (resolve fetch name_of sched m ids).
Proof. unfold resolve. apply inv_run, inv_init. Qed.

Lemma resolve_lines sched :
  lines (resolve fetch name_of sched m ids)
  = (λ id, name_of (resolved fetch m id)) <$> ids.
Proof.
  pose proof (resolve_inv sched) as Hinv.
  apply list_eq. intros j. rewrite list_lookup_fmap.
  destruct (ids !! j) as [id|] eqn:Hid; simpl.
  - assert (j < length ids) as Hj by (by eapply lookup_lt_Some).
    assert (phases (resolve fetch name_of sched m ids) !! j = Some PDone) as Hd.
    { unfold resolve. rewrite run_app.
      apply wait_all_done; [apply inv_run, inv_init|done|done]. }
    by destruct (inv_goroutine _ _ _ _ _ Hinv j id PDone Hid Hd) as [Hl _].
  - apply lookup_ge_None. rewrite (inv_lines _ _ _ _ _ Hinv).
    by apply lookup_ge_None.
Qed.

Lemma resolve_cached sched id :
  id ∈ ids → is_Some (cache (resolve fetch name_of sched m ids) !! id).
Proof.
  intros [j Hid]%list_elem_of_lookup_1.
  pose proof (resolve_inv sched) as Hinv.
  assert (j < length ids) as Hj by (by eapply lookup_lt_Some).
  assert (phases (resolve fetch name_of sched m ids) !! j = Some PDone) as Hd.
  { unfold resolve. rewrite run_app.
    apply wait_all_done; [apply inv_run, inv_init|done|done]. }
  by destruct (inv_goroutine _ _ _ _ _ Hinv j id PDone Hid Hd) as [_ Hc].
Qed.

End resolver_proofs.

(** ** Driver names *)

Lemma getDriverNames_fetches `{SliceSorter} `{Remote} sched w ids :
  driver_fetches_since w (getDriverNames sched w ids).2
  = fetched (resolve getDriver driver_name sched (driverMap w) ids).
Proof. unfold driver_fetches_since. simpl. by rewrite drop_app_length. Qed.

Lemma getDriverNames_fetches2 `{SliceSorter} `{Remote} sched sched2 w ids again :
  driver_fetches_since w (getDriverNames sched2 (getDriverNames sched w ids).2 again).2
  = driver_fetches_since w (getDriverNames sched w ids).2
    ++ driver_fetches_since (getDriverNames sched w ids).2
         (getDriverNames sched2 (getDriverNames sched w ids).2 again).2.
Proof.
  rewrite !getDriverNames_fetches. unfold driver_fetches_since. simpl.
  by rewrite <- app_assoc, drop_app_length.
Qed.

Lemma not_elem_of_occurrences id l : id ∉ l → occurrences id l = 0.
Proof.
  intros Hnin. unfold occurrences.
  induction l as [|x l IH]; [done|].
  rewrite filter_cons. destruct (decide (x = id)) as [->|_].
  - exfalso. apply Hnin. by left.
  - apply IH. intros Hin. apply Hnin. by right.
Qed.

(** C5 (the claim fails as stated). Two goroutines of one call that hold the
    same identifier both miss the cache before either stores, and both fetch:
    two sequential calls on the list [d; d] fetch [d] twice. *)
Lemma C5_duplicate_identifier_fetched_twice :
  ¬ (∀ (S : SliceSorter) (R : Remote) (sched1 sched2 : list nat) (w : world)
       (ids : list string) (id : string),
       id ∈ ids →
       occurrences id
         (driver_fetches_since w
            (getDriverNames sched2 (getDriverNames sched1 w ids).2 ids).2) ≤ 1).
Proof.
  intros Hclaim.
  specialize (Hclaim go_sort sample_remote [0; 1; 0; 1] [] empty_world
                ["/api/driver/ham"; "/api/driver/ham"] "/api/driver/ham").
  assert ("/api/driver/ham" ∈ ["/api/driver/ham"; "/api/driver/ham"]) as Hin by (by left).
  specialize (Hclaim Hin). vm_compute in Hclaim. lia.
Qed.

(** C5, amended. For every list of driver identifiers and every interleaving
    of the goroutines, [getDriverNames] returns the display names sorted
    lexicographically, the same list for every permutation of the input; a
    second, later call fetches no identifier that the first call resolved;
    and a call fetches an identifier at most as many times as the identifier
    occurs in its list, so that an identifier that occurs once in the first
    list is fetched at most once over the two calls. *)
Theorem C5_driver_names_sorted_and_cached
    (S : SliceSorter) (R : Remote) (w : world)
    (ids ids' again : list string) (sched sched' sched2 : list nat) (id : string) :
  let call1 := getDriverNames sched w ids in
  let call2 := getDriverNames sched2 call1.2 again in
  (∃ names, call1.1 = Ret names ∧ StronglySorted String.le names ∧
            names ≡ₚ driver_display w <$> ids) ∧
  (ids ≡ₚ ids' → (getDriverNames sched' w ids').1 = call1.1) ∧
  (id ∈ ids → id ∉ driver_fetches_since call1.2 call2.2) ∧
  occurrences id (driver_fetches_since w call1.2) ≤ occurrences id ids ∧
  (id ∈ ids → occurrences id ids = 1 →
   occurrences id (driver_fetches_since w call2.2) ≤ 1).
Proof.
  intros call1 call2.
  assert (id ∈ ids → id ∉ driver_fetches_since call1.2 call2.2) as Hsecond.
  { intros Hin. unfold call2. rewrite getDriverNames_fetches. intros Hf.
    pose proof (resolve_inv getDriver driver_name (driverMap call1.2) again sched2) as Hinv.
    destruct (inv_fetched _ _ _ _ _ Hinv id Hf) as [Hnone _].
    destruct (resolve_cached getDriver driver_name (driverMap w) ids sched id Hin)
      as [v Hv].
    simpl in Hnone. rewrite Hv in Hnone. discriminate. }
  assert (occurrences id (driver_fetches_since w call1.2) ≤ occurrences id ids) as Hfirst.
  { unfold call1. rewrite getDriverNames_fetches.
    pose proof (inv_count _ _ _ _ _
      (resolve_inv getDriver driver_name (driverMap w) ids sched) id). lia. }
  split; [|split; [|split; [done|split; [done|]]]].
  - unfold call1. simpl. rewrite resolve_lines.
    destruct (sort_Strings_spec
                ((λ id, driver_name (resolved getDriver (driverMap w) id)) <$> ids))
      as (names & Hn & Hp & Hs).
    exists names. by rewrite Hn.
  - intros Hperm. unfold call1. simpl. rewrite !resolve_lines.
    apply sort_Strings_perm. by rewrite Hperm.
  - intros Hin Hone. unfold call2, call1. rewrite getDriverNames_fetches2.
    rewrite occurrences_app.
    fold call1. fold call2. rewrite (not_elem_of_occurrences _ _ (Hsecond Hin)). lia.
Qed.

Lemma C5_driver_names_sorted_and_cached_witness :
  let ids := ["/api/driver/ver"; "/api/driver/ham"] in
  let ids' := ["/api/driver/ham"; "/api/driver/ver"] in
  let id := "/api/driver/ham" in
  let call1 := @getDriverNames go_sort sample_remote [1; 0; 1] empty_world ids in
  let call2 := @getDriverNames go_sort sample_remote [0] (call1.2) ids in
  (ids ≡ₚ ids') ∧ (id ∈ ids) ∧ (occurrences id ids = 1) ∧
  ((@getDriverNames go_sort sample_remote [] empty_world ids').1 = call1.1) ∧
  (id ∉ driver_fetches_since (call1.2) (call2.2)) ∧
  (occurrences id (driver_fetches_since empty_world (call2.2)) ≤ 1).
Proof.
  intros ids ids' id call1 call2.
  assert (ids ≡ₚ ids') as Hperm by apply perm_swap.
  assert (id ∈ ids) as Hin by (right; left).
  assert (occurrences id ids = 1) as Hone by reflexivity.
  destruct (C5_driver_names_sorted_and_cached go_sort sample_remote empty_world
              ids ids' ids [1; 0; 1] [] [0] id) as (_ & H2 & H3 & _ & H5).
  split; [exact Hperm|]. split; [exact Hin|]. split; [exact Hone|].
  split; [exact (H2 Hperm)|]. split; [exact (H3 Hin) | exact (H5 Hin Hone)].
Defined.

Example getDriverNames_example :
  (@getDriverNames go_sort sample_remote [1; 0; 1] empty_world
     ["/api/driver/ver"; "/api/driver/ham"]).1
  = Ret ["(44) Driver /api/driver/ham"; "(44) Driver /api/driver/ver"].
Proof. reflexivity. Qed.

Example addNumberToName_examples :
  addNumberToName 4 "Lando Norris" = " (4) Lando Norris" ∧
  addNumberToName 44 "Lewis Hamilton" = "(44) Lewis Hamilton".
Proof. split; reflexivity. Qed.

(** ** The command dispatcher *)

Section dispatcher.
Context `{Remote} (url title : string).

Local Abbreviation dl_inv := (download_inv url title).
Arguments substitute : simpl never.
Arguments runCommand : simpl never.

Lemma substitute_spec d tmp s :
  dl_inv d →
  dl_inv (substitute url title (d, tmp) s).1 ∧
  fileLoaded (substitute url title (d, tmp) s).1
  = fileLoaded d || strings_Contains s "$file".
Proof.
  unfold download_inv, substitute. intros Hd.
  destruct (strings_Contains s "$file"); simpl.
  - destruct (fileLoaded d) eqn:Hl; simpl.
    + by rewrite Hl.
    + by rewrite Hd.
  - by rewrite orb_false_r.
Qed.

Lemma substitute_tokens_spec cmd : ∀ d tmp,
  dl_inv d →
  dl_inv (foldl (substitute url title) (d, tmp) cmd).1 ∧
  fileLoaded (foldl (substitute url title) (d, tmp) cmd).1
  = fileLoaded d || existsb (λ s, strings_Contains s "$file") cmd.
Proof.
  induction cmd as [|s cmd IH]; intros d tmp Hd; simpl.
  - by rewrite orb_false_r.
  - destruct (substitute_spec d tmp s Hd) as [Hinv Hl].
    destruct (substitute url title (d, tmp) s) as [d1 tmp1] eqn:Hs. simpl in *.
    destruct (IH d1 tmp1 Hinv) as [Hinv' Hl']. split; [done|].
    by rewrite Hl', Hl, orb_assoc.
Qed.

Lemma runCommand_spec monitor com d j cmd :
  dl_inv d →
  dl_inv (runCommand monitor com url title d j cmd) ∧
  fileLoaded (runCommand monitor com url title d j cmd)
  = fileLoaded d || existsb (λ s, strings_Contains s "$file") cmd.
Proof.
  intros Hd. destruct cmd as [|s cmd].
  - unfold runCommand. simpl. by rewrite orb_false_r.
  - unfold runCommand.
    destruct (substitute_tokens_spec (s :: cmd) d [] Hd) as [Hinv Hl].
    by destruct (foldl (substitute url title) (d, []) (s :: cmd)) as [d1 tmp1].
Qed.

Lemma runCommands_spec monitor com cmds : ∀ d j,
  dl_inv d →
  dl_inv (runCommands monitor com url title d j cmds) ∧
  fileLoaded (runCommands monitor com url title d j cmds)
  = fileLoaded d || mentions_file cmds.
Proof.
  induction cmds as [|cmd cmds IH]; intros d j Hd; simpl.
  - by rewrite orb_false_r.
  - destruct (runCommand_spec monitor com d j cmd Hd) as [Hinv Hl].
    destruct (IH _ (S j) Hinv) as [Hinv' Hl']. split; [done|].
    by rewrite Hl', Hl, orb_assoc.
Qed.
End dispatcher.

(** C9. One dispatch calls [downloadAsset] once when some token of some
    command of the template contains "$file", whatever the number of such
    tokens and commands, and not at all when none does: at most once. *)
Theorem C9_download_at_most_once (R : Remote) (node : TreeNode) (context : nodeContext) :
  let d := (dispatchCommand node context).1 in
  downloads d =
    (if mentions_file (Commands (CustomOptions context))
     then [(getPlayableURL (EpID context), context_Title context)] else []) ∧
  length (downloads d) ≤ 1.
Proof.
  cbv zeta. unfold dispatchCommand. simpl.
  match goal with
  | |- context [runCommands ?mon ?com ?url ?title dispatch_start 0 ?cmds] =>
      destruct (runCommands_spec url title mon com cmds dispatch_start 0 eq_refl)
        as [Hinv Hl]
  end.
  rewrite Hinv, Hl. simpl.
  destruct (mentions_file (Commands (CustomOptions context))); simpl; split; (done || lia).
Qed.

Example dispatch_two_commands_one_download :
  let context :=
    {| EpID := "ep"; context_Title := "Race";
       CustomOptions :=
         {| command_Title := "download and play";
            Commands := [["ffmpeg"; "-i"; "$file"; "$file.mp4"]; ["mpv"; "$file"; "$url"]];
            Watchphrase := ""; CommandToWatch := 0 |} |} in
  let d := (@dispatchCommand sample_remote (NewTreeNode "download and play") context).1 in
  downloads d = [("https://stream/ep", "Race")] ∧
  started d = [["ffmpeg"; "-i"; "Race.m3u8"; "Race.m3u8.mp4"];
               ["mpv"; "Race.m3u8"; "https://stream/ep"]].
Proof. split; reflexivity. Qed.

(** ** The tree population engine *)

Lemma run_app_thread ex s1 s2 m :
  run ex (s1 ++ s2) m = go_bind (run ex s1 m) (run ex s2).
Proof. unfold run. apply go_foldl_app. Qed.

Lemma run_snoc ex sched t m m' :
  run ex (sched ++ [t]) m = Ret m' ↔
  ∃ m1, run ex sched m = Ret m1 ∧ thread_step ex m1 t = Ret m'.
Proof.
  rewrite run_app_thread. split.
  - intros (m1 & H1 & H2)%go_bind_Ret. exists m1. split; [done|].
    unfold run in H2. by rewrite go_foldl_singleton in H2.
  - intros (m1 & -> & H2). simpl. unfold run. by rewrite go_foldl_singleton.
Qed.

(** Induction over the reachable states of an expansion. *)
Lemma reachable_ind ex (n : TreeNode) (P : machine → Prop) :
  P (selected n) →
  (∀ m t m', P m → thread_step ex m t = Ret m' → P m') →
  ∀ sched m, run ex sched (selected n) = Ret m → P m.
Proof.
  intros Hinit Hstep sched.
  induction sched as [|t sched IH] using rev_ind; intros m Hrun.
  - by inversion Hrun.
  - apply run_snoc in Hrun as (m1 & Hm1 & Ht). eauto.
Qed.

(** *** The children attached do not depend on the schedule *)

Lemma agree_refl e : agree e e.
Proof. done. Qed.

Lemma agree_trans e1 e2 e3 : agree e1 e2 → agree e2 e3 → agree e1 e3.
Proof. unfold agree. intros (-> & -> & ->) (-> & -> & ->). done. Qed.

Lemma agree_sym e1 e2 : agree e1 e2 → agree e2 e1.
Proof. unfold agree. intros (-> & -> & ->). done. Qed.

Lemma loader_alone_snoc todo a e e' :
  loader_alone (todo ++ [a]) e = Ret e' ↔
  ∃ e1, loader_alone todo e = Ret e1 ∧ a e1 = Ret e'.
Proof.
  unfold loader_alone. rewrite go_foldl_app. split.
  - intros (e1 & H1 & H2)%go_bind_Ret. exists e1. split; [done|].
    by rewrite go_foldl_singleton in H2.
  - intros (e1 & -> & H2). simpl. by rewrite H2.
Qed.

Lemma run_cons ex t sched m :
  run ex (t :: sched) m = go_bind (thread_step ex m t) (run ex sched).
Proof. done. Qed.

Lemma loader_alone_cons a acts e :
  loader_alone (a :: acts) e = go_bind (a e) (loader_alone acts).
Proof. done. Qed.

Section schedule_independence.
Context (ex : expansion) (n : TreeNode) (acts : list action).
Context (Hload : load ex = Ret acts).
Context (Hacts : Forall respects acts).
Context (Hafter : ∀ e, agree e (after_blink ex e)).

Local Abbreviation e0 := (shared (selected n)).

Local Abbreviation progress := (loader_progress acts n).

Lemma blinker_step_agree m : agree (shared m) (shared (blinker_step ex m)).
Proof.
  unfold blinker_step. by destruct (bl m).
Qed.

Lemma blinker_step_ld m : ld (blinker_step ex m) = ld m.
Proof. unfold blinker_step. by destruct (bl m). Qed.

Lemma loader_progress_step m t m' :
  progress m → thread_step ex m t = Ret m' → progress m'.
Proof.
  unfold loader_progress. intros Hp Hstep. destruct t; simpl in Hstep.
  - unfold loader_step in Hstep. destruct (ld m) as [|[|a todo]] eqn:Hld.
    + rewrite Hload in Hstep. simpl in Hstep. inversion Hstep; subst m'. simpl.
      exists [], e0. done.
    + inversion Hstep; subst m'. by rewrite Hld.
    + apply go_bind_Ret in Hstep as (e' & Ha & Hret). inversion Hret; subst m'. simpl.
      destruct Hp as (ran & e1 & Hacts' & Hran & Hag).
      assert (respects a) as Hresp.
      { rewrite Forall_forall in Hacts. apply Hacts. rewrite Hacts'.
        apply elem_of_app. right. by left. }
      specialize (Hresp _ _ Hag). rewrite Ha in Hresp.
      destruct (a e1) as [e1'|p] eqn:Ha1; [|done].
      exists (ran ++ [a]), e1'. split; [by rewrite <- app_assoc|]. split; [|done].
      apply loader_alone_snoc. eauto.
  - inversion Hstep; subst m'. rewrite blinker_step_ld.
    pose proof (blinker_step_agree m) as Hag.
    destruct (ld m) as [|todo].
    + eapply agree_trans; [apply agree_sym, Hag|done].
    + destruct Hp as (ran & e1 & ? & ? & ?). exists ran, e1. split; [done|]. split; [done|].
      eapply agree_trans; [apply agree_sym, Hag|done].
Qed.

Lemma loader_progress_reachable sched m :
  run ex sched (selected n) = Ret m → progress m.
Proof.
  apply reachable_ind.
  - unfold loader_progress. simpl. apply agree_refl.
  - apply loader_progress_step.
Qed.

(** When both goroutines are through, the children of the node are those
    that the loader attaches on its own. *)
Lemma finished_children sched m :
  run ex sched (selected n) = Ret m → finished m →
  ∃ e1, loader_alone acts e0 = Ret e1 ∧ children (node (shared m)) = children (node e1).
Proof.
  intros Hrun [Hld _]. pose proof (loader_progress_reachable _ _ Hrun) as Hp.
  unfold loader_progress in Hp. rewrite Hld in Hp.
  destruct Hp as (ran & e1 & Hacts' & Hran & Hag & _).
  rewrite app_nil_r in Hacts'. subst ran. eauto.
Qed.
End schedule_independence.

(** *** The statements of the four loaders read and write the children and
    the flags only *)

Lemma respects_with_node (f : TreeNode → TreeNode) :
  (∀ n n', children n = children n' → children (f n) = children (f n')) →
  respects (λ e, Ret (with_node f e)).
Proof. intros Hf e e' (Hc & Hh & Hd). unfold agree. simpl. auto. Qed.

Lemma respects_AddChild c : respects (λ e, Ret (with_node (AddChild c) e)).
Proof. apply respects_with_node. intros n n' Hc. simpl. by rewrite Hc. Qed.

Lemma respects_set_done : respects (λ e, Ret (set_done e)).
Proof. intros e e' (Hc & Hh & Hd). unfold agree. simpl. auto. Qed.

Lemma respects_Draw : respects (λ e, Ret (Draw e)).
Proof. intros e e' (Hc & Hh & Hd). unfold agree. simpl. auto. Qed.

Lemma respects_attachSession session : respects (attachSession session).
Proof.
  intros e e' (Hc & Hh & Hd). unfold attachSession.
  destruct session as [s|]; [|done].
  destruct (bool_decide (0 < length (children s))); [|done].
  unfold agree. simpl. by rewrite Hc.
Qed.

Lemma respects_attachDated ep : respects (attachDated ep).
Proof.
  intros e e' (Hc & Hh & Hd). unfold attachDated, attachEpisode.
  destruct (episode_year ep) as [[year|]|p]; simpl; [|done|done].
  rewrite <- Hc.
  destruct (find_father year (children (node e))) as [[i|]|p]; simpl; [| |done].
  - unfold agree. simpl. by rewrite Hc.
  - unfold agree. simpl. by rewrite Hc.
Qed.

Lemma Forall_fmap_intro {A B} (P : B → Prop) (f : A → B) (l : list A) :
  (∀ x, P (f x)) → Forall P (f <$> l).
Proof. intros Hf. apply Forall_fmap, Forall_forall. intros x _. apply Hf. Qed.

Lemma expansion_respects `{SliceSorter} `{Remote} (x : expandable) acts :
  load (expansion_of x) = Ret acts → Forall respects acts.
Proof.
  destruct x as [episodes|event|season|]; simpl; intros Hload.
  - apply go_bind_Ret in Hload as (sorted & _ & Hret). inversion Hret; subst acts.
    repeat apply Forall_app_2.
    + apply Forall_fmap_intro, respects_attachDated.
    + apply Forall_fmap_intro. intros ep. apply respects_AddChild.
    + apply Forall_cons_2; [apply respects_set_done|].
      apply Forall_cons_2; [apply respects_Draw|]. constructor.
  - apply go_bind_Ret in Hload as (sessions & _ & Hret). inversion Hret; subst acts.
    apply Forall_app_2.
    + apply Forall_fmap_intro, respects_attachSession.
    + apply Forall_cons_2; [apply respects_set_done|]. constructor.
  - inversion Hload; subst acts. apply Forall_app_2.
    + apply Forall_fmap_intro. intros ev. apply respects_AddChild.
    + apply Forall_cons_2; [apply respects_set_done|]. constructor.
  - inversion Hload; subst acts. apply Forall_app_2.
    + apply Forall_fmap_intro. intros s. apply respects_AddChild.
    + apply Forall_cons_2; [by apply respects_with_node|].
      apply Forall_cons_2; [by apply respects_with_node|].
      apply Forall_cons_2; [apply respects_set_done|]. constructor.
Qed.

Lemma expansion_after_agree `{SliceSorter} `{Remote} (x : expandable) e :
  agree e (after_blink (expansion_of x) e).
Proof.
  destruct x; simpl; try done. by destruct (hasSessions e).
Qed.

(** Whatever the schedule, the children of an expanded node are those that
    its loader attaches on its own. *)
Lemma expansion_children `{SliceSorter} `{Remote} (x : expandable) n acts sched m :
  load (expansion_of x) = Ret acts →
  run (expansion_of x) sched (selected n) = Ret m → finished m →
  ∃ e1, loader_alone acts (shared (selected n)) = Ret e1 ∧
        children (node (shared m)) = children (node e1).
Proof.
  intros Hload Hrun Hfin.
  eapply finished_children; eauto.
  - by eapply expansion_respects.
  - apply expansion_after_agree.
Qed.

(** *** The loader of a category is [addEpisodes] *)

Lemma skipped_nodes_cons ep l :
  skipped_nodes (ep :: l) = skipped_nodes [ep] ++ skipped_nodes l.
Proof. unfold skipped_nodes. simpl. by destruct (episode_year ep) as [[?|]|?]. Qed.

Lemma attachEpisode_skipped t sk ep :
  attachEpisode (t, sk) ep
  = go_bind (attachEpisode (t, []) ep) (λ '(t', _), Ret (t', sk ++ skipped_nodes [ep])).
Proof.
  unfold attachEpisode, skipped_nodes. simpl.
  destruct (episode_year ep) as [[year|]|p]; simpl; [|done|done].
  destruct (find_father year (children t)) as [[i|]|p]; simpl; by rewrite ?app_nil_r.
Qed.

Lemma loader_alone_app acts1 acts2 e :
  loader_alone (acts1 ++ acts2) e = go_bind (loader_alone acts1 e) (loader_alone acts2).
Proof. apply go_foldl_app. Qed.

Lemma category_loop l : ∀ e sk,
  go_foldl attachEpisode (node e, sk) l
  = go_bind (loader_alone (attachDated <$> l) e)
      (λ e', Ret (node e', sk ++ skipped_nodes l)).
Proof.
  induction l as [|ep l IH]; intros e sk.
  - simpl. by rewrite app_nil_r.
  - rewrite go_foldl_cons, fmap_cons, loader_alone_cons, attachEpisode_skipped.
    unfold attachDated at 1.
    destruct (attachEpisode (node e, []) ep) as [[t' sk']|p]; [|done].
    cbn [go_bind].
    rewrite (IH (with_node (λ _, t') e)). rewrite (skipped_nodes_cons ep l).
    destruct (loader_alone (attachDated <$> l) (with_node (λ _ : TreeNode, t') e));
      cbn [go_bind]; [|done].
    by rewrite app_assoc.
Qed.

Lemma loader_alone_skipped sk : ∀ e,
  loader_alone ((λ ep e, Ret (with_node (AddChild (Some ep)) e)) <$> sk) e
  = Ret (with_node (λ t, foldl (λ t ep, AddChild (Some ep) t) t sk) e).
Proof.
  induction sk as [|ep sk IH]; intros e.
  - by destruct e.
  - rewrite fmap_cons, loader_alone_cons. cbn [go_bind]. by rewrite IH.
Qed.

(** Scheduled alone, the loader of a category leaves the node that
    [addEpisodes] computes, or panics as it does. *)
Lemma category_loader_addEpisodes `{SliceSorter} target episodes :
  go_bind (load (expandCategory episodes))
    (λ acts, go_bind (loader_alone acts (shared (selected target)))
               (λ e, Ret (node e)))
  = addEpisodes target episodes.
Proof.
  unfold addEpisodes, expandCategory. simpl load.
  destruct (sort_Slice episode_less episodes) as [sorted|p]; [|done]. cbn [go_bind].
  rewrite !loader_alone_app.
  change target with (node (shared (selected target))) at 2.
  rewrite category_loop.
  destruct (loader_alone (attachDated <$> sorted) (shared (selected target))) as [e1|p];
    [|done].
  unfold go_bind at 2 4. rewrite loader_alone_app, loader_alone_skipped. done.
Qed.

(** *** What the event branch and the season branch attach *)

Lemma loader_alone_sessions sessions : ∀ e,
  ∃ e', loader_alone (attachSession <$> sessions) e = Ret e' ∧
        children (node e') =
          children (node e) ++ filter (λ s, valid_session s = true) sessions.
Proof.
  induction sessions as [|s sessions IH]; intros e.
  - exists e. by rewrite filter_nil, app_nil_r.
  - rewrite fmap_cons, loader_alone_cons, filter_cons.
    destruct s as [s|]; simpl.
    + destruct (bool_decide (0 < length (children s))) eqn:Hv; simpl.
      * destruct (IH (with_node (AddChild (Some s)) (set_hasSessions e))) as (e' & -> & Hc).
        exists e'. split; [done|]. rewrite Hc. simpl. by rewrite <- app_assoc.
      * destruct (IH e) as (e' & -> & Hc). by exists e'.
    + destruct (IH e) as (e' & -> & Hc). by exists e'.
Qed.

Lemma loader_alone_events (events : list (option TreeNode)) : ∀ e,
  ∃ e', loader_alone ((λ event e, Ret (with_node (AddChild event) e)) <$> events) e = Ret e' ∧
        children (node e') = children (node e) ++ events.
Proof.
  induction events as [|ev events IH]; intros e.
  - exists e. by rewrite app_nil_r.
  - rewrite fmap_cons, loader_alone_cons. cbn [go_bind].
    destruct (IH (with_node (AddChild ev) e)) as (e' & -> & Hc).
    exists e'. split; [done|]. rewrite Hc. simpl. by rewrite <- app_assoc.
Qed.

(** The event branch attaches the session slots that are not nil and have a
    perspective, and no other, whatever the schedule. *)
Lemma event_children `{SliceSorter} `{Remote} event n sessions sched m :
  getSessionNodes event = Ret sessions →
  run (expandEvent event) sched (selected n) = Ret m → finished m →
  children (node (shared m))
  = children n ++ filter (λ s, valid_session s = true) sessions.
Proof.
  intros Hs Hrun Hfin.
  destruct (expansion_children (Event event) n
              ((attachSession <$> sessions) ++ [λ e, Ret (set_done e)]) sched m)
    as (e1 & He1 & ->); [by simpl; rewrite Hs|done|done|].
  rewrite loader_alone_app in He1.
  destruct (loader_alone_sessions sessions (shared (selected n))) as (e' & He' & Hc).
  rewrite He' in He1. simpl in He1. injection He1 as He1. subst e1. simpl.
  by rewrite Hc.
Qed.

(** The season branch attaches every slot of [getEventNodes], the nil slots
    of the events without sessions included, whatever the schedule. *)
Lemma season_children `{Remote} (S : SliceSorter) season n sched m :
  run (expandSeason season) sched (selected n) = Ret m → finished m →
  children (node (shared m)) = children n ++ getEventNodes season.
Proof.
  intros Hrun Hfin.
  destruct (expansion_children (Season season) n _ sched m eq_refl Hrun Hfin)
    as (e1 & He1 & ->).
  rewrite loader_alone_app in He1.
  destruct (loader_alone_events (getEventNodes season) (shared (selected n)))
    as (e' & He' & Hc).
  rewrite He' in He1. simpl in He1. injection He1 as He1. subst e1. simpl.
  by rewrite Hc.
Qed.

(** C6 (the code fails the claim). A season whose second event has no saved
    session: [getEventNodes] leaves the slot of that event nil and the
    season branch attaches every slot, so the season node gets a nil child,
    under the schedule shown and under every other. The event branch does
    check [session != nil]. *)
Theorem C6_season_attaches_nil_child :
  let season := {| season_Name := "2019";
                   EventoccurrenceUrls := ["/api/event/monaco"; "/api/event/cancelled"] |} in
  let ex := @expandSeason sample_remote season in
  @eventNode sample_remote "/api/event/cancelled" = None ∧
  (∃ m, run ex (replicate 4 Loader ++ replicate 5 Blinker) (selected (NewTreeNode "2019"))
        = Ret m ∧ finished m ∧
        children (node (shared m)) = [@eventNode sample_remote "/api/event/monaco"; None]) ∧
  (∀ sched m, run ex sched (selected (NewTreeNode "2019")) = Ret m → finished m →
        children (node (shared m)) = [@eventNode sample_remote "/api/event/monaco"; None]).
Proof.
  intros season ex. split; [reflexivity|]. split.
  - eexists. split; [reflexivity|]. split; [split; reflexivity|reflexivity].
  - intros sched m Hrun Hfin.
    destruct (expansion_children (H := go_sort) (H0 := sample_remote) (Season season)
                (NewTreeNode "2019") _ sched m eq_refl Hrun Hfin) as (e1 & He1 & ->).
    vm_compute in He1. by inversion He1.
Qed.

(** *** Redraws during the attachment *)















(** *** An event without content *)

Lemma attachSession_invalid session :
  valid_session session = false → attaches_nothing (attachSession session).
Proof.
  intros Hv e. exists e. unfold attachSession.
  destruct session as [s|]; simpl in Hv; [rewrite Hv|]; done.
Qed.

Lemma set_done_attaches_nothing : attaches_nothing (λ e, Ret (set_done e)).
Proof. intros e. exists (set_done e). done. Qed.

(** The loader, scheduled alone, runs its statements to the end. *)
Lemma run_loader ex (b : blinker) acts : ∀ e e',
  loader_alone acts e = Ret e' →
  run ex (replicate (length acts) Loader) {| shared := e; ld := Attaching acts; bl := b |}
  = Ret {| shared := e'; ld := Attaching []; bl := b |}.
Proof.
  induction acts as [|a acts IH]; intros e e' Hrun.
  - by inversion Hrun.
  - rewrite loader_alone_cons in Hrun.
    apply go_bind_Ret in Hrun as (e1 & Ha & Hrest).
    change (replicate (length (a :: acts)) Loader)
      with (Loader :: replicate (length acts) Loader).
    rewrite run_cons. unfold thread_step, loader_step. simpl ld. simpl shared. cbv iota.
    rewrite Ha. simpl go_bind. by apply IH.
Qed.

Lemma loader_alone_nothing acts : ∀ e,
  Forall attaches_nothing acts →
  ∃ e', loader_alone acts e = Ret e' ∧ node e' = node e ∧
        hasSessions e' = hasSessions e ∧ (done e = true → done e' = true).
Proof.
  induction acts as [|a acts IH]; intros e Hall.
  - by exists e.
  - apply Forall_cons in Hall as [Ha Hall].
    destruct (Ha e) as (e1 & He1 & Hn1 & Hh1 & Hd1).
    destruct (IH e1 Hall) as (e' & He' & Hn' & Hh' & Hd').
    exists e'. rewrite loader_alone_cons, He1. simpl go_bind.
    split; [done|]. split; [congruence|]. split; [congruence|]. auto.
Qed.

Section event_without_content.
Context `{SliceSorter} `{Remote} (event : eventStruct) (n : TreeNode).
Context (sessions : list (option TreeNode)).
Context (Hsessions : getSessionNodes event = Ret sessions).
Context (Hinvalid : Forall (λ s, valid_session s = false) sessions).

Lemma event_statements_attach_nothing :
  Forall attaches_nothing ((attachSession <$> sessions) ++ [λ e, Ret (set_done e)]).
Proof.
  apply Forall_app_2.
  - apply Forall_fmap. eapply Forall_impl; [exact Hinvalid|].
    intros s Hs. by apply attachSession_invalid.
  - apply Forall_cons_2; [apply set_done_attaches_nothing|constructor].
Qed.

Lemma no_content_inv_step m t m' :
  no_content_inv n m → thread_step (expandEvent event) m t = Ret m' →
  no_content_inv n m'.
Proof.
  intros [Hc Hh Ht Hb] Hstep. destruct t; simpl in Hstep.
  - unfold loader_step in Hstep. destruct (ld m) as [|[|a todo]] eqn:Hld.
    + simpl in Hstep. rewrite Hsessions in Hstep. simpl in Hstep.
      inversion Hstep; subst m'. split; simpl; [done|done| |done].
      intros todo Heq. inversion Heq; subst todo.
      apply event_statements_attach_nothing.
    + inversion Hstep; subst m'. split; auto.
      intros todo Heq. rewrite Hld in Heq. auto.
    + pose proof (Ht _ eq_refl) as Hall. apply Forall_cons in Hall as [Ha Hall].
      destruct (Ha (shared m)) as (e' & He' & Hn' & Hh' & _).
      rewrite He' in Hstep. simpl in Hstep. inversion Hstep; subst m'.
      split; simpl; rewrite ?Hn', ?Hh'; [done|done| |done].
      intros todo' Heq. by inversion Heq; subst todo'.
  - inversion Hstep; subst m'. unfold blinker_step.
    destruct (bl m) eqn:Hbl; split; simpl; rewrite ?Hbl; try done;
      try (by destruct Hb);
      try (intros todo Heq; by apply Ht).
    + destruct Hb as [-> Hs]. by destruct (done (shared m)).
    + rewrite Hh. simpl. done.
    + rewrite Hh. simpl. done.
    + rewrite Hh. simpl. destruct Hb as [-> _]. done.
Qed.

Lemma no_content_inv_reachable sched m :
  run (expandEvent event) sched (selected n) = Ret m → no_content_inv n m.
Proof.
  apply reachable_ind.
  - split; simpl; try done.
  - apply no_content_inv_step.
Qed.

(** Under a fair scheduler both goroutines end; the schedule that lets the
    loader run first and the blinking goroutine after it is one such schedule. *)
Lemma event_without_content_finishes :
  ∃ m, run (expandEvent event)
         (replicate (S (S (length sessions))) Loader ++ replicate 5 Blinker)
         (selected n) = Ret m ∧ finished m.
Proof.
  set (acts := (attachSession <$> sessions) ++ [λ e, Ret (set_done e)] : list action).
  destruct (loader_alone_nothing (attachSession <$> sessions) (shared (selected n)))
    as (e1 & He1 & Hn1 & Hh1 & _).
  { apply Forall_fmap. eapply Forall_impl; [exact Hinvalid|].
    intros s Hs. by apply attachSession_invalid. }
  assert (loader_alone acts (shared (selected n)) = Ret (set_done e1)) as Hacts.
  { apply loader_alone_snoc. eauto. }
  assert (length acts = S (length sessions)) as Hlen.
  { unfold acts. rewrite length_app, length_fmap. simpl. lia. }
  eexists. split.
  - rewrite run_app_thread.
    change (replicate (S (S (length sessions))) Loader)
      with (Loader :: replicate (S (length sessions)) Loader).
    rewrite run_cons. unfold thread_step at 1. unfold loader_step. simpl ld. cbv iota.
    simpl load. rewrite Hsessions. cbn [go_bind].
    fold acts. rewrite <- Hlen.
    change (bl (selected n)) with BlinkStart.
    rewrite (run_loader _ BlinkStart acts _ _ Hacts). cbn [go_bind].
    reflexivity.
  - split; reflexivity.
Qed.
End event_without_content.

(** C7 (the claim fails as stated). A season without events yields no child,
    and its node stays selectable and unflagged: only the event branch marks
    a node without content. *)
Lemma C7_season_without_events_not_flagged :
  ¬ (∀ (S : SliceSorter) (R : Remote) (x : expandable) (n : TreeNode)
       (sched : list thread) (m : machine),
       run (expansion_of x) sched (selected n) = Ret m → finished m →
       children (node (shared m)) = [] →
       selectable (node (shared m)) = false ∧
       node_color (node (shared m)) = ColorRed ∧
       text (node (shared m)) = text n +:+ " - NO CONTENT AVAILABLE").
Proof.
  intros Hclaim.
  destruct (Hclaim go_sort sample_remote
              (Season {| season_Name := "1950"; EventoccurrenceUrls := [] |})
              (NewTreeNode "1950") (replicate 2 Loader ++ replicate 5 Blinker) _ eq_refl)
    as (Hsel & _); [by split|done|].
  discriminate Hsel.
Qed.

(** C7, amended. For every expansion of an event node that yields no valid
    child (every session slot is nil or has no perspective), under every
    interleaving: no child is ever attached to the node, and when both
    goroutines are through the node is not selectable, is red and carries the
    suffix " - NO CONTENT AVAILABLE"; and the goroutines do get through. *)
Theorem C7_event_without_content_flagged
    (S : SliceSorter) (R : Remote) (event : eventStruct) (n : TreeNode)
    (sessions : list (option TreeNode)) :
  getSessionNodes event = Ret sessions →
  Forall (λ s, valid_session s = false) sessions →
  (∃ sched m, run (expandEvent event) sched (selected n) = Ret m ∧ finished m) ∧
  (∀ sched m, run (expandEvent event) sched (selected n) = Ret m →
     children (node (shared m)) = children n ∧
     (finished m →
        selectable (node (shared m)) = false ∧
        node_color (node (shared m)) = ColorRed ∧
        text (node (shared m)) = text n +:+ " - NO CONTENT AVAILABLE")).
Proof.
  intros Hsessions Hinvalid. split.
  - destruct (event_without_content_finishes event n sessions Hsessions Hinvalid)
      as (m & Hrun & Hfin). eauto.
  - intros sched m Hrun.
    destruct (no_content_inv_reachable event n sessions Hsessions Hinvalid sched m Hrun)
      as [Hc _ _ Hb].
    split; [done|]. intros [_ Hbl]. rewrite Hbl in Hb. tauto.
Qed.

Lemma C7_event_without_content_flagged_witness :
  let event := @getEvent sample_remote "/api/event/next" in
  let n := NewTreeNode "Next Grand Prix" in
  @getSessionNodes go_sort sample_remote event = Ret [None; None] ∧
  Forall (λ s, valid_session s = false) [None; None] ∧
  (∃ sched m, run (@expandEvent go_sort sample_remote event) sched (selected n) = Ret m ∧
              finished m) ∧
  (∀ sched m, run (@expandEvent go_sort sample_remote event) sched (selected n) = Ret m →
     children (node (shared m)) = children n ∧
     (finished m →
        selectable (node (shared m)) = false ∧
        node_color (node (shared m)) = ColorRed ∧
        text (node (shared m)) = text n +:+ " - NO CONTENT AVAILABLE")).
Proof.
  intros event n.
  assert (@getSessionNodes go_sort sample_remote event = Ret [None; None]) as Hs
    by reflexivity.
  assert (Forall (λ s, valid_session s = false) [None; None]) as Hv
    by (repeat constructor).
  split; [exact Hs|]. split; [exact Hv|].
  exact (C7_event_without_content_flagged go_sort sample_remote event n [None; None] Hs Hv).
Defined.

Example event_without_content_example :
  ∃ m, run (@expandEvent go_sort sample_remote (@getEvent sample_remote "/api/event/next"))
         [Blinker; Loader; Blinker; Blinker; Loader; Blinker; Loader; Loader;
          Blinker; Blinker; Blinker; Blinker; Blinker; Blinker; Blinker]
         (selected (NewTreeNode "Next Grand Prix")) = Ret m ∧
       finished m ∧
       node (shared m) =
         {| text := "Next Grand Prix - NO CONTENT AVAILABLE"; node_reference := RefNil;
            node_color := ColorRed; selectable := false; expanded := true;
            children := [] |}.
Proof. eexists. split; [reflexivity|]. split; [split; reflexivity|reflexivity]. Qed.

(** * Further properties of the code *)

(** ** [getYearAndRace]: error and edge behaviour *)

Lemma Atoi_two_bytes_error a b v e :
  Atoi (String a (String b "")) = (v, Some e) → v = 0%Z.
Proof.
  unfold Atoi. case_bool_decide as Hsign; simpl.
  - destruct (is_digit b) eqn:Hb; [|by intros [= <- _]].
    apply is_digit_val in Hb.
    destruct (bool_decide (a = "-"%char)); rewrite int_range_small by lia; done.
  - destruct (is_digit a) eqn:Ha; [|by intros [= <- _]].
    destruct (is_digit b) eqn:Hb; [|by intros [= <- _]].
    apply is_digit_val in Ha, Hb.
    destruct (bool_decide (a = "-"%char)); rewrite int_range_small by lia; done.
Qed.

(** X1. The guarded [getYearAndRace] returns on every input, and its error
    is nil exactly when the input has at least four bytes of which
    [strconv.Atoi] accepts the first four.  A shorter input gives the error
    "not long enough", any other rejected input the error "not a valid
    YearRaceID", and with an error both strings are empty. *)
Theorem X1_guarded_getYearAndRace_errors (input : string) :
  ∃ year race err,
    Util.getYearAndRace input = Ret (year, race, err) ∧
    (err = None ↔ parses input) ∧
    (String.length input < 4 → err = Some (errors_New "not long enough")) ∧
    (4 ≤ String.length input → ¬ parses input →
       err = Some (errors_New "not a valid YearRaceID")) ∧
    (err ≠ None → year = "" ∧ race = "").
Proof.
  unfold Util.getYearAndRace, parses, token4.
  destruct (decide (String.length input < 4)) as [Hshort|Hlong].
  - eexists _, _, _. split; [done|]. split; [|split; [done|split; [lia|done]]].
    split; [done|]. intros [? _]. lia.
  - rewrite !go_slice_Ret by lia. simpl.
    destruct (Atoi (String.substring 0 4 input)) as [v [e|]] eqn:Hv; simpl.
    + eexists _, _, _. split; [done|]. split; [|split; [lia|done]].
      split; [done|]. by intros [_ ?].
    + destruct (_ || _).
      * eexists _, _, _. split; [done|]. split; [|split; [lia|split; [|done]]].
        -- split; [|done]. intros _. split; [lia|done].
        -- intros _ Hnp. exfalso. apply Hnp. split; [lia|done].
      * destruct (Atoi (String.substring 0 2 input)) as [n err2].
        eexists _, _, _. split; [done|]. split; [|split; [lia|split; [|done]]].
        -- split; [|done]. intros _. split; [lia|done].
        -- intros _ Hnp. exfalso. apply Hnp. split; [lia|done].
Qed.

(** X2. The unguarded [getYearAndRace] of main.go panics on every input of
    fewer than four bytes and returns on every other.  The year it returns
    is the two leading bytes behind "20" or "19", the race number is bytes
    3-4; when [strconv.Atoi] rejects the two leading bytes their value counts
    as 0 and the century is "20". *)
Theorem X2_unguarded_getYearAndRace (input : string) :
  (String.length input < 4 → getYearAndRace input = Panic SliceBounds) ∧
  (4 ≤ String.length input →
     ∃ century,
       getYearAndRace input
       = Ret (century +:+ String.substring 0 2 input, String.substring 2 2 input) ∧
       (century = "20" ∨ century = "19") ∧
       ((Atoi (String.substring 0 2 input)).2 ≠ None → century = "20")).
Proof.
  split.
  - intros Hshort. unfold getYearAndRace.
    destruct (decide (2 ≤ String.length input)) as [H2|H2].
    + rewrite go_slice_Ret by lia. simpl.
      destruct (Atoi _) as [? ?]. by rewrite go_slice_Panic by lia.
    + by rewrite go_slice_Panic by lia.
  - intros Hlong. unfold getYearAndRace. rewrite !go_slice_Ret by lia. simpl.
    destruct input as [|a [|b rest]]; simpl in Hlong; try lia.
    assert (String.substring 0 2 (String a (String b rest)) = String a (String b ""))
      as -> by (simpl; by rewrite substring_0_0).
    destruct (Atoi (String a (String b ""))) as [v err] eqn:Hv.
    destruct (v <? 30)%Z eqn:Hlt.
    + exists "20". split; [done|]. split; [by left|done].
    + exists "19". split; [done|]. split; [by right|].
      simpl. intros Herr. destruct err as [e|]; [|done].
      apply Atoi_two_bytes_error in Hv. subst v. done.
Qed.

(** ** The episode organizer on every list *)

Lemma addEpisodes_returns_long `{SliceSorter} target episodes :
  returns (addEpisodes target episodes) →
  Forall (λ ep, 4 ≤ String.length (DataSourceID ep)) episodes.
Proof.
  intros Hret. apply Forall_forall. intros ep Hin.
  destruct (decide (4 ≤ String.length (DataSourceID ep))) as [|Hshort]; [done|].
  exfalso. apply (addEpisodes_short_id_panics target episodes ep); [done|lia|done].
Qed.

(** X3. On a node without children, [addEpisodes] returns exactly when
    every source identifier of the list has at least four bytes, whatever the
    conforming sort and the arrival order of the episodes: otherwise the
    process panics on [DataSourceID[:4]]. *)
Theorem X3_addEpisodes_returns_iff_long
    (S : SliceSorter) (target : TreeNode) (episodes : list episodeStruct) :
  children target = [] →
  (returns (addEpisodes target episodes) ↔
   Forall (λ ep, 4 ≤ String.length (DataSourceID ep)) episodes).
Proof.
  intros Hc. split; [apply addEpisodes_returns_long|].
  intros Hlong.
  destruct (addEpisodes_organizes target episodes Hc Hlong) as (? & t & _ & _ & Ht & _).
  by exists t.
Qed.

Lemma X3_addEpisodes_returns_iff_long_witness :
  children (NewTreeNode "Category") = [] ∧
  (returns (addEpisodes (NewTreeNode "Category")
              [episode "0501_R01" "Race"; episode "clip" "Trailer"]) ↔
   Forall (λ ep, 4 ≤ String.length (DataSourceID ep))
     [episode "0501_R01" "Race"; episode "clip" "Trailer"]).
Proof.
  split; [reflexivity|].
  apply (X3_addEpisodes_returns_iff_long go_sort (NewTreeNode "Category")
           [episode "0501_R01" "Race"; episode "clip" "Trailer"]).
  reflexivity.
Defined.








(** X5. When [addEpisodes] returns on a node without children, no two year
    buckets carry the same label, no bucket is empty, a bucket holds exactly
    the episodes of the category whose year (lines 662-672) is its label, and
    the residual list holds exactly the episodes whose identifier does not
    parse. *)
Theorem X5_addEpisodes_groups_by_year
    (S : SliceSorter) (target target' : TreeNode) (episodes : list episodeStruct) :
  children target = [] →
  addEpisodes target episodes = Ret target' →
  NoDup (buckets target').*1 ∧
  (∀ year es, (year, es) ∈ buckets target' →
     es ≠ [] ∧ ∀ ep, ep ∈ es ↔ ep ∈ episodes ∧ episode_year ep = Ret (Some year)) ∧
  (∀ ep, ep ∈ residual target' ↔ ep ∈ episodes ∧ ¬ parses (DataSourceID ep)).
Proof.
  intros Hc Hrun.
  assert (Forall (λ ep, 4 ≤ String.length (DataSourceID ep)) episodes) as Hlong
    by (apply (addEpisodes_returns_long target); by exists target').
  destruct (addEpisodes_organizes target episodes Hc Hlong)
    as (sorted & t & Hsorted & Hperm & Hrun' & Hres & Hg).
  rewrite Hrun in Hrun'. injection Hrun' as <-.
  split; [apply (grouped_keys _ _ Hg)|]. split.
  - intros year es Hin. destruct (grouped_bucket _ _ Hg year es Hin) as [-> Hne].
    split; [done|]. intros ep. rewrite list_elem_of_filter, Hperm.
    rewrite Forall_forall in Hlong. split.
    + intros [Hy Hep]. split; [done|]. rewrite episode_year_long by auto. by rewrite Hy.
    + intros [Hep Hy]. split; [|done]. rewrite episode_year_long in Hy by auto.
      by injection Hy.
  - by apply (addEpisodes_residual target episodes).
Qed.

Lemma X5_addEpisodes_groups_by_year_witness :
  let episodes := [episode "0503_R03" "a"; episode "abcd" "b"; episode "9901_R01" "c"] in
  ∃ target',
    children (NewTreeNode "Category") = [] ∧
    addEpisodes (NewTreeNode "Category") episodes = Ret target' ∧
    NoDup (buckets target').*1 ∧
    (∀ year es, (year, es) ∈ buckets target' →
       es ≠ [] ∧ ∀ ep, ep ∈ es ↔ ep ∈ episodes ∧ episode_year ep = Ret (Some year)) ∧
    (∀ ep, ep ∈ residual target' ↔ ep ∈ episodes ∧ ¬ parses (DataSourceID ep)).
Proof.
  intros episodes. eexists.
  split; [reflexivity|]. split; [reflexivity|].
  apply (X5_addEpisodes_groups_by_year go_sort (NewTreeNode "Category") _ episodes);
    reflexivity.
Defined.

Lemma StronglySorted_impl_elem {A} (R R' : relation A) (l : list A) :
  (∀ a b, a ∈ l → b ∈ l → R a b → R' a b) →
  StronglySorted R l → StronglySorted R' l.
Proof.
  intros Himp Hs. induction Hs as [|x l Hl IH Hx]; [constructor|].
  constructor.
  - apply IH. intros a b Ha Hb. apply Himp; by right.
  - rewrite Forall_forall in Hx |- *. intros y Hy.
    apply Himp; [by left|by right|by apply Hx].
Qed.

(** X6. When every identifier of the category parses, every year bucket is
    in the order of the comparator of [addEpisodes]: no episode of a bucket
    is followed by one that the comparator puts before it. *)
Theorem X6_addEpisodes_buckets_in_order
    (S : SliceSorter) (target target' : TreeNode) (episodes : list episodeStruct) :
  children target = [] →
  Forall (λ ep, parses (DataSourceID ep)) episodes →
  addEpisodes target episodes = Ret target' →
  ∀ year es, (year, es) ∈ buckets target' →
    StronglySorted (λ a b, episode_less b a = Ret false) es.
Proof.
  intros Hc Hparse Hrun year es Hin.
  pose proof (addEpisodes_buckets_sorted target episodes target' Hc Hparse Hrun year es Hin)
    as Hsorted.
  assert (Forall (λ ep, 4 ≤ String.length (DataSourceID ep)) episodes) as Hlong.
  { eapply Forall_impl; [exact Hparse|]. by intros ep [? _]. }
  destruct (addEpisodes_organizes target episodes Hc Hlong)
    as (sorted & t & _ & Hperm & Hrun' & _ & Hg).
  rewrite Hrun in Hrun'. injection Hrun' as <-.
  destruct (grouped_bucket _ _ Hg year es Hin) as [Hes _].
  assert (∀ ep, ep ∈ es → parses (DataSourceID ep)) as Hp.
  { intros ep Hep. rewrite Hes in Hep. apply list_elem_of_filter in Hep as [_ Hep].
    rewrite Hperm in Hep. rewrite Forall_forall in Hparse. auto. }
  eapply StronglySorted_impl_elem; [|exact Hsorted].
  intros a b Ha Hb Hab. unfold not_after in Hab.
  rewrite episode_less_parses by auto. by rewrite Hab.
Qed.

Lemma X6_addEpisodes_buckets_in_order_witness :
  let episodes := [episode "0503_R03" "a"; episode "0501_R01" "b"; episode "0502_R02" "c"] in
  ∃ target',
    children (NewTreeNode "Category") = [] ∧
    Forall (λ ep, parses (DataSourceID ep)) episodes ∧
    addEpisodes (NewTreeNode "Category") episodes = Ret target' ∧
    buckets target'
    = [("2005", [episode "0501_R01" "b"; episode "0502_R02" "c"; episode "0503_R03" "a"])] ∧
    StronglySorted (λ a b, episode_less b a = Ret false)
      [episode "0501_R01" "b"; episode "0502_R02" "c"; episode "0503_R03" "a"].
Proof.
  intros episodes.
  assert (Forall (λ ep, parses (DataSourceID ep)) episodes) as Hparse.
  { repeat constructor; vm_compute; lia. }
  eexists.
  split; [reflexivity|]. split; [exact Hparse|]. split; [reflexivity|].
  split; [reflexivity|].
  apply (X6_addEpisodes_buckets_in_order go_sort (NewTreeNode "Category") _ episodes
           eq_refl Hparse eq_refl "2005").
  by left.
Defined.

Lemma episode_less_undated ei ej :
  4 ≤ String.length (DataSourceID ei) → 4 ≤ String.length (DataSourceID ej) →
  ¬ parses (DataSourceID ei) →
  episode_less ei ej = Ret (string_lt (Title ei) (Title ej)).
Proof.
  intros Hi Hj Hnp. unfold episode_less. rewrite !go_slice_Ret by lia. simpl.
  destruct (Atoi (String.substring 0 4 (DataSourceID ei))) as [vi [ei'|]] eqn:Hvi.
  - clear Hvi. destruct (Atoi _) as [vj ej']. by rewrite bool_decide_eq_true_2 by (by left).
  - exfalso. apply Hnp. split; [done|]. unfold token4. by rewrite Hvi.
Qed.

(** X7. When no identifier of the category parses (and all have four
    bytes), [addEpisodes] makes no year bucket, and the residual list holds
    all the episodes, sorted by title. *)
Theorem X7_addEpisodes_undated_by_title
    (S : SliceSorter) (target target' : TreeNode) (episodes : list episodeStruct) :
  children target = [] →
  Forall (λ ep, 4 ≤ String.length (DataSourceID ep) ∧ ¬ parses (DataSourceID ep)) episodes →
  addEpisodes target episodes = Ret target' →
  buckets target' = [] ∧
  residual target' ≡ₚ episodes ∧
  StronglySorted (λ a b, String.le (Title a) (Title b)) (residual target').
Proof.
  intros Hc Hnone Hrun.
  assert (Forall (λ ep, 4 ≤ String.length (DataSourceID ep)) episodes) as Hlong.
  { eapply Forall_impl; [exact Hnone|]. by intros ep [? _]. }
  destruct (addEpisodes_organizes target episodes Hc Hlong)
    as (sorted & t & Hsorted & Hperm & Hrun' & Hres & Hg).
  rewrite Hrun in Hrun'. injection Hrun' as <-.
  assert (∀ ep, ep ∈ sorted → year_of ep = None) as Hyear.
  { intros ep Hep. rewrite Hperm in Hep. rewrite Forall_forall in Hnone.
    destruct (Hnone ep Hep) as [Hlen Hnp].
    rewrite <- year_of_parses in Hnp by done.
    destruct (year_of ep); [|done]. exfalso. apply Hnp. by eexists. }
  assert (filter (λ ep, year_of ep = None) sorted = sorted) as Hall.
  { clear -Hyear. induction sorted as [|ep l IH]; [done|].
    rewrite filter_cons, decide_True by (apply Hyear; by left).
    f_equal. apply IH. intros ep' Hep'. apply Hyear. by right. }
  rewrite Hall in Hres. split; [|split; [by rewrite Hres|]].
  - destruct (buckets target') as [|[year es] bs] eqn:Hb; [done|]. exfalso.
    destruct (grouped_bucket _ _ Hg year es) as [Hes Hne]; [by left|].
    apply Hne. rewrite Hes. apply filter_none. intros ep Hep. by rewrite Hyear.
  - rewrite Hres.
    assert (StronglySorted (not_after (λ a b, string_lt (Title a) (Title b))) sorted) as Hs.
    { eapply (sort_Slice_sorted _ episode_less _ episodes sorted); [| |done].
      - intros a b Ha Hb. rewrite Forall_forall in Hnone.
        destruct (Hnone a Ha) as [Hla Hpa]. destruct (Hnone b Hb) as [Hlb Hpb].
        by apply episode_less_undated.
      - split.
        + intros a b _ _. apply string_lt_asym.
        + intros a b c _ _ _. apply string_lt_negtrans. }
    eapply StronglySorted_impl_elem; [|exact Hs].
    intros a b _ _ Hab. by apply string_lt_le.
Qed.

Lemma X7_addEpisodes_undated_by_title_witness :
  let episodes := [episode "clip" "b"; episode "teaser" "a"] in
  ∃ target',
    children (NewTreeNode "Category") = [] ∧
    Forall (λ ep, 4 ≤ String.length (DataSourceID ep) ∧ ¬ parses (DataSourceID ep)) episodes ∧
    addEpisodes (NewTreeNode "Category") episodes = Ret target' ∧
    buckets target' = [] ∧
    residual target' ≡ₚ episodes ∧
    StronglySorted (λ a b, String.le (Title a) (Title b)) (residual target').
Proof.
  intros episodes.
  assert (Forall (λ ep, 4 ≤ String.length (DataSourceID ep) ∧ ¬ parses (DataSourceID ep))
            episodes) as Hnone.
  { repeat constructor; try (vm_compute; lia); intros [_ Hp]; vm_compute in Hp; discriminate. }
  eexists.
  split; [reflexivity|]. split; [exact Hnone|]. split; [reflexivity|].
  apply (X7_addEpisodes_undated_by_title go_sort (NewTreeNode "Category") _ episodes
           eq_refl Hnone eq_refl).
Defined.

(** ** Expansions under every schedule *)

(** A loader that has passed its join has loaded. *)
Lemma passed_join_loaded ex n sched m :
  run ex sched (selected n) = Ret m → ld m ≠ Loading → returns (load ex).
Proof.
  revert sched m.
  apply (reachable_ind ex n (λ m, ld m ≠ Loading → returns (load ex))); [done|].
  intros m t m' IH Hstep Hld. destruct t; simpl in Hstep.
  - unfold loader_step in Hstep. destruct (ld m) as [|[|a todo]] eqn:Hm.
    + apply go_bind_Ret in Hstep as (acts & Hload & _). by exists acts.
    + by apply IH.
    + by apply IH.
  - injection Hstep as <-. apply IH. by rewrite blinker_step_ld in Hld.
Qed.

(** X8. Whatever the interleaving of the loading goroutine of a category
    with [blinkNode], when both are through [addEpisodes] has returned and
    the children of the category node are the children [addEpisodes] builds
    when it runs alone. *)
Theorem X8_category_children_any_schedule
    (S : SliceSorter) (target : TreeNode) (episodes : list episodeStruct)
    (sched : list thread) (m : machine) :
  run (expandCategory episodes) sched (selected target) = Ret m → finished m →
  ∃ target', addEpisodes target episodes = Ret target' ∧
             children (node (shared m)) = children target'.
Proof.
  intros Hrun Hfin.
  destruct (passed_join_loaded _ _ _ _ Hrun) as [acts Hacts].
  { destruct Hfin as [-> _]. done. }
  destruct (expansion_children (H0 := sample_remote) (Category episodes) target acts sched m
              Hacts Hrun Hfin) as (e1 & He1 & Hc).
  exists (node e1). split; [|done].
  rewrite <- category_loader_addEpisodes. rewrite Hacts. cbn [go_bind].
  by rewrite He1.
Qed.

Lemma X8_category_children_any_schedule_witness :
  let episodes := [episode "0503_R03" "a"; episode "abcd" "b"; episode "0501_R01" "c"] in
  let sched := [Blinker; Loader; Blinker; Loader; Blinker; Loader; Blinker; Loader;
                Loader; Blinker; Loader; Loader; Blinker; Blinker; Blinker; Blinker;
                Blinker; Blinker; Blinker; Blinker] in
  ∃ m,
    run (expandCategory episodes) sched (selected (NewTreeNode "Category")) = Ret m ∧
    finished m ∧
    ∃ target', addEpisodes (NewTreeNode "Category") episodes = Ret target' ∧
               children (node (shared m)) = children target'.
Proof.
  intros episodes sched.
  assert (∃ m, run (expandCategory episodes) sched (selected (NewTreeNode "Category")) = Ret m
               ∧ finished m) as (m & Hrun & Hfin).
  { eexists. split; [reflexivity|]. split; reflexivity. }
  exists m. split; [exact Hrun|]. split; [exact Hfin|].
  exact (X8_category_children_any_schedule go_sort (NewTreeNode "Category") episodes
           sched m Hrun Hfin).
Defined.

(** X9. Whatever the interleaving of the two goroutines of the event
    branch, when both are through the event node has kept its children and
    gained, in the order of the sessions of the event, the session nodes that
    are not nil and have at least one perspective, and no other. *)
Theorem X9_event_attaches_valid_sessions
    (S : SliceSorter) (R : Remote) (event : eventStruct) (n : TreeNode)
    (sessions : list (option TreeNode)) (sched : list thread) (m : machine) :
  getSessionNodes event = Ret sessions →
  run (expandEvent event) sched (selected n) = Ret m → finished m →
  children (node (shared m))
  = children n ++ filter (λ s, valid_session s = true) sessions.
Proof. apply event_children. Qed.

Lemma X9_event_attaches_valid_sessions_witness :
  let event := @getEvent sample_remote "/api/event/monaco" in
  let sched := [Blinker; Blinker; Loader; Loader; Blinker; Blinker; Loader; Loader;
                Blinker; Blinker; Blinker; Blinker; Blinker; Blinker; Blinker] in
  ∃ sessions m,
    @getSessionNodes go_sort sample_remote event = Ret sessions ∧
    run (@expandEvent go_sort sample_remote event) sched (selected (NewTreeNode "Monaco"))
    = Ret m ∧
    finished m ∧
    children (node (shared m))
    = children (NewTreeNode "Monaco") ++ filter (λ s, valid_session s = true) sessions.
Proof.
  intros event sched.
  assert (∃ sessions, @getSessionNodes go_sort sample_remote event = Ret sessions)
    as [sessions Hs] by (eexists; reflexivity).
  assert (∃ m, run (@expandEvent go_sort sample_remote event) sched
                 (selected (NewTreeNode "Monaco")) = Ret m ∧ finished m)
    as (m & Hrun & Hfin).
  { eexists. split; [reflexivity|]. split; reflexivity. }
  exists sessions, m. split; [exact Hs|]. split; [exact Hrun|]. split; [exact Hfin|].
  exact (X9_event_attaches_valid_sessions go_sort sample_remote event (NewTreeNode "Monaco")
           sessions sched m Hs Hrun Hfin).
Defined.

(** *** No panic and no endless blinking *)

Lemma expansion_sets_done `{SliceSorter} `{Remote} (x : expandable) acts e e1 :
  load (expansion_of x) = Ret acts → loader_alone acts e = Ret e1 → done e1 = true.
Proof.
  destruct x as [episodes|event|season|]; simpl; intros Hload Hrun.
  - apply go_bind_Ret in Hload as (sorted & _ & Hret). injection Hret as <-.
    rewrite loader_alone_app in Hrun.
    apply go_bind_Ret in Hrun as (e2 & _ & Hrun).
    rewrite loader_alone_app in Hrun.
    apply go_bind_Ret in Hrun as (e3 & _ & Hrun).
    by injection Hrun as <-.
  - apply go_bind_Ret in Hload as (sessions & _ & Hret). injection Hret as <-.
    rewrite loader_alone_app in Hrun.
    apply go_bind_Ret in Hrun as (e2 & _ & Hrun). by injection Hrun as <-.
  - injection Hload as <-. rewrite loader_alone_app in Hrun.
    apply go_bind_Ret in Hrun as (e2 & _ & Hrun). by injection Hrun as <-.
  - injection Hload as <-. rewrite loader_alone_app in Hrun.
    apply go_bind_Ret in Hrun as (e2 & _ & Hrun). by injection Hrun as <-.
Qed.

Section completion.
Context (ex : expansion) (n : TreeNode) (acts : list action).
Context (Hload : load ex = Ret acts).
Context (Hacts : Forall respects acts).
Context (Hafter : ∀ e, agree e (after_blink ex e)).
Context (Halone : returns (loader_alone acts (shared (selected n)))).

(** The loader panics under a schedule only if it panics alone. *)
Lemma run_returns sched : returns (run ex sched (selected n)).
Proof.
  induction sched as [|t sched IH] using rev_ind; [by eexists|].
  destruct IH as [m Hm]. rewrite run_app_thread, Hm. cbn [go_bind].
  unfold run. rewrite go_foldl_singleton.
  destruct t; simpl; [|by eexists].
  pose proof (loader_progress_reachable ex n acts Hload Hacts Hafter _ _ Hm) as Hp.
  unfold loader_progress in Hp. unfold loader_step.
  destruct (ld m) as [|[|a todo]] eqn:Hld.
  - rewrite Hload. by eexists.
  - by eexists.
  - destruct Hp as (ran & e1 & Hsplit & Hran & Hag).
    assert (respects a) as Hresp.
    { rewrite Forall_forall in Hacts. apply Hacts. rewrite Hsplit.
      apply elem_of_app. right. by left. }
    specialize (Hresp _ _ Hag).
    destruct Halone as [efin Hfin]. rewrite Hsplit, loader_alone_app, Hran in Hfin.
    cbn [go_bind] in Hfin. rewrite loader_alone_cons in Hfin.
    destruct (a e1) as [e1'|p]; [|done].
    destruct (a (shared m)) as [e'|p]; [|done]. by eexists.
Qed.

Lemma loader_left_reachable sched m :
  run ex sched (selected n) = Ret m → loader_left acts (ld m) ≤ S (length acts).
Proof.
  intros Hm.
  pose proof (loader_progress_reachable ex n acts Hload Hacts Hafter _ _ Hm) as Hp.
  unfold loader_progress in Hp. destruct (ld m) as [|todo]; simpl; [lia|].
  destruct Hp as (ran & e1 & -> & _). rewrite length_app. lia.
Qed.

Lemma loader_steps k : ∀ m m',
  run ex (replicate k Loader) m = Ret m' →
  loader_left acts (ld m') = loader_left acts (ld m) - k.
Proof.
  induction k as [|k IH]; intros m m' Hrun.
  - injection Hrun as <-. lia.
  - simpl replicate in Hrun. rewrite run_cons in Hrun.
    apply go_bind_Ret in Hrun as (m1 & Hstep & Hrun).
    rewrite (IH _ _ Hrun). simpl in Hstep. unfold loader_step in Hstep.
    destruct (ld m) as [|[|a todo]] eqn:Hld.
    + rewrite Hload in Hstep. injection Hstep as <-. simpl. lia.
    + injection Hstep as <-. rewrite Hld. simpl. lia.
    + apply go_bind_Ret in Hstep as (e' & _ & Hret). injection Hret as <-. simpl. lia.
Qed.

Lemma blinker_step_left m :
  done (shared m) = true →
  done (shared (blinker_step ex m)) = true ∧
  blink_left (bl (blinker_step ex m)) = pred (blink_left (bl m)).
Proof.
  intros Hd. unfold blinker_step. destruct (bl m) eqn:Hb; simpl; try done.
  - by rewrite Hd.
  - split; [|done]. destruct (Hafter (shared m)) as (_ & _ & <-). done.
  - by rewrite Hb.
Qed.

Lemma blinker_steps k : ∀ m m',
  done (shared m) = true →
  run ex (replicate k Blinker) m = Ret m' →
  ld m' = ld m ∧ blink_left (bl m') = blink_left (bl m) - k.
Proof.
  induction k as [|k IH]; intros m m' Hd Hrun.
  - injection Hrun as <-. split; [done|lia].
  - simpl replicate in Hrun. rewrite run_cons in Hrun. simpl in Hrun.
    destruct (blinker_step_left m Hd) as [Hd' Hleft].
    destruct (IH _ _ Hd' Hrun) as [-> ->]. rewrite blinker_step_ld, Hleft.
    split; [done|lia].
Qed.

Lemma blink_left_bound b : blink_left b ≤ 8.
Proof. destruct b; simpl; lia. Qed.

Lemma blink_left_0 b : blink_left b = 0 → b = BlinkDone.
Proof. by destruct b. Qed.

Lemma completion_finishes sched m :
  run ex sched (selected n) = Ret m →
  (∀ e1, loader_alone acts (shared (selected n)) = Ret e1 → done e1 = true) →
  ∃ m', run ex (completion acts) m = Ret m' ∧ finished m'.
Proof.
  intros Hm Hdone.
  destruct (run_returns (sched ++ completion acts)) as [m' Hm'].
  pose proof Hm' as Hreach.
  rewrite run_app_thread, Hm in Hm'. cbn [go_bind] in Hm'.
  exists m'. split; [done|].
  unfold completion in Hm'. rewrite run_app_thread in Hm'.
  apply go_bind_Ret in Hm' as (m1 & Hloader & Hblinker).
  pose proof (loader_steps _ _ _ Hloader) as Hleft.
  pose proof (loader_left_reachable _ _ Hm) as Hbound.
  assert (ld m1 = Attaching []) as Hld1.
  { destruct (ld m1) as [|[|a todo]]; simpl in Hleft; [lia|done|lia]. }
  assert (run ex (sched ++ replicate (S (length acts)) Loader) (selected n) = Ret m1)
    as Hm1.
  { by rewrite run_app_thread, Hm. }
  pose proof (loader_progress_reachable ex n acts Hload Hacts Hafter _ _ Hm1) as Hp.
  unfold loader_progress in Hp. rewrite Hld1 in Hp.
  destruct Hp as (ran & e1 & Hsplit & Hran & _ & _ & Hd).
  rewrite app_nil_r in Hsplit. subst ran.
  rewrite (Hdone _ Hran) in Hd.
  destruct (blinker_steps _ _ _ Hd Hblinker) as [Hld' Hbl'].
  split; [by rewrite Hld'|].
  apply blink_left_0. pose proof (blink_left_bound (bl m1)). lia.
Qed.
End completion.

Lemma expansion_completes `{SliceSorter} `{Remote} (x : expandable) (n : TreeNode)
    (acts : list action) :
  load (expansion_of x) = Ret acts →
  returns (loader_alone acts (shared (selected n))) →
  ∀ sched, ∃ m,
    run (expansion_of x) sched (selected n) = Ret m ∧
    ∃ m', run (expansion_of x) (completion acts) m = Ret m' ∧ finished m'.
Proof.
  intros Hload Halone sched.
  pose proof (expansion_respects x acts Hload) as Hresp.
  destruct (run_returns (expansion_of x) n acts Hload Hresp (expansion_after_agree x)
              Halone sched) as [m Hm].
  exists m. split; [done|].
  apply (completion_finishes (expansion_of x) n acts Hload Hresp (expansion_after_agree x)
           Halone sched m Hm).
  intros e1. by apply (expansion_sets_done x).
Qed.

(** X10. An expansion of a category, an event, a season or the list of
    seasons whose loader returns from its fetches and whose statements after
    the join do not panic when they run alone does not panic under any
    interleaving with [blinkNode]; and from every state that it reaches, the
    loader and then [blinkNode] run to their end: the node does not blink for
    ever. *)
Theorem X10_expansion_completes
    (S : SliceSorter) (R : Remote) (x : expandable) (n : TreeNode) (acts : list action) :
  load (expansion_of x) = Ret acts →
  returns (loader_alone acts (shared (selected n))) →
  ∀ sched, ∃ m,
    run (expansion_of x) sched (selected n) = Ret m ∧
    ∃ m', run (expansion_of x) (completion acts) m = Ret m' ∧ finished m'.
Proof. apply expansion_completes. Qed.

Lemma X10_expansion_completes_witness :
  let x := Event (@getEvent sample_remote "/api/event/monaco") in
  let n := NewTreeNode "Monaco" in
  ∃ acts,
    load (@expansion_of go_sort sample_remote x) = Ret acts ∧
    returns (loader_alone acts (shared (selected n))) ∧
    ∀ sched, ∃ m,
      run (@expansion_of go_sort sample_remote x) sched (selected n) = Ret m ∧
      ∃ m', run (@expansion_of go_sort sample_remote x) (completion acts) m = Ret m' ∧
            finished m'.
Proof.
  intros x n.
  assert (∃ acts, load (@expansion_of go_sort sample_remote x) = Ret acts ∧
                  returns (loader_alone acts (shared (selected n))))
    as (acts & Hload & Halone).
  { eexists. split; [reflexivity|]. eexists. reflexivity. }
  exists acts. split; [exact Hload|]. split; [exact Halone|].
  exact (X10_expansion_completes go_sort sample_remote x n acts Hload Halone).
Defined.

Lemma loader_alone_seasons (seasons : list seasonStruct) : ∀ e,
  returns (loader_alone
    ((λ s e, Ret (with_node (AddChild (Some (seasonNode s))) e)) <$> seasons) e).
Proof.
  induction seasons as [|s seasons IH]; intros e; [by eexists|].
  rewrite fmap_cons, loader_alone_cons. cbn [go_bind]. apply IH.
Qed.

(** The season branch and the all-seasons branch of the selection handler
    cannot panic: whatever the catalog answers, whatever the node and the
    interleaving with [blinkNode], the expansion goes on, and the loader and
    [blinkNode] can always run to their end. *)
Corollary seasons_never_panic
    (S : SliceSorter) (R : Remote) (season : seasonStruct) (n : TreeNode)
    (sched : list thread) :
  (∃ m, run (expandSeason season) sched (selected n) = Ret m ∧
        ∃ sched' m', run (expandSeason season) sched' m = Ret m' ∧ finished m') ∧
  (∃ m, run expandAllSeasons sched (selected n) = Ret m ∧
        ∃ sched' m', run expandAllSeasons sched' m = Ret m' ∧ finished m').
Proof.
  split.
  - destruct (load (expansion_of (Season season))) as [acts|] eqn:Hload; [|done].
    destruct (expansion_completes (Season season) n acts Hload) with (sched := sched)
      as (m & Hm & m' & Hm' & Hfin).
    { injection Hload as <-. rewrite loader_alone_app.
      destruct (loader_alone_events (getEventNodes season) (shared (selected n)))
        as (e' & -> & _).
      by eexists. }
    exists m. split; [done|]. by exists (completion acts), m'.
  - destruct (load (expansion_of AllSeasons)) as [acts|] eqn:Hload; [|done].
    destruct (expansion_completes AllSeasons n acts Hload) with (sched := sched)
      as (m & Hm & m' & Hm' & Hfin).
    { injection Hload as <-. rewrite loader_alone_app.
      destruct (loader_alone_seasons (Seasons getSeasons) (shared (selected n)))
        as [e' ->].
      by eexists. }
    exists m. split; [done|]. by exists (completion acts), m'.
Qed.

(** *** What [blinkNode] leaves behind *)

Lemma keeps_label_with_node (f : TreeNode → TreeNode) :
  (∀ n, text (f n) = text n ∧ node_color (f n) = node_color n ∧
        selectable (f n) = selectable n) →
  keeps_label (λ e, Ret (with_node f e)).
Proof.
  intros Hf e e' [= <-]. simpl. destruct (Hf (node e)) as (-> & -> & ->). done.
Qed.

Lemma keeps_label_set_done : keeps_label (λ e, Ret (set_done e)).
Proof. by intros e e' [= <-]. Qed.

Lemma keeps_label_Draw : keeps_label (λ e, Ret (Draw e)).
Proof. by intros e e' [= <-]. Qed.

Lemma keeps_label_attachSession session : keeps_label (attachSession session).
Proof.
  intros e e'. unfold attachSession. destruct session as [s|]; [|by intros [= <-]].
  destruct (bool_decide _); by intros [= <-].
Qed.

Lemma attachEpisode_label t sk ep t' sk' :
  attachEpisode (t, sk) ep = Ret (t', sk') →
  text t' = text t ∧ node_color t' = node_color t ∧ selectable t' = selectable t.
Proof.
  unfold attachEpisode. destruct (episode_year ep) as [[year|]|p]; simpl; [| |done].
  - destruct (find_father year (children t)) as [[i|]|p]; simpl; [| |done];
      by intros [= <- _].
  - by intros [= <- _].
Qed.

Lemma keeps_label_attachDated ep : keeps_label (attachDated ep).
Proof.
  intros e e'. unfold attachDated.
  destruct (attachEpisode (node e, []) ep) as [[t' sk']|p] eqn:Ha; simpl; [|done].
  intros [= <-]. simpl. by destruct (attachEpisode_label _ _ _ _ _ Ha) as (-> & -> & ->).
Qed.

Lemma keeps_done_with_node (f : TreeNode → TreeNode) :
  keeps_done (λ e, Ret (with_node f e)).
Proof. by intros e e' [= <-]. Qed.

Lemma keeps_done_attachSession session : keeps_done (attachSession session).
Proof.
  intros e e'. unfold attachSession. destruct session as [s|]; [|by intros [= <-]].
  destruct (bool_decide _); by intros [= <-].
Qed.

Lemma keeps_done_attachDated ep : keeps_done (attachDated ep).
Proof.
  intros e e'. unfold attachDated.
  destruct (attachEpisode (node e, []) ep) as [[t' sk']|p]; simpl; [|done].
  by intros [= <-].
Qed.

Lemma expansion_keeps_label `{SliceSorter} `{Remote} (x : expandable) acts :
  load (expansion_of x) = Ret acts → Forall keeps_label acts.
Proof.
  destruct x as [episodes|event|season|]; simpl; intros Hload.
  - apply go_bind_Ret in Hload as (sorted & _ & Hret). injection Hret as <-.
    repeat apply Forall_app_2.
    + apply Forall_fmap_intro, keeps_label_attachDated.
    + apply Forall_fmap_intro. intros ep. by apply keeps_label_with_node.
    + apply Forall_cons_2; [apply keeps_label_set_done|].
      apply Forall_cons_2; [apply keeps_label_Draw|]. constructor.
  - apply go_bind_Ret in Hload as (sessions & _ & Hret). injection Hret as <-.
    apply Forall_app_2.
    + apply Forall_fmap_intro, keeps_label_attachSession.
    + apply Forall_cons_2; [apply keeps_label_set_done|]. constructor.
  - injection Hload as <-. apply Forall_app_2.
    + apply Forall_fmap_intro. intros ev. by apply keeps_label_with_node.
    + apply Forall_cons_2; [apply keeps_label_set_done|]. constructor.
  - injection Hload as <-. apply Forall_app_2.
    + apply Forall_fmap_intro. intros s. by apply keeps_label_with_node.
    + apply Forall_cons_2; [by apply keeps_label_with_node|].
      apply Forall_cons_2; [by apply keeps_label_with_node|].
      apply Forall_cons_2; [apply keeps_label_set_done|]. constructor.
Qed.

Lemma expansion_sets_done_once `{SliceSorter} `{Remote} (x : expandable) acts :
  load (expansion_of x) = Ret acts → sets_done_once acts.
Proof.
  destruct x as [episodes|event|season|]; simpl; intros Hload.
  - apply go_bind_Ret in Hload as (sorted & _ & Hret). injection Hret as <-.
    eexists (_ ++ _), [_]. split; [by rewrite <- app_assoc|]. split.
    + apply Forall_app_2.
      * apply Forall_fmap_intro, keeps_done_attachDated.
      * apply Forall_fmap_intro. intros ep. apply keeps_done_with_node.
    + apply Forall_cons_2; [|constructor]. by intros e e' [= <-].
  - apply go_bind_Ret in Hload as (sessions & _ & Hret). injection Hret as <-.
    eexists _, []. split; [done|]. split; [|constructor].
    apply Forall_fmap_intro, keeps_done_attachSession.
  - injection Hload as <-. eexists _, []. split; [done|]. split; [|constructor].
    apply Forall_fmap_intro. intros ev. apply keeps_done_with_node.
  - injection Hload as <-.
    eexists (_ ++ [_; _]), []. split; [by rewrite <- app_assoc|]. split; [|constructor].
    apply Forall_app_2.
    + apply Forall_fmap_intro. intros s. apply keeps_done_with_node.
    + apply Forall_cons_2; [apply keeps_done_with_node|].
      apply Forall_cons_2; [apply keeps_done_with_node|]. constructor.
Qed.

Lemma final_label_keeps `{SliceSorter} `{Remote} (x : expandable) n e e' :
  text (node e') = text (node e) → node_color (node e') = node_color (node e) →
  selectable (node e') = selectable (node e) → hasSessions e' = hasSessions e →
  final_label x n e → final_label x n e'.
Proof.
  intros Ht Hc Hs Hh. unfold final_label, unflagged, flagged.
  rewrite Ht, Hc, Hs, Hh. done.
Qed.

Lemma label_inv_step `{SliceSorter} `{Remote} (x : expandable) n m t m' :
  label_inv x n m → thread_step (expansion_of x) m t = Ret m' → label_inv x n m'.
Proof.
  intros [Htodo Hloading Hdone Hbl] Hstep. destruct t; simpl in Hstep.
  - unfold loader_step in Hstep. destruct (ld m) as [|[|a todo]] eqn:Hld.
    + apply go_bind_Ret in Hstep as (acts & Hload & Hret). injection Hret as <-.
      split; simpl.
      * intros todo [= <-]. by eapply expansion_keeps_label.
      * done.
      * intros todo [= <-]. rewrite Hloading by done. by eapply expansion_sets_done_once.
      * done.
    + injection Hstep as <-. split; rewrite ?Hld; auto.
    + apply go_bind_Ret in Hstep as (e' & Ha & Hret). injection Hret as <-.
      pose proof (Htodo _ eq_refl) as Hall. apply Forall_cons in Hall as [Hkeep Hall].
      destruct (Hkeep _ _ Ha) as (Ht & Hc & Hs & Hd).
      specialize (Hdone _ eq_refl).
      split; simpl.
      * by intros todo' [= <-].
      * done.
      * intros todo' [= <-]. destruct (done (shared m)) eqn:Hdm.
        -- rewrite Hd by done. by apply Forall_cons in Hdone as [_ ?].
        -- destruct Hdone as (pre & post & Hsplit & Hpre & Hpost).
           destruct pre as [|a' pre]; simpl in Hsplit.
           ++ injection Hsplit as -> ->. injection Ha as <-. done.
           ++ injection Hsplit as -> ->. apply Forall_cons in Hpre as [Ha' Hpre].
              rewrite (Ha' _ _ Ha), Hdm. by exists pre, post.
      * destruct (bl m); rewrite ?Ht, ?Hc, ?Hs; try done.
        -- destruct Hbl as (? & ? & ? & Hd'). auto.
        -- destruct Hbl as [? Hd']. unfold unflagged in *. rewrite Ht, Hc, Hs. auto.
        -- destruct Hbl as [? Hd']. unfold unflagged in *. rewrite Ht, Hc, Hs. auto.
        -- destruct Hbl as [Hfl Hd']. split; [|auto].
           rewrite Hd' in Hdone. apply Forall_cons in Hdone as [Hh _].
           eapply final_label_keeps; eauto.
  - injection Hstep as <-. split.
    + by rewrite blinker_step_ld.
    + rewrite blinker_step_ld. intros Hl. rewrite <- (Hloading Hl).
      unfold blinker_step. destruct (bl m); simpl; try done.
      symmetry. by destruct (expansion_after_agree x (shared m)) as (_ & _ & ?).
    + rewrite blinker_step_ld. intros todo Hl. specialize (Hdone todo Hl).
      assert (done (shared (blinker_step (expansion_of x) m)) = done (shared m)) as ->;
        [|done].
      unfold blinker_step. destruct (bl m); simpl; try done.
      symmetry. by destruct (expansion_after_agree x (shared m)) as (_ & _ & ?).
    + unfold blinker_step. destruct (bl m) eqn:Hb; simpl.
      * destruct Hbl as (? & ? & ?). auto.
      * destruct Hbl as (? & ? & ?). destruct (done (shared m)) eqn:Hd; simpl; auto.
      * done.
      * done.
      * destruct Hbl as (? & ?). auto.
      * destruct Hbl as (? & ? & ?). auto.
      * destruct Hbl as (-> & ? & ? & ?). unfold unflagged. simpl. auto.
      * done.
      * destruct Hbl as [Hu Hd]. unfold final_label.
        destruct x as [episodes|event|season|]; simpl; auto.
        destruct (hasSessions (shared m)) eqn:Hh; simpl; rewrite ?Hh; [auto|].
        destruct Hu as (Ht & _ & _). unfold flagged. simpl. by rewrite Ht.
      * by rewrite Hb.
Qed.

Lemma label_inv_reachable `{SliceSorter} `{Remote} (x : expandable) n sched m :
  run (expansion_of x) sched (selected n) = Ret m → label_inv x n m.
Proof.
  revert sched m. apply (reachable_ind (expansion_of x) n (label_inv x n)).
  - by split.
  - intros m t m'. apply label_inv_step.
Qed.

(** X12. When the blinking goroutine of an expansion is through, under
    whatever interleaving with the loader, the node has the text and the
    selectability it had when it was selected, and its colour is the one it
    had or the colour handed to [blinkNode]: "loading..." and the blue of the
    blinking do not stay.  The one exception is the event branch when no
    session was attached, where the node carries the no-content flag. *)
Theorem X12_blinkNode_restores_label
    (S : SliceSorter) (R : Remote) (x : expandable) (n : TreeNode)
    (sched : list thread) (m : machine) :
  run (expansion_of x) sched (selected n) = Ret m → bl m = BlinkDone →
  match x with
  | Event _ =>
      if hasSessions (shared m) then unflagged (expansion_of x) n (shared m)
      else flagged n (shared m)
  | _ => unflagged (expansion_of x) n (shared m)
  end.
Proof.
  intros Hrun Hbl.
  pose proof (label_blinker x n m (label_inv_reachable x n sched m Hrun)) as Hinv.
  rewrite Hbl in Hinv. destruct Hinv as [Hfinal _].
  by destruct x.
Qed.

Lemma X12_blinkNode_restores_label_witness :
  let x := Season {| season_Name := "2019"; EventoccurrenceUrls := ["/api/event/monaco"] |} in
  let sched := [Blinker; Blinker; Blinker; Loader; Blinker; Loader; Blinker; Loader;
                Blinker; Blinker; Blinker; Blinker; Blinker] in
  ∃ m,
    run (@expansion_of go_sort sample_remote x) sched (selected (NewTreeNode "2019")) = Ret m ∧
    bl m = BlinkDone ∧
    unflagged (@expansion_of go_sort sample_remote x) (NewTreeNode "2019") (shared m) ∧
    node_color (node (shared m)) = ColorWheat.
Proof.
  intros x sched.
  assert (∃ m, run (@expansion_of go_sort sample_remote x) sched
                 (selected (NewTreeNode "2019")) = Ret m ∧ bl m = BlinkDone ∧
               node_color (node (shared m)) = ColorWheat) as (m & Hrun & Hbl & Hc).
  { eexists. split; [reflexivity|]. split; reflexivity. }
  exists m. split; [exact Hrun|]. split; [exact Hbl|]. split; [|exact Hc].
  exact (X12_blinkNode_restores_label go_sort sample_remote x (NewTreeNode "2019")
           sched m Hrun Hbl).
Defined.

Lemma loader_alone_sessions_flag sessions : ∀ e e',
  loader_alone (attachSession <$> sessions) e = Ret e' →
  hasSessions e' = hasSessions e || existsb valid_session sessions.
Proof.
  induction sessions as [|s sessions IH]; intros e e' Hrun.
  - injection Hrun as <-. by rewrite orb_false_r.
  - rewrite fmap_cons, loader_alone_cons in Hrun.
    destruct s as [s|]; simpl in *.
    + destruct (bool_decide (0 < length (children s))); simpl in *.
      * rewrite (IH _ _ Hrun). simpl. by rewrite orb_true_r.
      * by apply IH.
    + by apply IH.
Qed.

(** X13. An event of which at least one session slot is not nil and has a
    perspective is not flagged: when both goroutines of the event branch are
    through, under whatever interleaving, the event node has the text and
    the selectability it had when it was selected, and its colour is the one
    it had or white. *)
Theorem X13_event_with_content_not_flagged
    (S : SliceSorter) (R : Remote) (event : eventStruct) (n : TreeNode)
    (sessions : list (option TreeNode)) (sched : list thread) (m : machine) :
  getSessionNodes event = Ret sessions →
  Exists (λ s, valid_session s = true) sessions →
  run (expandEvent event) sched (selected n) = Ret m → finished m →
  text (node (shared m)) = text n ∧
  selectable (node (shared m)) = selectable n ∧
  (node_color (node (shared m)) = node_color n ∨
   node_color (node (shared m)) = ColorWhite).
Proof.
  intros Hs Hvalid Hrun [Hld Hbl].
  assert (load (expansion_of (Event event))
          = Ret ((attachSession <$> sessions) ++ [λ e, Ret (set_done e)])) as Hload
    by (by simpl; rewrite Hs).
  pose proof (loader_progress_reachable (expansion_of (Event event)) n _ Hload
                (expansion_respects _ _ Hload) (expansion_after_agree (Event event))
                sched m Hrun) as Hp.
  unfold loader_progress in Hp. rewrite Hld in Hp.
  destruct Hp as (ran & e1 & Hsplit & Hran & _ & Hh & _).
  rewrite app_nil_r in Hsplit. subst ran.
  rewrite loader_alone_app in Hran.
  apply go_bind_Ret in Hran as (e2 & He2 & Hran). injection Hran as <-.
  apply loader_alone_sessions_flag in He2. simpl in Hh, He2.
  assert (existsb valid_session sessions = true) as Hex.
  { apply existsb_exists. apply Exists_exists in Hvalid as (s & Hin & Hv).
    exists s. split; [by apply list_elem_of_In|done]. }
  rewrite Hex in He2. rewrite He2 in Hh.
  pose proof (label_blinker _ n m (label_inv_reachable (Event event) n sched m Hrun))
    as Hinv.
  rewrite Hbl in Hinv. destruct Hinv as [Hfinal _].
  unfold final_label in Hfinal. rewrite Hh in Hfinal.
  destruct Hfinal as (? & ? & ?). auto.
Qed.

Lemma X13_event_with_content_not_flagged_witness :
  let event := @getEvent sample_remote "/api/event/monaco" in
  let sched := [Blinker; Blinker; Loader; Loader; Blinker; Blinker; Loader; Loader;
                Blinker; Blinker; Blinker; Blinker; Blinker; Blinker; Blinker] in
  ∃ sessions m,
    @getSessionNodes go_sort sample_remote event = Ret sessions ∧
    Exists (λ s, valid_session s = true) sessions ∧
    run (@expandEvent go_sort sample_remote event) sched (selected (NewTreeNode "Monaco"))
    = Ret m ∧
    finished m ∧
    text (node (shared m)) = "Monaco" ∧
    selectable (node (shared m)) = true ∧
    (node_color (node (shared m)) = PrimaryTextColor ∨
     node_color (node (shared m)) = ColorWhite).
Proof.
  intros event sched.
  assert (∃ sessions, @getSessionNodes go_sort sample_remote event = Ret sessions ∧
                      Exists (λ s, valid_session s = true) sessions)
    as (sessions & Hs & Hv).
  { eexists. split; [reflexivity|]. by apply Exists_cons_hd. }
  assert (∃ m, run (@expandEvent go_sort sample_remote event) sched
                 (selected (NewTreeNode "Monaco")) = Ret m ∧ finished m)
    as (m & Hrun & Hfin).
  { eexists. split; [reflexivity|]. split; reflexivity. }
  exists sessions, m.
  split; [exact Hs|]. split; [exact Hv|]. split; [exact Hrun|]. split; [exact Hfin|].
  exact (X13_event_with_content_not_flagged go_sort sample_remote event
           (NewTreeNode "Monaco") sessions sched m Hs Hv Hrun Hfin).
Defined.

(** ** The resolver: what a call does to the caches *)

Section resolver_frame.
Context {V : Type} (fetch : string → V) (name_of : V → string).
Context (m : gmap string V) (ids : list string).

Lemma step_cache_frame st j id :
  resolver_inv fetch name_of m ids st → id ∉ ids →
  cache (goroutine_step fetch name_of st j) !! id = cache st !! id.
Proof.
  intros Hinv Hnin. unfold goroutine_step.
  destruct (phases st !! j) as [ph|] eqn:Hph; [|done].
  destruct (lines st !! j) as [line|] eqn:Hline; [|done].
  destruct ph as [| |v|v|]; try done. simpl.
  assert (j < length ids) as Hj.
  { rewrite <- (inv_phases _ _ _ _ _ Hinv). by eapply lookup_lt_Some. }
  destruct (lookup_lt_is_Some_2 ids j Hj) as [id0 Hid].
  pose proof (inv_goroutine _ _ _ _ _ Hinv j id0 _ Hid Hph) as (Hl & _).
  rewrite Hline in Hl. injection Hl as ->.
  rewrite lookup_insert_ne; [done|].
  intros <-. apply Hnin. by eapply list_elem_of_lookup_2.
Qed.

Lemma run_cache_frame sched id : ∀ st,
  resolver_inv fetch name_of m ids st → id ∉ ids →
  cache (run_schedule fetch name_of sched st) !! id = cache st !! id.
Proof.
  unfold run_schedule.
  induction sched as [|j sched IH]; intros st Hinv Hnin; simpl; [done|].
  rewrite IH; [by apply step_cache_frame|by apply inv_step|done].
Qed.

(** The cache a call leaves: the record it resolved for every identifier of
    its list, and what was there for every other. *)
Lemma resolve_cache sched id :
  cache (resolve fetch name_of sched m ids) !! id
  = if decide (id ∈ ids) then Some (resolved fetch m id) else m !! id.
Proof.
  destruct (decide (id ∈ ids)) as [Hin|Hnin].
  - destruct (resolve_cached fetch name_of m ids sched id Hin) as [v Hv].
    rewrite Hv. f_equal.
    destruct (inv_cache _ _ _ _ _ (resolve_inv fetch name_of m ids sched) id)
      as [Hc|[Hm Hc]]; unfold resolved.
    + rewrite <- Hc, Hv. done.
    + rewrite Hm. simpl. congruence.
  - unfold resolve. rewrite run_cache_frame; [done|apply inv_init|done].
Qed.
End resolver_frame.

Lemma getTeamNames_fetches `{SliceSorter} `{Remote} sched w ids :
  team_fetches_since w (getTeamNames sched w ids).2
  = fetched (resolve getTeam team_Name sched (teamMap w) ids).
Proof. unfold team_fetches_since. simpl. by rewrite drop_app_length. Qed.

(** X14. For every list of team identifiers and every interleaving of the
    goroutines, [getTeamNames] returns the names of the teams sorted
    lexicographically, the same list for every permutation of the input; a
    second, later call fetches no identifier that the first call resolved;
    and a call fetches an identifier at most as many times as the identifier
    occurs in its list.  The cache and the fetches of drivers are not
    touched. *)
Theorem X14_team_names_sorted_and_cached
    (S : SliceSorter) (R : Remote) (w : world)
    (ids ids' again : list string) (sched sched' sched2 : list nat) (id : string) :
  let call1 := getTeamNames sched w ids in
  let call2 := getTeamNames sched2 call1.2 again in
  (∃ names, call1.1 = Ret names ∧ StronglySorted String.le names ∧
            names ≡ₚ team_display w <$> ids) ∧
  (ids ≡ₚ ids' → (getTeamNames sched' w ids').1 = call1.1) ∧
  (id ∈ ids → id ∉ team_fetches_since call1.2 call2.2) ∧
  occurrences id (team_fetches_since w call1.2) ≤ occurrences id ids ∧
  driverMap call1.2 = driverMap w ∧ driver_fetches call1.2 = driver_fetches w.
Proof.
  intros call1 call2.
  split; [|split; [|split; [|split; [|done]]]].
  - unfold call1. simpl. rewrite resolve_lines.
    destruct (sort_Strings_spec
                ((λ id, team_Name (resolved getTeam (teamMap w) id)) <$> ids))
      as (names & Hn & Hp & Hs).
    exists names. by rewrite Hn.
  - intros Hperm. unfold call1. simpl. rewrite !resolve_lines.
    apply sort_Strings_perm. by rewrite Hperm.
  - intros Hin. unfold call2. rewrite getTeamNames_fetches. intros Hf.
    pose proof (resolve_inv getTeam team_Name (teamMap call1.2) again sched2) as Hinv.
    destruct (inv_fetched _ _ _ _ _ Hinv id Hf) as [Hnone _].
    destruct (resolve_cached getTeam team_Name (teamMap w) ids sched id Hin) as [v Hv].
    simpl in Hnone. rewrite Hv in Hnone. discriminate.
  - unfold call1. rewrite getTeamNames_fetches.
    pose proof (inv_count _ _ _ _ _
      (resolve_inv getTeam team_Name (teamMap w) ids sched) id). lia.
Qed.

(** X15. A call of [getDriverNames] only adds to the cache of drivers: when
    it returns, whatever the interleaving, every identifier of its list is
    cached with the record that was cached before or, if there was none,
    with the record fetched; every other entry of the cache is as it was; the
    identifiers fetched were in the list and not in the cache; and the cache
    and the fetches of teams are not touched. *)
Theorem X15_driver_cache_only_grows
    (S : SliceSorter) (R : Remote) (sched : list nat) (w : world) (ids : list string) :
  let w' := (getDriverNames sched w ids).2 in
  driverMap w ⊆ driverMap w' ∧
  (∀ id, id ∈ ids →
     driverMap w' !! id = Some (default (getDriver id) (driverMap w !! id))) ∧
  (∀ id, id ∉ ids → driverMap w' !! id = driverMap w !! id) ∧
  (∀ id, id ∈ driver_fetches_since w w' → id ∈ ids ∧ driverMap w !! id = None) ∧
  teamMap w' = teamMap w ∧ team_fetches w' = team_fetches w.
Proof.
  intros w'.
  assert (∀ id, driverMap w' !! id
                = if decide (id ∈ ids) then Some (resolved getDriver (driverMap w) id)
                  else driverMap w !! id) as Hcache.
  { intros id. unfold w'. simpl. apply resolve_cache. }
  split; [|split; [|split; [|split; [|done]]]].
  - apply map_subseteq_spec. intros id v Hv. rewrite Hcache.
    destruct (decide (id ∈ ids)); [|done]. unfold resolved. by rewrite Hv.
  - intros id Hin. rewrite Hcache. by rewrite decide_True.
  - intros id Hnin. rewrite Hcache. by rewrite decide_False.
  - intros id Hf. unfold w' in Hf. rewrite getDriverNames_fetches in Hf.
    destruct (inv_fetched _ _ _ _ _
                (resolve_inv getDriver driver_name (driverMap w) ids sched) id Hf).
    done.
Qed.

(** ** [convertIDs] *)

Lemma guarded_prefix_returns threshold n prefix s :
  n ≤ threshold → returns (guarded_prefix threshold n prefix s).
Proof.
  intros Hn. unfold guarded_prefix.
  destruct (decide (threshold < String.length s)); [|by eexists].
  rewrite go_slice_Ret by lia. by eexists.
Qed.

Lemma convertIDs_kind_returns lines : returns (convertIDs_kind lines).
Proof.
  unfold convertIDs_kind. destruct lines as [|line0 rest]; [by eexists|].
  destruct (guarded_prefix_returns 12 12 "/api/driver/" line0) as [d ->]; [lia|].
  cbn [go_bind]. destruct d; [by eexists|].
  destruct (guarded_prefix_returns 12 10 "/api/team/" line0) as [t ->]; [lia|].
  cbn [go_bind]. destruct t; by eexists.
Qed.

Lemma convertIDs_kind_short line0 rest :
  String.length line0 ≤ 12 → convertIDs_kind (line0 :: rest) = Ret Unresolved.
Proof.
  intros Hshort. unfold convertIDs_kind, guarded_prefix.
  by rewrite !decide_False by lia.
Qed.

(** X16. [convertIDs] returns on every list, whatever the interleaving of
    the goroutines it starts, with as many lines as it was given.  The empty
    list and a list whose first line has at most 12 bytes are returned as
    they are, and nothing is looked up or fetched for them. *)
Theorem X16_convertIDs_total
    (S : SliceSorter) (R : Remote) (sched : list nat) (w : world) (lines : list string) :
  (∃ out w', convertIDs sched w lines = (Ret out, w') ∧ length out = length lines) ∧
  (lines = [] ∨ (∃ line0 rest, lines = line0 :: rest ∧ String.length line0 ≤ 12) →
   convertIDs sched w lines = (Ret lines, w)).
Proof.
  split.
  - unfold convertIDs. destruct (convertIDs_kind_returns lines) as [[| |] ->].
    + unfold getDriverNames. rewrite resolve_lines.
      destruct (sort_Strings_spec
                  ((λ id, driver_name (resolved getDriver (driverMap w) id)) <$> lines))
        as (names & -> & Hp & _).
      eexists _, _. split; [done|]. by rewrite Hp, length_fmap.
    + unfold getTeamNames. rewrite resolve_lines.
      destruct (sort_Strings_spec
                  ((λ id, team_Name (resolved getTeam (teamMap w) id)) <$> lines))
        as (names & -> & Hp & _).
      eexists _, _. split; [done|]. by rewrite Hp, length_fmap.
    + by eexists _, _.
  - intros [->|(line0 & rest & -> & Hshort)]; [done|].
    unfold convertIDs. by rewrite convertIDs_kind_short.
Qed.

(** ** [addNumberToName] *)

Lemma string_app_assoc (s t u : string) : (s +:+ t) +:+ u = s +:+ (t +:+ u).
Proof.
  induction s as [|c s IH]; [done|].
  change (String c ((s +:+ t) +:+ u) = String c (s +:+ (t +:+ u))). by rewrite IH.
Qed.

Lemma Itoa_length_table :
  forallb (λ k, String.length (Itoa (Z.of_nat k)) =? (if k <? 10 then 1 else 2))
    (seq 0 100) = true.
Proof. vm_compute. reflexivity. Qed.

Lemma Itoa_length (n : Z) :
  (0 ≤ n < 100)%Z → String.length (Itoa n) = if (10 <=? n)%Z then 2 else 1.
Proof.
  intros Hn. pose proof Itoa_length_table as Ht.
  rewrite forallb_forall in Ht. specialize (Ht (Z.to_nat n)).
  rewrite Z2Nat.id in Ht by lia.
  rewrite <- list_elem_of_In, elem_of_seq in Ht.
  apply Nat.eqb_eq in Ht; [|lia]. rewrite Ht.
  destruct (Z.leb_spec 10 n), (Nat.ltb_spec (Z.to_nat n) 10); (done || lia).
Qed.

(** X17. For a racing number from 0 to 99, [addNumberToName] puts exactly
    five bytes before the name: the names of a list line up, whether the
    number has one digit or two. *)
Theorem X17_addNumberToName_width (number : Z) (name : string) :
  (0 ≤ number < 100)%Z →
  ∃ pre, String.length pre = 5 ∧ addNumberToName number name = pre +:+ name.
Proof.
  intros Hn. pose proof (Itoa_length number Hn) as Hlen. unfold addNumberToName.
  destruct (10 <=? number)%Z.
  - exists ("(" +:+ Itoa number +:+ ") "). split.
    + rewrite !length_app_string, Hlen. done.
    + by rewrite !string_app_assoc.
  - exists (" (" +:+ Itoa number +:+ ") "). split.
    + rewrite !length_app_string, Hlen. done.
    + by rewrite !string_app_assoc.
Qed.

Lemma X17_addNumberToName_width_witness :
  (0 ≤ 7 < 100)%Z ∧
  ∃ pre, String.length pre = 5 ∧ addNumberToName 7 "Kimi Raikkonen" = pre +:+ "Kimi Raikkonen".
Proof.
  split; [lia|]. apply (X17_addNumberToName_width 7 "Kimi Raikkonen"). lia.
Defined.

(** ** The command dispatcher: what is started and what is monitored *)

Lemma replace_absent (s old new : string) :
  strings_Contains s old = false → strings_Replace s old new = s.
Proof.
  unfold strings_Replace. induction s as [|c s IH]; [done|].
  intros [Hp Hc]%orb_false_iff.
  change (replace_from 0 (String c s) old new)
    with (if String.prefix old (String c s)
          then new +:+ replace_from (String.length old - 1) s old new
          else String c (replace_from 0 s old new)).
  rewrite Hp. by rewrite IH.
Qed.

Section dispatcher_started.
Context `{Remote} (url title : string).

Lemma substitute_token d tmp s :
  ∃ t, (substitute url title (d, tmp) s).2 = tmp ++ [t] ∧
       started (substitute url title (d, tmp) s).1 = started d ∧
       watched (substitute url title (d, tmp) s).1 = watched d ∧
       (plain_token s → t = s).
Proof.
  unfold substitute, plain_token.
  destruct (strings_Contains s "$file") eqn:Hf; simpl.
  - eexists. split; [done|]. split; [by destruct (fileLoaded d)|].
    split; [by destruct (fileLoaded d)|]. by intros [? _].
  - eexists. split; [done|]. split; [done|]. split; [done|].
    intros [_ Hu]. by apply replace_absent.
Qed.

Lemma substitute_tokens cmd : ∀ d tmp,
  ∃ ts, (foldl (substitute url title) (d, tmp) cmd).2 = tmp ++ ts ∧
        started (foldl (substitute url title) (d, tmp) cmd).1 = started d ∧
        watched (foldl (substitute url title) (d, tmp) cmd).1 = watched d ∧
        instance_of ts cmd.
Proof.
  induction cmd as [|s cmd IH]; intros d tmp.
  - exists []. simpl. rewrite app_nil_r. by repeat split.
  - cbn [foldl].
    destruct (substitute_token d tmp s) as (t & Ht & Hs & Hw & Hplain).
    destruct (substitute url title (d, tmp) s) as [d1 tmp1]. simpl in Ht, Hs, Hw.
    subst tmp1.
    destruct (IH d1 (tmp ++ [t])) as (ts & Hts & Hs' & Hw' & Hlen & Hkeep).
    exists (t :: ts). rewrite Hts, Hs', Hw', <- app_assoc.
    split; [done|]. split; [done|]. split; [done|]. split; [by simpl; rewrite Hlen|].
    intros [|i] s' Hi Hp; simpl in *.
    + injection Hi as <-. by rewrite Hplain.
    + by apply Hkeep.
Qed.

Lemma runCommand_started monitor com d j cmd :
  ∃ new, started (runCommand monitor com url title d j cmd) = started d ++ new ∧
         Forall2 instance_of new (filter (λ cmd, cmd ≠ []) [cmd]) ∧
         watched (runCommand monitor com url title d j cmd)
         = watched d ++
           (if monitor && bool_decide (CommandToWatch com = Z.of_nat j)
            then (if cmd is [] then [] else [j]) else []).
Proof.
  destruct cmd as [|s cmd].
  - exists []. simpl. rewrite !app_nil_r. split; [done|]. split; [constructor|].
    destruct (_ && _); by rewrite app_nil_r.
  - unfold runCommand.
    destruct (substitute_tokens (s :: cmd) d []) as (ts & Hts & Hs & Hw & Hinst).
    destruct (foldl (substitute url title) (d, []) (s :: cmd)) as [d1 tmp1].
    simpl in Hts, Hs, Hw. subst tmp1. simpl.
    exists [ts]. rewrite Hs, Hw. split; [done|]. split; [|done].
    rewrite filter_cons, decide_True by done.
    constructor; [done|]. rewrite filter_nil. constructor.
Qed.

Lemma runCommands_started monitor com cmds : ∀ d j,
  ∃ new, started (runCommands monitor com url title d j cmds) = started d ++ new ∧
         Forall2 instance_of new (filter (λ cmd, cmd ≠ []) cmds) ∧
         watched (runCommands monitor com url title d j cmds)
         = watched d ++ watched_from monitor com j cmds.
Proof.
  induction cmds as [|cmd cmds IH]; intros d j.
  - exists []. simpl. unfold watched_from. rewrite !app_nil_r.
    split; [done|]. split; [constructor|].
    rewrite lookup_nil. destruct (_ && _); by rewrite app_nil_r.
  - cbn [runCommands].
    destruct (runCommand_started monitor com d j cmd) as (new1 & Hs1 & Hf1 & Hw1).
    destruct (IH (runCommand monitor com url title d j cmd) (S j))
      as (new2 & Hs2 & Hf2 & Hw2).
    exists (new1 ++ new2). rewrite Hs2, Hs1, Hw2, Hw1, <- !app_assoc.
    split; [done|]. split.
    + change (cmd :: cmds) with ([cmd] ++ cmds). rewrite filter_app.
      by apply Forall2_app.
    + f_equal. unfold watched_from.
      destruct monitor; simpl; [|done].
      case_bool_decide as Hj.
      * rewrite Hj. rewrite Z.leb_refl, Nat2Z.id, Nat.sub_diag. simpl.
        destruct (Z.leb_spec (Z.of_nat (S j)) (Z.of_nat j)); [lia|].
        by rewrite app_nil_r.
      * destruct (Z.leb_spec (Z.of_nat j) (CommandToWatch com)) as [Hle|Hlt].
        -- destruct (Z.leb_spec (Z.of_nat (S j)) (CommandToWatch com)); [|lia].
           replace (Z.to_nat (CommandToWatch com) - j)
             with (S (Z.to_nat (CommandToWatch com) - S j)) by lia.
           done.
        -- destruct (Z.leb_spec (Z.of_nat (S j)) (CommandToWatch com)); [lia|done].
Qed.
End dispatcher_started.

(** X18. A dispatch of a custom command starts one process for every
    command of the template that is not empty, in the order of the template
    and none for an empty one; the argument vector of a process has as many
    tokens as its command, and every token that contains neither "$file" nor
    "$url" is passed as it is written. *)
Theorem X18_dispatch_starts_every_command
    (R : Remote) (node : TreeNode) (context : nodeContext) :
  Forall2 instance_of
    (started (dispatchCommand node context).1)
    (filter (λ cmd, cmd ≠ []) (Commands (CustomOptions context))).
Proof.
  unfold dispatchCommand. simpl.
  match goal with
  | |- context [runCommands ?mon ?com ?url ?title dispatch_start 0 ?cmds] =>
      destruct (runCommands_started url title mon com cmds dispatch_start 0)
        as (new & Hs & Hf & _)
  end.
  by rewrite Hs.
Qed.

(** X19. A dispatch hands the output of at most one process to
    [monitorCommand]: that of the command [CommandToWatch], when the
    template has a watch phrase, [CommandToWatch] is an index of the
    template and that command is not empty.  The node is coloured blue
    exactly when the template is not monitored; a monitored template whose
    watched command is empty leaves the node as it is and watches nothing. *)
Theorem X19_dispatch_monitors_one_command
    (R : Remote) (node : TreeNode) (context : nodeContext) :
  let com := CustomOptions context in
  let j := Z.to_nat (CommandToWatch com) in
  watched (dispatchCommand node context).1
  = (if monitored com then
       match Commands com !! j with Some (_ :: _) => [j] | _ => [] end
     else []) ∧
  (dispatchCommand node context).2
  = (if monitored com then node else SetColor ColorBlue node).
Proof.
  intros com j. unfold dispatchCommand. simpl. split; [|done].
  match goal with
  | |- context [runCommands ?mon _ ?url ?title dispatch_start 0 ?cmds] =>
      destruct (runCommands_started url title mon com cmds dispatch_start 0)
        as (new & _ & _ & Hw)
  end.
  fold com in Hw |- *. rewrite Hw. simpl. unfold watched_from, monitored.
  fold com. rewrite Nat.sub_0_r. fold j.
  destruct (bool_decide (Watchphrase com ≠ "")); simpl; [|done].
  destruct (Z.leb_spec 0 (CommandToWatch com)); simpl; [|done].
  destruct (_ <? _)%Z; simpl; [|done].
  destruct (Z.leb_spec (Z.of_nat 0) (CommandToWatch com)); [done|lia].
Qed.

(** ** The loaders of sessions and perspectives *)

Lemma addNumberToName_head number name :
  ∃ c rest, addNumberToName number name = String c rest ∧
            (c = "("%char ∨ c = " "%char).
Proof.
  unfold addNumberToName. destruct (10 <=? number)%Z.
  - exists "("%char, (Itoa number +:+ ") " +:+ name). split; [done|by left].
  - exists " "%char, ("(" +:+ Itoa number +:+ ") " +:+ name). split; [done|by right].
Qed.

(** X20. The node of a perspective carries the perspective as its
    reference, is green and selectable and has no children.  A perspective
    with at least one driver is labelled with the racing number of its first
    driver and its own name, whatever that name is: the four renamings ("WIF"
    to "Main Feed", "pit lane", "driver", "data") apply to a perspective
    without driver only. *)
Theorem X20_perspective_label (channel : channelUrlsStruct) :
  let n := perspectiveNode channel in
  node_reference n = RefChannel channel ∧
  node_color n = ColorGreen ∧ selectable n = true ∧ children n = [] ∧
  (∀ driver0 rest, channel_DriverUrls channel = driver0 :: rest →
     text n = addNumberToName (DriverRacingnumber driver0) (channel_Name channel)) ∧
  (channel_DriverUrls channel = [] →
     (channel_Name channel = "WIF" → text n = "Main Feed") ∧
     (channel_Name channel = "pit lane" → text n = "Pit Lane") ∧
     (channel_Name channel = "driver" → text n = "Driver Tracker") ∧
     (channel_Name channel = "data" → text n = "Data Channel") ∧
     (channel_Name channel ∉ ["WIF"; "pit lane"; "driver"; "data"] →
      text n = channel_Name channel)).
Proof.
  intros n. repeat (split; [done|]). split.
  - intros driver0 rest Hd. unfold n, perspectiveNode. rewrite Hd. simpl.
    destruct (addNumberToName_head (DriverRacingnumber driver0) (channel_Name channel))
      as (c & r & -> & Hc).
    rewrite !bool_decide_eq_false_2; [done|..]; intros [= -> _]; by destruct Hc.
  - intros Hd. unfold n, perspectiveNode. rewrite Hd. simpl.
    repeat split; try (by intros ->).
    intros Hn. rewrite !bool_decide_eq_false_2; [done|..]; intros Heq; apply Hn;
      rewrite Heq; repeat ((by left) || right).
Qed.

Lemma getPerspectiveNodes_spec `{SliceSorter} (perspectives : list channelUrlsStruct) :
  ∃ channels, getPerspectiveNodes perspectives = Ret channels ∧
              channels ≡ₚ perspectiveNode <$> perspectives.
Proof.
  unfold getPerspectiveNodes.
  destruct (sort_Slice_returns TreeNode
              (λ ci cj, Ret (negb (strings_Contains (text ci) "(")))
              (perspectiveNode <$> perspectives)) as [channels Hc].
  { intros. by eexists. }
  exists channels. split; [done|]. by eapply sort_Slice_perm.
Qed.

Lemma attach_streams_fields (channels : list TreeNode) : ∀ n,
  let n' := foldl (λ n stream, AddChild (Some stream) n) n channels in
  text n' = text n ∧ node_reference n' = node_reference n ∧
  node_color n' = node_color n ∧ selectable n' = selectable n ∧
  expanded n' = expanded n.
Proof.
  induction channels as [|c channels IH]; intros n; [done|].
  simpl. destruct (IH (AddChild (Some c) n)) as (-> & -> & -> & -> & ->). done.
Qed.

Lemma sessionNode_spec `{SliceSorter} `{Remote} (sessionID : string) :
  let session := getSession sessionID in
  let streams := getSessionStreams (Slug session) in
  (Status session = "upcoming" → sessionNode sessionID = Ret None) ∧
  (Status session ≠ "upcoming" → Objects streams = [] →
     sessionNode sessionID = Panic IndexRange) ∧
  (Status session ≠ "upcoming" → ∀ object0 rest, Objects streams = object0 :: rest →
     ∃ n channels,
       sessionNode sessionID = Ret (Some n) ∧
       children n = Some <$> channels ∧
       channels ≡ₚ perspectiveNode <$> ChannelUrls object0 ∧
       node_reference n = RefStreams streams ∧ expanded n = false ∧
       selectable n = true ∧
       (Status session = "live" →
          text n = session_Name session +:+ " - LIVE" ∧ node_color n = ColorRed) ∧
       (Status session ≠ "live" →
          text n = session_Name session ∧ node_color n = PrimaryTextColor)).
Proof.
  intros session streams. unfold sessionNode. fold session. fold streams.
  split; [|split].
  - intros ->. done.
  - intros Hup ->. by rewrite bool_decide_eq_true_2.
  - intros Hup object0 rest ->. rewrite bool_decide_eq_true_2 by done.
    destruct (getPerspectiveNodes_spec (ChannelUrls object0)) as (channels & -> & Hperm).
    cbn [go_bind]. eexists _, channels. split; [done|].
    match goal with
    | |- context [foldl ?f ?n0 channels] =>
        pose proof (attach_streams_fields channels n0) as Hf;
        pose proof (children_attach_skipped channels n0) as Hc
    end.
    cbv zeta in Hf. destruct Hf as (-> & -> & -> & -> & ->). rewrite Hc.
    case_bool_decide as Hlive; simpl; repeat split; done.
Qed.

(** X21. The goroutine of [getSessionNodes] for one session.  For an
    upcoming session the slot stays nil.  For any other session without a
    stream object the process panics (index out of range).  Otherwise the
    slot holds a collapsed node that carries the streams as its reference
    and has one child for every perspective of the first stream object, each
    exactly once; the node of a live session is red and labelled
    "... - LIVE", any other carries the name of the session. *)
Theorem X21_session_node
    (S : SliceSorter) (R : Remote) (sessionID : string) :
  let session := getSession sessionID in
  let streams := getSessionStreams (Slug session) in
  (Status session = "upcoming" → sessionNode sessionID = Ret None) ∧
  (Status session ≠ "upcoming" → Objects streams = [] →
     sessionNode sessionID = Panic IndexRange) ∧
  (Status session ≠ "upcoming" → ∀ object0 rest, Objects streams = object0 :: rest →
     ∃ n channels,
       sessionNode sessionID = Ret (Some n) ∧
       children n = Some <$> channels ∧
       channels ≡ₚ perspectiveNode <$> ChannelUrls object0 ∧
       node_reference n = RefStreams streams ∧ expanded n = false ∧
       selectable n = true ∧
       (Status session = "live" →
          text n = session_Name session +:+ " - LIVE" ∧ node_color n = ColorRed) ∧
       (Status session ≠ "live" →
          text n = session_Name session ∧ node_color n = PrimaryTextColor)).
Proof. apply sessionNode_spec. Qed.

Lemma go_mapM_Forall2 {A B} (f : A → go B) (l : list A) : ∀ ys,
  go_mapM f l = Ret ys → Forall2 (λ x y, f x = Ret y) l ys.
Proof.
  induction l as [|x l IH]; intros ys Hys; simpl in Hys.
  - injection Hys as <-. constructor.
  - apply go_bind_Ret in Hys as (y & Hy & Hys).
    apply go_bind_Ret in Hys as (ys' & Hys' & Hret). injection Hret as <-.
    constructor; [done|]. by apply IH.
Qed.

Lemma go_mapM_returns {A B} (f : A → go B) (l : list A) :
  returns (go_mapM f l) ↔ Forall (λ x, returns (f x)) l.
Proof.
  induction l as [|x l IH]; simpl.
  - split; [constructor|by eexists].
  - split.
    + intros [ys Hys]. apply go_bind_Ret in Hys as (y & Hy & Hys).
      apply go_bind_Ret in Hys as (ys' & Hys' & _).
      constructor; [by eexists|]. apply IH. by eexists.
    + intros [[y Hy] [ys Hys]%IH]%Forall_cons. rewrite Hy, Hys. by eexists.
Qed.

(** X22. [getSessionNodes] returns exactly when every session of the event
    is upcoming or has a stream object, with one slot for every session, in
    order; and a slot is one that the event branch attaches (not nil, with a
    child) exactly when its session is not upcoming and the first stream
    object has a perspective. *)
Theorem X22_getSessionNodes_slots
    (S : SliceSorter) (R : Remote) (event : eventStruct) :
  (returns (getSessionNodes event) ↔
   Forall (λ id, Status (getSession id) = "upcoming" ∨
                 Objects (getSessionStreams (Slug (getSession id))) ≠ [])
     (SessionoccurrenceUrls event)) ∧
  (∀ sessions, getSessionNodes event = Ret sessions →
     Forall2 (λ id slot,
                valid_session slot = true ↔
                Status (getSession id) ≠ "upcoming" ∧
                ∃ object0 rest,
                  Objects (getSessionStreams (Slug (getSession id))) = object0 :: rest ∧
                  ChannelUrls object0 ≠ [])
       (SessionoccurrenceUrls event) sessions).
Proof.
  assert (∀ id, returns (sessionNode id) ↔
                Status (getSession id) = "upcoming" ∨
                Objects (getSessionStreams (Slug (getSession id))) ≠ []) as Hret.
  { intros id. unfold sessionNode.
    destruct (decide (Status (getSession id) = "upcoming")) as [Hup|Hup].
    - rewrite bool_decide_eq_false_2 by (by intros ?). split; [by left|by eexists].
    - rewrite bool_decide_eq_true_2 by done.
      destruct (Objects (getSessionStreams (Slug (getSession id)))) as [|object0 rest].
      + split; [by intros [? ?]|]. by intros [?|?].
      + destruct (getPerspectiveNodes_spec (ChannelUrls object0)) as (channels & -> & _).
        split; [by right|by eexists]. }
  split.
  - unfold getSessionNodes. rewrite go_mapM_returns.
    split; intros Hall; eapply Forall_impl; eauto; intros id; apply Hret.
  - intros sessions Hs. apply go_mapM_Forall2 in Hs.
    eapply Forall2_impl; [exact Hs|]. intros id slot Hslot. simpl in Hslot.
    destruct (sessionNode_spec id) as (Hup & Hnone & Hsome).
    destruct (decide (Status (getSession id) = "upcoming")) as [Hu|Hu].
    { rewrite (Hup Hu) in Hslot. injection Hslot as <-. simpl.
      split; [done|]. by intros [? _]. }
    destruct (Objects (getSessionStreams (Slug (getSession id))))
      as [|object0 rest] eqn:Hobj.
    { by rewrite (Hnone Hu eq_refl) in Hslot. }
    destruct (Hsome Hu object0 rest eq_refl) as (n & channels & Hn & Hc & Hperm & _).
    rewrite Hn in Hslot. injection Hslot as <-. simpl.
    assert (length (children n) = length (ChannelUrls object0)) as Hlen.
    { rewrite Hc, length_fmap. apply Permutation_length in Hperm.
      by rewrite Hperm, length_fmap. }
    rewrite bool_decide_eq_true, Hlen. split.
    + intros Hpos. split; [done|]. exists object0, rest. split; [done|].
      destruct (ChannelUrls object0); [simpl in Hpos; lia|done].
    + intros (_ & o & r & [= <- <-] & Hne).
      destruct (ChannelUrls object0); [done|simpl; lia].
Qed.

(** ** The selection handler *)

Lemma custom_options_children title epID (coms : list command) : ∀ node,
  let node' :=
    foldl (λ node com,
             if bool_decide (0 < length (Commands com))
             then AddChild (Some (customNode title epID com)) node
             else node) node coms in
  children node'
  = children node ++
    (Some <$> (customNode title epID <$> filter (λ com, Commands com ≠ []) coms)) ∧
  text node' = text node ∧ node_reference node' = node_reference node ∧
  expanded node' = expanded node.
Proof.
  induction coms as [|com coms IH]; intros node; cbn zeta.
  - simpl. by rewrite app_nil_r.
  - cbn [foldl]. rewrite filter_cons.
    destruct (Commands com) as [|c cs] eqn:Hc; simpl.
    + apply IH.
    + rewrite ?decide_True by done.
      destruct (IH (AddChild (Some (customNode title epID com)) node))
        as (-> & -> & -> & ->).
      simpl. by rewrite <- app_assoc.
Qed.

Lemma addPlaybackNodes_spec con args node title epID :
  let node' := addPlaybackNodes con args node title epID in
  children node'
  = children node ++
    (Some <$> (customNode title epID
                 <$> filter (λ com, Commands com ≠ []) (CustomPlaybackOptions con))) ++
    [Some (SetReference (RefString epID) (NewTreeNode "Play with MPV"));
     Some (SetReference (RefStrings [epID; title]) (NewTreeNode "Download .m3u8"))] ++
    (if checkArgs args "-d"
     then [Some (SetReference (RefString epID) (NewTreeNode "GET URL"))] else []) ∧
  text node' = text node ∧ node_reference node' = node_reference node ∧
  expanded node' = expanded node.
Proof.
  cbn zeta. unfold addPlaybackNodes.
  destruct (custom_options_children title epID (CustomPlaybackOptions con) node)
    as (Hc & Ht & Hr & He).
  cbn zeta in Hc, Ht, Hr, He.
  destruct (checkArgs args "-d"); simpl; rewrite Hc, Ht, Hr, He, <- ?app_assoc; done.
Qed.

(** X23. Selecting, for the first time, a node that carries an episode with
    at least one playback item, or a perspective, adds under it exactly these
    nodes, in this order: one for every custom option that has a command, in
    the order of the configuration, then "Play with MPV", then "Download
    .m3u8", then "GET URL" when the program was started with -d; each is made
    for the first playback item and the title of the episode, or for the
    perspective and its name.  Selecting the node again only collapses it:
    the playback nodes are not added twice.  An episode without playback item
    makes the handler panic (index out of range). *)
Theorem X23_playback_nodes_added_once
    (R : Remote) (con : config) (args : list string) (vodTypes : vodTypesStruct)
    (node : TreeNode) :
  children node = [] → text node ≠ "loading..." →
  (∀ ep, node_reference node = RefEpisode ep → Items ep = [] →
     SelectedFunc con args vodTypes node = IndexPanic) ∧
  (∀ title epID,
     (∃ ep items, node_reference node = RefEpisode ep ∧
                  Items ep = epID :: items ∧ title = Title ep) ∨
     (∃ channel, node_reference node = RefChannel channel ∧
                 title = channel_Name channel ∧ epID = Self channel) →
     ∃ node',
       SelectedFunc con args vodTypes node = PlaybackAdded node' ∧
       children node'
       = (Some <$> (customNode title epID
                      <$> filter (λ com, Commands com ≠ []) (CustomPlaybackOptions con))) ++
         [Some (SetReference (RefString epID) (NewTreeNode "Play with MPV"));
          Some (SetReference (RefStrings [epID; title]) (NewTreeNode "Download .m3u8"))] ++
         (if checkArgs args "-d"
          then [Some (SetReference (RefString epID) (NewTreeNode "GET URL"))] else []) ∧
       SelectedFunc con args vodTypes node'
       = Toggled (SetExpanded (negb (expanded node)) node')).
Proof.
  intros Hc Ht. split.
  - intros ep Hr Hi. unfold SelectedFunc. rewrite Hr, Hc, Hi. simpl.
    by rewrite bool_decide_eq_false_2.
  - intros title epID Href.
    assert (SelectedFunc con args vodTypes node
            = PlaybackAdded (addPlaybackNodes con args node title epID) ∧
            is_nil (node_reference node) = false) as [Hsel Hnil].
    { unfold SelectedFunc. rewrite Hc. simpl.
      rewrite (bool_decide_eq_false_2 _ Ht).
      destruct Href as [(ep & items & Hr & Hi & ->)|(channel & Hr & -> & ->)];
        rewrite Hr; simpl; [by rewrite Hi|done]. }
    exists (addPlaybackNodes con args node title epID). split; [done|].
    destruct (addPlaybackNodes_spec con args node title epID) as (Hc' & Ht' & Hr' & He').
    cbn zeta in Hc', Ht', Hr', He'. rewrite Hc in Hc'. simpl in Hc'.
    split; [done|].
    unfold SelectedFunc. rewrite Hr', Hnil, Ht', (bool_decide_eq_false_2 _ Ht). simpl.
    rewrite bool_decide_eq_true_2; [by rewrite He'|].
    rewrite Hc', length_app. destruct (checkArgs args "-d"); simpl; lia.
Qed.

Lemma X23_playback_nodes_added_once_witness :
  let vlc := {| command_Title := "VLC"; Commands := [["vlc"; "$url"]];
                Watchphrase := ""; CommandToWatch := 0 |} in
  let con := {| Lang := "en";
                CustomPlaybackOptions :=
                  [ vlc;
                    {| command_Title := "empty"; Commands := [];
                       Watchphrase := ""; CommandToWatch := 0 |} ] |} in
  let ep := {| Title := "Race"; Subtitle := ""; Synopsis := ""; DataSourceID := "1901_R01";
               DriverUrls := []; TeamUrls := []; Items := ["/api/item/1"] |} in
  let node := episodeNode ep in
  children node = [] ∧ text node ≠ "loading..." ∧
  ∃ node',
    @SelectedFunc sample_remote con ["f1viewer"; "-d"] {| vod_Objects := [] |} node
    = PlaybackAdded node' ∧
    children node'
    = [Some (SetReference
               (RefContext {| EpID := "/api/item/1"; CustomOptions := vlc;
                              context_Title := "Race" |})
               (NewTreeNode "VLC"));
       Some (SetReference (RefString "/api/item/1") (NewTreeNode "Play with MPV"));
       Some (SetReference (RefStrings ["/api/item/1"; "Race"]) (NewTreeNode "Download .m3u8"));
       Some (SetReference (RefString "/api/item/1") (NewTreeNode "GET URL"))] ∧
    @SelectedFunc sample_remote con ["f1viewer"; "-d"] {| vod_Objects := [] |} node'
    = Toggled (SetExpanded (negb (expanded node)) node').
Proof.
  intros vlc con ep node.
  assert (children node = []) as Hc by reflexivity.
  assert (text node ≠ "loading...") as Ht by discriminate.
  split; [exact Hc|]. split; [exact Ht|].
  apply (proj2 (X23_playback_nodes_added_once sample_remote con ["f1viewer"; "-d"]
                  {| vod_Objects := [] |} node Hc Ht) "Race" "/api/item/1").
  left. exists ep, []. repeat split; reflexivity.
Defined.



Lemma addCategories_spec (vTypes : list vodType) : ∀ root i,
  let root' := addCategories root i vTypes in
  text root' = text root ∧ node_reference root' = node_reference root ∧
  ∀ c, c ∈ children root' ↔
       c ∈ children root ∨
       ∃ k vType, vTypes !! k = Some vType ∧ ContentUrls vType ≠ [] ∧
                  c = Some (categoryNode (i + k) vType).
Proof.
  induction vTypes as [|vType vTypes IH]; intros root i; cbn zeta.
  - simpl. split; [done|]. split; [done|]. intros c. split; [by left|].
    intros [?|(k & v & Hk & _)]; [done|]. by rewrite lookup_nil in Hk.
  - cbn [addCategories].
    destruct (IH (if bool_decide (0 < length (ContentUrls vType))
                  then AddChild (Some (categoryNode i vType)) root else root) (S i))
      as (-> & -> & Hc).
    split; [by destruct (bool_decide _)|]. split; [by destruct (bool_decide _)|].
    intros c. rewrite Hc. clear Hc IH. split.
    + intros [Hin|(k & v & Hk & Hne & ->)].
      * case_bool_decide as Hlen; [|by left]. simpl in Hin.
        apply elem_of_app in Hin as [Hin|Hin%list_elem_of_singleton]; [by left|].
        right. exists 0, vType. rewrite Nat.add_0_r.
        split; [done|]. split; [|by subst c].
        intros Heq. rewrite Heq in Hlen. simpl in Hlen. lia.
      * right. exists (S k), v. split; [done|]. split; [done|].
        by rewrite Nat.add_succ_r.
    + intros [Hin|(k & v & Hk & Hne & ->)].
      * left. case_bool_decide; [|done]. simpl. apply elem_of_app. by left.
      * destruct k as [|k]; simpl in Hk.
        -- injection Hk as ->. left. rewrite Nat.add_0_r.
           rewrite bool_decide_eq_true_2 by (destruct (ContentUrls v); [done|simpl; lia]).
           simpl. apply elem_of_app. right. by left.
        -- right. exists k, v. split; [done|]. split; [done|].
           by rewrite Nat.add_succ_r.
Qed.

(** X25. The tree that [main] builds.  The children of the root are the
    node "Full Race Weekends" and one node for every category that has
    content, which carries the index of the category; a category without
    content has none.  Selecting the root does nothing; selecting "Full Race
    Weekends" starts the expansion of the list of seasons; selecting a
    category node starts [addEpisodes] with an index of [vodTypes.Objects],
    unless the category is named like one of the texts that the handler
    tests first: "loading..." is ignored, and "Play with MPV", "Download
    .m3u8" and "GET URL" make the handler panic on the type assertion. *)
Theorem X25_tree_of_main
    (R : Remote) (con : config) (args : list string) (vodTypes : vodTypesStruct) :
  let root := buildTree vodTypes in
  SelectedFunc con args vodTypes root = Ignored ∧
  SelectedFunc con args vodTypes fullSessions = AllSeasonsStarted ∧
  (∀ c, c ∈ children root ↔
        c = Some fullSessions ∨
        ∃ i vType, vod_Objects vodTypes !! i = Some vType ∧ ContentUrls vType ≠ [] ∧
                   c = Some (categoryNode i vType)) ∧
  (∀ i vType, vod_Objects vodTypes !! i = Some vType →
     SelectedFunc con args vodTypes (categoryNode i vType)
     = if decide (vod_Name vType = "loading...") then Ignored
       else if decide (vod_Name vType ∈ ["Play with MPV"; "Download .m3u8"; "GET URL"])
            then ConversionPanic
            else EpisodesStarted (Z.of_nat i)).
Proof.
  intros root.
  destruct (addCategories_spec (vod_Objects vodTypes)
              (SetSelectable false (SetColor ColorBlue (NewTreeNode "VOD-Types"))) 0)
    as (Ht & Hr & Hc).
  cbn zeta in Ht, Hr, Hc.
  split; [|split; [done|split]].
  - unfold SelectedFunc, root, buildTree. simpl. by rewrite Hr.
  - intros c. unfold root, buildTree. simpl. rewrite elem_of_app, Hc. simpl. split.
    + intros [[Hin|Hin]|Hin%list_elem_of_singleton]; [by apply elem_of_nil in Hin| |].
      * by right.
      * by left.
    + intros [->|Hin]; [right; by left|]. left. by right.
  - intros i vType Hi. unfold SelectedFunc. simpl.
    destruct (decide (vod_Name vType = "loading...")) as [Hl|Hl].
    { by rewrite bool_decide_eq_true_2. }
    rewrite bool_decide_eq_false_2 by done. simpl.
    destruct (decide (vod_Name vType ∈ ["Play with MPV"; "Download .m3u8"; "GET URL"]))
      as [Hres|Hres].
    + repeat (apply elem_of_cons in Hres as [->|Hres]; [done|]).
      by apply elem_of_nil in Hres.
    + rewrite !bool_decide_eq_false_2.
      * apply lookup_lt_Some in Hi.
        destruct (Z.ltb_spec (Z.of_nat i) (Z.of_nat (length (vod_Objects vodTypes))));
          [done|lia].
      * intros Heq. apply Hres. rewrite Heq. right. right. by left.
      * intros Heq. apply Hres. rewrite Heq. right. by left.
      * intros Heq. apply Hres. rewrite Heq. by left.
Qed.

(** ** Selecting a node that is being expanded *)

Lemma keeps_reference_with_node (f : TreeNode → TreeNode) :
  (∀ n, is_nil (node_reference n) = false → is_nil (node_reference (f n)) = false) →
  keeps_reference (λ e, Ret (with_node f e)).
Proof. intros Hf e e' [= <-]. simpl. apply Hf. Qed.

Lemma keeps_reference_attachSession session : keeps_reference (attachSession session).
Proof.
  intros e e'. unfold attachSession. destruct session as [s|]; [|by intros [= <-]].
  destruct (bool_decide _); by intros [= <-].
Qed.

Lemma attachEpisode_reference t sk ep t' sk' :
  attachEpisode (t, sk) ep = Ret (t', sk') → node_reference t' = node_reference t.
Proof.
  unfold attachEpisode. destruct (episode_year ep) as [[year|]|p]; simpl; [| |done].
  - destruct (find_father year (children t)) as [[i|]|p]; simpl; [| |done];
      by intros [= <- _].
  - by intros [= <- _].
Qed.

Lemma keeps_reference_attachDated ep : keeps_reference (attachDated ep).
Proof.
  intros e e'. unfold attachDated.
  destruct (attachEpisode (node e, []) ep) as [[t' sk']|p] eqn:Ha; simpl; [|done].
  intros [= <-]. simpl. by rewrite (attachEpisode_reference _ _ _ _ _ Ha).
Qed.

Lemma expansion_keeps_reference `{SliceSorter} `{Remote} (x : expandable) acts :
  load (expansion_of x) = Ret acts → Forall keeps_reference acts.
Proof.
  destruct x as [episodes|event|season|]; simpl; intros Hload.
  - apply go_bind_Ret in Hload as (sorted & _ & Hret). injection Hret as <-.
    repeat apply Forall_app_2.
    + apply Forall_fmap_intro, keeps_reference_attachDated.
    + apply Forall_fmap_intro. intros ep. by apply keeps_reference_with_node.
    + apply Forall_cons_2; [by intros e e' [= <-]|].
      apply Forall_cons_2; [by intros e e' [= <-]|]. constructor.
  - apply go_bind_Ret in Hload as (sessions & _ & Hret). injection Hret as <-.
    apply Forall_app_2.
    + apply Forall_fmap_intro, keeps_reference_attachSession.
    + apply Forall_cons_2; [by intros e e' [= <-]|]. constructor.
  - injection Hload as <-. apply Forall_app_2.
    + apply Forall_fmap_intro. intros ev. by apply keeps_reference_with_node.
    + apply Forall_cons_2; [by intros e e' [= <-]|]. constructor.
  - injection Hload as <-. apply Forall_app_2.
    + apply Forall_fmap_intro. intros s. by apply keeps_reference_with_node.
    + apply Forall_cons_2; [by apply keeps_reference_with_node|].
      apply Forall_cons_2; [by apply keeps_reference_with_node|].
      apply Forall_cons_2; [by intros e e' [= <-]|]. constructor.
Qed.

Lemma loading_inv_step `{SliceSorter} `{Remote} (x : expandable) m t m' :
  loading_inv m → thread_step (expansion_of x) m t = Ret m' → loading_inv m'.
Proof.
  intros [Htext Href Htodo] Hstep. destruct t; simpl in Hstep.
  - unfold loader_step in Hstep. destruct (ld m) as [|[|a todo]] eqn:Hld.
    + apply go_bind_Ret in Hstep as (acts & Hload & Hret). injection Hret as <-.
      split; simpl; [done|done|].
      intros todo [= <-]. split; [by eapply expansion_keeps_label|].
      by eapply expansion_keeps_reference.
    + injection Hstep as <-. split; rewrite ?Hld; auto.
    + apply go_bind_Ret in Hstep as (e' & Ha & Hret). injection Hret as <-.
      destruct (Htodo _ eq_refl) as [[Hl Hls]%Forall_cons [Hr Hrs]%Forall_cons].
      destruct (Hl _ _ Ha) as (Ht & _).
      split; simpl.
      * rewrite Ht. done.
      * by eapply Hr.
      * by intros todo' [= <-].
  - injection Hstep as <-. split.
    + unfold blinker_step. destruct (bl m) eqn:Hb; simpl; try done;
        try (intros _; by apply Htext).
      by rewrite Hb.
    + unfold blinker_step. destruct (bl m); simpl; try done.
      destruct x; simpl; try done. by destruct (hasSessions (shared m)).
    + by rewrite blinker_step_ld.
Qed.

Lemma loading_inv_reachable `{SliceSorter} `{Remote} (x : expandable) n sched m :
  is_nil (node_reference n) = false →
  run (expansion_of x) sched (selected n) = Ret m → loading_inv m.
Proof.
  intros Hnil. revert sched m. apply (reachable_ind (expansion_of x) n loading_inv).
  - by split.
  - intros m t m'. apply loading_inv_step.
Qed.

(** X26. A node that the handler has started to expand (its reference is
    not nil, its text is not "loading...").  In every state that the
    expansion reaches, under every interleaving: while [blinkNode] is between
    its first and its last statement the node is labelled "loading..." and a
    selection of it does nothing; and when the blinking goroutine is through
    and the node has a child, a selection only collapses or expands it: the
    expansion is not started again. *)
Theorem X26_selection_of_an_expanding_node
    (S : SliceSorter) (R : Remote) (con : config) (args : list string)
    (vodTypes : vodTypesStruct) (x : expandable) (n : TreeNode)
    (sched : list thread) (m : machine) :
  is_nil (node_reference n) = false → text n ≠ "loading..." →
  run (expansion_of x) sched (selected n) = Ret m →
  (blinking (bl m) = true →
     SelectedFunc con args vodTypes (node (shared m)) = Ignored) ∧
  (bl m = BlinkDone → children (node (shared m)) ≠ [] →
     SelectedFunc con args vodTypes (node (shared m))
     = Toggled (SetExpanded (negb (expanded (node (shared m)))) (node (shared m)))).
Proof.
  intros Hnil Htext Hrun.
  destruct (loading_inv_reachable x n sched m Hnil Hrun) as [Hloading Href _].
  split.
  - intros Hb. unfold SelectedFunc. rewrite (Hloading Hb).
    by rewrite orb_true_r.
  - intros Hbl Hc.
    pose proof (label_blinker x n m (label_inv_reachable x n sched m Hrun)) as Hinv.
    rewrite Hbl in Hinv. destruct Hinv as [Hfinal _].
    assert (text (node (shared m)) ≠ "loading...") as Ht.
    { unfold final_label in Hfinal.
      assert (flagged n (shared m) → text (node (shared m)) ≠ "loading...") as Hfl.
      { intros (Hf & _) Heq. rewrite Hf in Heq.
        apply (f_equal String.length) in Heq. rewrite length_app_string in Heq.
        simpl in Heq. lia. }
      assert (unflagged (expansion_of x) n (shared m) →
              text (node (shared m)) ≠ "loading...") as Hun.
      { intros (Hu & _). by rewrite Hu. }
      destruct x; auto. destruct (hasSessions (shared m)); auto. }
    unfold SelectedFunc. rewrite Href, (bool_decide_eq_false_2 _ Ht). simpl.
    rewrite bool_decide_eq_true_2; [done|].
    destruct (children (node (shared m))); [done|simpl; lia].
Qed.

Lemma X26_selection_of_an_expanding_node_witness :
  let con := {| Lang := "en"; CustomPlaybackOptions := [] |} in
  let event := @getEvent sample_remote "/api/event/monaco" in
  let n := @eventNode sample_remote "/api/event/monaco" in
  let sched := [Blinker; Blinker; Loader; Loader; Blinker; Blinker; Loader; Loader;
                Blinker; Blinker; Blinker; Blinker; Blinker; Blinker; Blinker] in
  ∃ n0 m,
    n = Some n0 ∧
    is_nil (node_reference n0) = false ∧ text n0 ≠ "loading..." ∧
    run (@expansion_of go_sort sample_remote (Event event)) sched (selected n0) = Ret m ∧
    bl m = BlinkDone ∧ children (node (shared m)) ≠ [] ∧
    @SelectedFunc sample_remote con [] {| vod_Objects := [] |} (node (shared m))
    = Toggled (SetExpanded (negb (expanded (node (shared m)))) (node (shared m))).
Proof.
  intros con event n sched.
  assert (∃ n0, n = Some n0 ∧ is_nil (node_reference n0) = false ∧
                text n0 ≠ "loading...") as (n0 & Hn & Hnil & Ht).
  { eexists. split; [reflexivity|]. split; [reflexivity|discriminate]. }
  assert (∃ m, run (@expansion_of go_sort sample_remote (Event event)) sched (selected n0)
               = Ret m ∧ bl m = BlinkDone ∧ children (node (shared m)) ≠ [])
    as (m & Hrun & Hbl & Hc).
  { injection Hn as <-. eexists. split; [reflexivity|]. split; [reflexivity|discriminate]. }
  exists n0, m. split; [exact Hn|]. split; [exact Hnil|]. split; [exact Ht|].
  split; [exact Hrun|]. split; [exact Hbl|]. split; [exact Hc|].
  exact (proj2 (X26_selection_of_an_expanding_node go_sort sample_remote con []
                  {| vod_Objects := [] |} (Event event) n0 sched m Hnil Ht Hrun) Hbl Hc).
Defined.

(** ** What an expansion leaves of the node, the label apart *)

Lemma same_tree_refl e : same_tree e e.
Proof. done. Qed.

Lemma same_tree_trans e1 e2 e3 : same_tree e1 e2 → same_tree e2 e3 → same_tree e1 e3.
Proof. unfold same_tree. intros (-> & -> & -> & -> & ->) (-> & -> & -> & -> & ->). done. Qed.

Lemma same_tree_sym e1 e2 : same_tree e1 e2 → same_tree e2 e1.
Proof. unfold same_tree. intros (-> & -> & -> & -> & ->). done. Qed.

Lemma respects_tree_with_node (f : TreeNode → TreeNode) :
  (∀ n n', children n = children n' → node_reference n = node_reference n' →
           expanded n = expanded n' →
           children (f n) = children (f n') ∧ node_reference (f n) = node_reference (f n') ∧
           expanded (f n) = expanded (f n')) →
  respects_tree (λ e, Ret (with_node f e)).
Proof.
  intros Hf e e' (Hc & Hr & He & Hh & Hd). unfold same_tree. simpl.
  destruct (Hf _ _ Hc Hr He) as (-> & -> & ->). done.
Qed.

Lemma respects_tree_AddChild c : respects_tree (λ e, Ret (with_node (AddChild c) e)).
Proof. apply respects_tree_with_node. intros n n' Hc Hr He. simpl. by rewrite Hc. Qed.

Lemma respects_tree_set_done : respects_tree (λ e, Ret (set_done e)).
Proof. intros e e' (Hc & Hr & He & Hh & Hd). unfold same_tree. simpl. auto. Qed.

Lemma respects_tree_Draw : respects_tree (λ e, Ret (Draw e)).
Proof. intros e e' (Hc & Hr & He & Hh & Hd). unfold same_tree. simpl. auto. Qed.

Lemma respects_tree_attachSession session : respects_tree (attachSession session).
Proof.
  intros e e' (Hc & Hr & He & Hh & Hd). unfold attachSession.
  destruct session as [s|]; [|done].
  destruct (bool_decide (0 < length (children s))); [|done].
  unfold same_tree. simpl. by rewrite Hc.
Qed.

Lemma respects_tree_attachDated ep : respects_tree (attachDated ep).
Proof.
  intros e e' (Hc & Hr & He & Hh & Hd). unfold attachDated, attachEpisode.
  destruct (episode_year ep) as [[year|]|p]; simpl; [|done|done].
  rewrite <- Hc.
  destruct (find_father year (children (node e))) as [[i|]|p]; simpl; [| |done].
  - unfold same_tree. simpl. by rewrite Hc.
  - unfold same_tree. simpl. by rewrite Hc.
Qed.

Lemma expansion_respects_tree `{SliceSorter} `{Remote} (x : expandable) acts :
  load (expansion_of x) = Ret acts → Forall respects_tree acts.
Proof.
  destruct x as [episodes|event|season|]; simpl; intros Hload.
  - apply go_bind_Ret in Hload as (sorted & _ & Hret). injection Hret as <-.
    repeat apply Forall_app_2.
    + apply Forall_fmap_intro, respects_tree_attachDated.
    + apply Forall_fmap_intro. intros ep. apply respects_tree_AddChild.
    + apply Forall_cons_2; [apply respects_tree_set_done|].
      apply Forall_cons_2; [apply respects_tree_Draw|]. constructor.
  - apply go_bind_Ret in Hload as (sessions & _ & Hret). injection Hret as <-.
    apply Forall_app_2.
    + apply Forall_fmap_intro, respects_tree_attachSession.
    + apply Forall_cons_2; [apply respects_tree_set_done|]. constructor.
  - injection Hload as <-. apply Forall_app_2.
    + apply Forall_fmap_intro. intros ev. apply respects_tree_AddChild.
    + apply Forall_cons_2; [apply respects_tree_set_done|]. constructor.
  - injection Hload as <-. apply Forall_app_2.
    + apply Forall_fmap_intro. intros s. apply respects_tree_AddChild.
    + apply Forall_cons_2; [by apply respects_tree_with_node|].
      apply Forall_cons_2; [by apply respects_tree_with_node|].
      apply Forall_cons_2; [apply respects_tree_set_done|]. constructor.
Qed.

Lemma blinker_step_same_tree `{SliceSorter} `{Remote} (x : expandable) m :
  same_tree (shared m) (shared (blinker_step (expansion_of x) m)).
Proof.
  unfold blinker_step. destruct (bl m); try done.
  destruct x; try done. simpl. by destruct (hasSessions (shared m)).
Qed.

Lemma tree_progress_step `{SliceSorter} `{Remote} (x : expandable) n acts m t m' :
  load (expansion_of x) = Ret acts →
  tree_progress acts n m → thread_step (expansion_of x) m t = Ret m' →
  tree_progress acts n m'.
Proof.
  unfold tree_progress. intros Hload Hp Hstep. destruct t; simpl in Hstep.
  - unfold loader_step in Hstep. destruct (ld m) as [|[|a todo]] eqn:Hld.
    + rewrite Hload in Hstep. injection Hstep as <-. simpl.
      exists [], (shared (selected n)). done.
    + injection Hstep as <-. by rewrite Hld.
    + apply go_bind_Ret in Hstep as (e' & Ha & Hret). injection Hret as <-. simpl.
      destruct Hp as (ran & e1 & Hacts' & Hran & Hag).
      assert (respects_tree a) as Hresp.
      { pose proof (expansion_respects_tree x acts Hload) as Hall.
        rewrite Forall_forall in Hall. apply Hall. rewrite Hacts'.
        apply elem_of_app. right. by left. }
      specialize (Hresp _ _ Hag). rewrite Ha in Hresp.
      destruct (a e1) as [e1'|p] eqn:Ha1; [|done].
      exists (ran ++ [a]), e1'. split; [by rewrite <- app_assoc|]. split; [|done].
      apply loader_alone_snoc. eauto.
  - injection Hstep as <-. rewrite blinker_step_ld.
    pose proof (blinker_step_same_tree x m) as Hag.
    destruct (ld m) as [|todo].
    + eapply same_tree_trans; [apply same_tree_sym, Hag|done].
    + destruct Hp as (ran & e1 & ? & ? & ?). exists ran, e1. split; [done|]. split; [done|].
      eapply same_tree_trans; [apply same_tree_sym, Hag|done].
Qed.

Lemma tree_progress_reachable `{SliceSorter} `{Remote} (x : expandable) n acts sched m :
  load (expansion_of x) = Ret acts →
  run (expansion_of x) sched (selected n) = Ret m → tree_progress acts n m.
Proof.
  intros Hload. revert sched m.
  apply (reachable_ind (expansion_of x) n (tree_progress acts n)).
  - unfold tree_progress. simpl. apply same_tree_refl.
  - intros m t m'. by apply tree_progress_step.
Qed.

Lemma loader_alone_season_nodes (seasons : list seasonStruct) : ∀ e,
  loader_alone
    ((λ s e, Ret (with_node (AddChild (Some (seasonNode s))) e)) <$> seasons) e
  = Ret (with_node
           (λ t, SetChildren (children t ++ (Some <$> (seasonNode <$> seasons))) t) e).
Proof.
  induction seasons as [|s seasons IH]; intros e.
  - simpl. destruct e as [[]]. unfold with_node, SetChildren. simpl.
    by rewrite app_nil_r.
  - rewrite fmap_cons, loader_alone_cons. cbn [go_bind]. rewrite IH.
    f_equal. unfold with_node. simpl. by rewrite <- app_assoc.
Qed.

(** X27. When both goroutines of the expansion of "Full Race Weekends" are
    through, under whatever interleaving, the node has kept its children and
    gained one node for every season of the catalog, in order, each with the
    name of its season and the season as reference; the node is expanded,
    and its reference is the list of seasons that was fetched. *)
Theorem X27_all_seasons_populated
    (S : SliceSorter) (R : Remote) (n : TreeNode) (sched : list thread) (m : machine) :
  run expandAllSeasons sched (selected n) = Ret m → finished m →
  children (node (shared m))
  = children n ++ (Some <$> (seasonNode <$> Seasons getSeasons)) ∧
  node_reference (node (shared m)) = RefAllSeasons getSeasons ∧
  expanded (node (shared m)) = true.
Proof.
  intros Hrun [Hld _].
  pose proof (tree_progress_reachable AllSeasons n _ sched m eq_refl Hrun) as Hp.
  unfold tree_progress in Hp. rewrite Hld in Hp.
  destruct Hp as (ran & e1 & Hsplit & Hran & Hc & Hr & He & _).
  rewrite app_nil_r in Hsplit. subst ran.
  rewrite loader_alone_app, loader_alone_season_nodes in Hran.
  cbn in Hran. injection Hran as <-. by rewrite Hc, Hr, He.
Qed.

Lemma X27_all_seasons_populated_witness :
  let R := {| getDriver := @getDriver sample_remote; getTeam := @getTeam sample_remote;
              getSeasons := {| Seasons := [ {| season_Name := "2019";
                                               EventoccurrenceUrls := [] |} ] |};
              getEvent := @getEvent sample_remote; getSession := @getSession sample_remote;
              getSessionStreams := @getSessionStreams sample_remote;
              getPlayableURL := @getPlayableURL sample_remote;
              downloadAsset := @downloadAsset sample_remote |} in
  let sched := [Blinker; Loader; Blinker; Loader; Loader; Blinker; Loader; Loader;
                Blinker; Blinker; Blinker; Blinker; Blinker; Blinker; Blinker] in
  ∃ m, run (@expandAllSeasons R) sched (selected fullSessions) = Ret m ∧ finished m ∧
       children (node (shared m))
       = [Some (seasonNode {| season_Name := "2019"; EventoccurrenceUrls := [] |})] ∧
       node_reference (node (shared m)) = RefAllSeasons (@getSeasons R) ∧
       expanded (node (shared m)) = true.
Proof.
  intros R sched.
  assert (∃ m, run (@expandAllSeasons R) sched (selected fullSessions) = Ret m ∧ finished m)
    as (m & Hrun & Hfin).
  { eexists. split; [reflexivity|]. split; reflexivity. }
  exists m. split; [exact Hrun|]. split; [exact Hfin|].
  exact (X27_all_seasons_populated go_sort R fullSessions sched m Hrun Hfin).
Defined.

(** ** The external commands of a session *)

Lemma string_app_inj (p s t : string) : p +:+ s = p +:+ t → s = t.
Proof.
  induction p as [|c p IH]; [done|].
  change (String c (p +:+ s) = String c (p +:+ t) → s = t).
  intros [= Heq]. by apply IH.
Qed.

Lemma checkCommand_loop (lookPath : string → bool) (cmds : list string) :
  ∀ session found,
    let r := foldl (checkCommand lookPath) (session, found) cmds in
    (∀ c, commands r.1 !! c
          = if decide (c ∈ cmds) then Some (lookPath c) else commands session !! c) ∧
    logged r.1
    = logged session ++
      ((λ c, LogInfo ("could not find " +:+ c)) <$> filter (λ c, lookPath c = false) cmds) ∧
    r.2 = found + length (filter (λ c, lookPath c = true) cmds).
Proof.
  induction cmds as [|cmd cmds IH]; intros session found; cbn zeta.
  - simpl. rewrite app_nil_r. split; [|split; [done|lia]].
    intros c. destruct (decide (c ∈ [])) as [Hin|]; [by apply elem_of_nil in Hin|done].
  - cbn [foldl]. rewrite !filter_cons.
    destruct (IH (checkCommand lookPath (session, found) cmd).1
                 (checkCommand lookPath (session, found) cmd).2) as (Hc & Hl & Hf).
    cbn zeta in Hc, Hl, Hf.
    rewrite <- surjective_pairing in Hc, Hl, Hf. rewrite Hl, Hf. clear Hl Hf.
    split; [|split].
    + intros c. rewrite Hc. clear Hc.
      destruct (decide (c ∈ cmds)) as [Hin|Hnin].
      * rewrite decide_True; [done|by right].
      * destruct (decide (c = cmd)) as [->|Hne].
        -- rewrite decide_True by (by left).
           unfold checkCommand. destruct (lookPath cmd); simpl; by rewrite lookup_insert_eq.
        -- rewrite decide_False by (by intros [?|?]%elem_of_cons).
           unfold checkCommand. destruct (lookPath cmd); simpl;
             by rewrite lookup_insert_ne.
    + unfold checkCommand. destruct (lookPath cmd) eqn:Hok; simpl.
      * done.
      * by rewrite <- app_assoc.
    + unfold checkCommand. destruct (lookPath cmd) eqn:Hok; simpl.
      * lia.
      * done.
Qed.

(** X28. After [checkCommands], a command of the list is available exactly
    when [exec.LookPath] found it, and the availability of every other
    command is as it was; a command that was never checked is not available.
    Every command of the list that was not found is logged as an
    information, and the error "Both MPV and VLC are unavailable!" is logged
    exactly when no command of the list was found - also when the list is
    empty. *)
Theorem X28_checkCommands_availability
    (lookPath : string → bool) (cmds : list string) (session : viewerSession) :
  let session' := checkCommands lookPath cmds session in
  (∀ c, commandAvailable c session'
        = if decide (c ∈ cmds) then lookPath c else commandAvailable c session) ∧
  (∀ c, commands session !! c = None → c ∉ cmds → commandAvailable c session' = false) ∧
  ∃ new,
    logged session' = logged session ++ new ∧
    (LogError "Both MPV and VLC are unavailable!" ∈ new ↔
     Forall (λ c, lookPath c = false) cmds) ∧
    (∀ c, LogInfo ("could not find " +:+ c) ∈ new ↔ c ∈ cmds ∧ lookPath c = false).
Proof.
  intros session'.
  destruct (checkCommand_loop lookPath cmds session 0) as (Hc & Hl & Hf).
  cbn zeta in Hc, Hl, Hf.
  assert (commands session'
          = commands (foldl (checkCommand lookPath) (session, 0) cmds).1) as Hcom.
  { unfold session', checkCommands.
    destruct (foldl (checkCommand lookPath) (session, 0) cmds) as [s found].
    by destruct (found =? 0). }
  assert (∀ c, commandAvailable c session'
               = if decide (c ∈ cmds) then lookPath c else commandAvailable c session)
    as Havail.
  { intros c. unfold commandAvailable. rewrite Hcom, Hc. by destruct (decide (c ∈ cmds)). }
  split; [done|]. split.
  { intros c Hnone Hnin. rewrite Havail, decide_False by done.
    unfold commandAvailable. by rewrite Hnone. }
  assert (∀ c, LogInfo ("could not find " +:+ c)
               ∈ ((λ c, LogInfo ("could not find " +:+ c))
                    <$> filter (λ c, lookPath c = false) cmds)
               ↔ c ∈ cmds ∧ lookPath c = false) as Hinfo.
  { intros c. rewrite list_elem_of_fmap. split.
    - intros (c' & [= Heq%string_app_inj] & Hin). subst c'.
      apply list_elem_of_filter in Hin. tauto.
    - intros [Hin Hok]. exists c. split; [done|]. by apply list_elem_of_filter. }
  assert (∀ msg, LogError msg
                 ∉ ((λ c, LogInfo ("could not find " +:+ c))
                      <$> filter (λ c, lookPath c = false) cmds)) as Hnoerr.
  { intros msg (c & Heq & _)%list_elem_of_fmap. discriminate. }
  assert (length (filter (λ c, lookPath c = true) cmds) = 0
          ↔ Forall (λ c, lookPath c = false) cmds) as Hnone.
  { clear. induction cmds as [|c cmds IH]; [by split; [constructor|]|].
    rewrite filter_cons, Forall_cons. destruct (lookPath c) eqn:Hok.
    - rewrite decide_True by done. simpl. split; [lia|]. by intros [? _].
    - rewrite decide_False by done. rewrite IH. tauto. }
  unfold session', checkCommands.
  destruct (foldl (checkCommand lookPath) (session, 0) cmds) as [s found] eqn:Hfold.
  simpl in Hl, Hf.
  destruct (Nat.eqb_spec found 0) as [H0|H0].
  - eexists. simpl. rewrite Hl, <- app_assoc. split; [done|]. split.
    + split; [|intros _; apply elem_of_app; right; by left].
      intros _. apply Hnone. lia.
    + intros c. rewrite elem_of_app, Hinfo. split; [|tauto].
      intros [?|Hin%list_elem_of_singleton]; [done|discriminate].
  - eexists. split; [done|]. split.
    + split; [by intros ?%Hnoerr|]. intros Hall%Hnone. lia.
    + done.
Qed.

(** ** [sanitizeFileName] *)









Section trimming.
Context (runes : list (list ascii)).
Context (Hrunes : Forall (λ r, r ≠ []) runes).


Lemma leading_rune_None l r :
  leading_rune runes l = None → r ∈ runes → ¬ r `prefix_of` l.
Proof.
  clear Hrunes. induction runes as [|r0 rs IH]; [by intros _ ?%elem_of_nil|]. simpl.
  destruct (decide (r0 `prefix_of` l)); [done|].
  intros Hn [->|Hin]%elem_of_cons; auto.
Qed.





End trimming.









Example sanitizeFileName_examples :
  sanitizeFileName false "  2019/Monaco   GP Race / Highlights  "
  = "2019 Monaco GP Race Highlights" ∧
  sanitizeFileName true "a<b>c:d?e*f|g\h/i" = "a b c d e f g h i" ∧
  sanitizeFileName false "a<b>c:d?e*f|g\h/i" = "a<b>c:d?e*f|g\h i".
Proof. repeat split; reflexivity. Qed.

(** ** [withBlink] and the later [blinkNode] *)

Lemma blink_inv_step loadingColor after n st ev :
  blink_inv after n st → blink_inv after n (blink_step loadingColor after st ev).
Proof.
  intros Hinv. pose proof Hinv as [Htodo Hpc]. destruct ev; unfold blink_step.
  - (* a statement of fn *)
    destruct (wk st) as [[|f todo]| |] eqn:Hwk; [| |done|done].
    + split; simpl; [done|]. destruct (bk st); try done; by destruct Hpc as (? & ? & ?).
    + pose proof (Htodo _ eq_refl) as [Hf Hall]%Forall_cons.
      destruct (Hf (blink_node st)) as [Ht Hc].
      split; simpl; [by intros ? [= <-]|].
      destruct (bk st); rewrite ?Ht, ?Hc; try done; by destruct Hpc as (? & ? & ?).
  - (* a statement of blinkNode *)
    destruct (bk st) eqn:Hbk; try done; (split; simpl; [done|]).
    all: try done.
    + destruct Hpc as [? ?]. auto.
    + destruct Hpc as (? & ? & ?). auto.
    + destruct Hpc as [? ?]. auto.
    + destruct Hpc as (? & ? & ?). split; [done|]. by intros ->.
  - (* a tick *)
    destruct (bk st) eqn:Hbk; try done.
  - (* the receive *)
    destruct (bk st) eqn:Hbk; try done.
    destruct (wk st) eqn:Hwk; try done.
    split; simpl; [done|]. by destruct Hpc as (? & ? & ?).
Qed.

Lemma blink_inv_reachable loadingColor after n fn sched :
  Forall keeps_text_and_color fn →
  blink_inv after n (withBlink loadingColor n fn after sched).
Proof.
  intros Hfn. unfold withBlink.
  induction sched as [|ev sched IH] using rev_ind.
  - split; simpl; [by intros ? [= <-]|done].
  - rewrite foldl_app. simpl. by apply blink_inv_step.
Qed.

(** X11. [withBlink] with an [fn] that leaves the text and the colour of the
    node alone, under every interleaving of the two goroutines and the
    ticker: [blinkNode] leaves its loop only when [fn] has returned, so that
    [after] runs after [fn]; while it is in the loop the node is labelled
    "loading..."; and when [blinkNode] has returned the node has the text and
    the colour it had when [withBlink] was called, whatever the number of
    ticks. *)
Theorem X11_withBlink_joins_and_restores
    (loadingColor : color) (n : TreeNode) (fn : list (TreeNode → TreeNode))
    (after : option (TreeNode → TreeNode)) (sched : list blink_event) :
  Forall keeps_text_and_color fn →
  let st := withBlink loadingColor n fn after sched in
  ((∃ t oc c1 c2, bk st = B2Select t oc c1 c2) → text (blink_node st) = "loading...") ∧
  (bk st = B2After ∨ bk st = B2Returned → wk st = Sent) ∧
  (bk st = B2After ∨ (bk st = B2Returned ∧ after = None) →
   text (blink_node st) = text n ∧ node_color (blink_node st) = node_color n).
Proof.
  intros Hfn st.
  destruct (blink_inv_reachable loadingColor after n fn sched Hfn) as [_ Hpc].
  fold st in Hpc. split; [|split].
  - intros (t & oc & c1 & c2 & Hb). rewrite Hb in Hpc. by destruct Hpc as (? & ? & ?).
  - intros [Hb|Hb]; rewrite Hb in Hpc; [by destruct Hpc as (? & ? & ?)|by destruct Hpc].
  - intros [Hb|[Hb Hafter]]; rewrite Hb in Hpc.
    + by destruct Hpc as (? & ? & ?).
    + destruct Hpc as [_ Hpc]. by apply Hpc.
Qed.

Lemma X11_withBlink_joins_and_restores_witness :
  let n := SetColor ColorYellow (NewTreeNode "Season 2019") in
  let fn := [AddChild (Some (NewTreeNode "Monaco")); SetExpanded true] in
  let sched := [Blink; Work; Blink; Blink; Tick; Blink; Work; Blink; Tick; Blink; Blink;
                Tick; Blink; Blink; Work; Receive; Blink; Blink; Blink; Blink] in
  let st := withBlink ColorBlue n fn None sched in
  Forall keeps_text_and_color fn ∧
  bk st = B2Returned ∧ wk st = Sent ∧
  text (blink_node st) = "Season 2019" ∧ node_color (blink_node st) = ColorYellow.
Proof.
  intros n fn sched st.
  assert (Forall keeps_text_and_color fn) as Hfn by (repeat constructor).
  assert (bk st = B2Returned) as Hb by reflexivity.
  split; [exact Hfn|]. split; [exact Hb|].
  destruct (X11_withBlink_joins_and_restores ColorBlue n fn None sched Hfn)
    as (_ & Hjoin & Hlabel).
  split; [exact (Hjoin (or_intror Hb))|].
  exact (Hlabel (or_intror (conj Hb eq_refl))).
Defined.

(** ** [handlePaste] *)

Lemma string_app_nil_l (s : string) : "" +:+ s = s.
Proof. done. Qed.

Lemma string_app_cons (c : ascii) (s t : string) : String c s +:+ t = String c (s +:+ t).
Proof. done. Qed.

Lemma substring_all (s : string) : String.substring 0 (String.length s) s = s.
Proof. induction s as [|c s IH]; [done|]. simpl. by rewrite IH. Qed.

Lemma substring_split (s : string) : ∀ p,
  p ≤ String.length s →
  String.substring 0 p s +:+ String.substring p (String.length s - p) s = s.
Proof.
  induction s as [|c s IH]; intros p Hp.
  - simpl in Hp. by replace p with 0 by lia.
  - destruct p as [|p].
    + rewrite substring_0_0, string_app_nil_l, Nat.sub_0_r. apply substring_all.
    + simpl in Hp. simpl String.substring. simpl String.length.
      rewrite string_app_cons, IH by lia. done.
Qed.

Lemma substring_prefix_length (s : string) : ∀ p,
  p ≤ String.length s → String.length (String.substring 0 p s) = p.
Proof.
  induction s as [|c s IH]; intros p Hp.
  - simpl in Hp. by replace p with 0 by lia.
  - destruct p as [|p]; [done|]. simpl in *. rewrite IH by lia. done.
Qed.

(** X30. [handlePaste] panics (slice bounds) exactly when the cursor
    position is negative or beyond the end of the text.  Otherwise the new
    text is the old text with the content of the clipboard put in at the
    cursor: the old text splits into the bytes before the cursor and the
    bytes behind it, and the new text is the bytes before the cursor, then
    the content of the clipboard, then the bytes behind the cursor.  An error
    of the clipboard is logged, and the paste is made all the same. *)
Theorem X30_handlePaste_inserts_at_cursor
    (session : viewerSession) (clipContent : string) (err : option string)
    (cursorPos : Z) (text : string) :
  let r := handlePaste session (clipContent, err) cursorPos text in
  (returns r.2 ↔ (0 ≤ cursorPos ≤ Z.of_nat (String.length text))%Z) ∧
  (∀ new, r.2 = Ret new →
     ∃ before behind,
       text = before +:+ behind ∧
       Z.of_nat (String.length before) = cursorPos ∧
       new = before +:+ clipContent +:+ behind) ∧
  logged r.1
  = logged session ++
    (if err is Some msg then [LogError ("could not paste: " +:+ msg)] else []).
Proof.
  cbn zeta. unfold handlePaste. cbn [fst snd].
  split; [|split].
  - destruct (decide (0 ≤ cursorPos)%Z) as [Hpos|Hneg].
    + destruct (decide (Z.to_nat cursorPos ≤ String.length text)) as [Hle|Hgt].
      * rewrite !go_slice_Ret by lia. split; [lia|by eexists].
      * rewrite go_slice_Panic by lia. split; [by intros [? ?]|lia].
    + split; [by intros [? ?]|lia].
  - intros new Hnew.
    destruct (decide (0 ≤ cursorPos)%Z) as [Hpos|Hneg]; [|done].
    destruct (decide (Z.to_nat cursorPos ≤ String.length text)) as [Hle|Hgt].
    2:{ by rewrite go_slice_Panic in Hnew by lia. }
    rewrite !go_slice_Ret in Hnew by lia. cbn [go_bind] in Hnew.
    injection Hnew as <-. rewrite Nat.sub_0_r.
    exists (String.substring 0 (Z.to_nat cursorPos) text),
      (String.substring (Z.to_nat cursorPos) (String.length text - Z.to_nat cursorPos) text).
    split; [by rewrite substring_split|]. split; [|done].
    rewrite substring_prefix_length by done. lia.
  - destruct err; simpl; [done|by rewrite app_nil_r].
Qed.

(** A paste in the middle of a text, at its end, and past its end. *)
Example handlePaste_examples :
  let session := {| commands := ∅; logged := [] |} in
  (handlePaste session ("XY", None) 2 "hello").2 = Ret "heXYllo" ∧
  (handlePaste session ("XY", None) 5 "hello").2 = Ret "helloXY" ∧
  (handlePaste session ("XY", None) 6 "hello").2 = Panic SliceBounds ∧
  (handlePaste session ("XY", None) (-1) "hello").2 = Panic SliceBounds.
Proof. repeat split; reflexivity. Qed.
